(** * custom::deque — block-array deque with a front offset

    Shallow embedding of the two variants of the header that the repository
    carries:

    - [DequeH]  : src/deque.h (the skeleton: most mutators have empty bodies,
                  the index helpers do not wrap);
    - [Part0]   : src/unnamed/part_000 (the worked-out variant: wrapping index
                  helpers, push_front, pop_front, pop_back, clear, reallocate,
                  copy assignment).

    Machine integers are mathematical integers with the conversions written
    out ([to_int] for the 32-bit [int], [to_size] for the 64-bit [size_t]);
    operations that the C++ standard leaves undefined (null dereference,
    out-of-range subscripts, division by zero, reading a raw slot) and failed
    assertions are results of an error monad. *)

From Stdlib Require Import ZArith Lia.
From stdpp Require Import base tactics option list relations.

Local Open Scope Z_scope.

(** ** Machine integers *)

Definition int_min : Z := - 2 ^ 31.
Definition int_max : Z := 2 ^ 31 - 1.
Definition size_max : Z := 2 ^ 64 - 1.

(** Conversion to [int] (two's complement wrap-around). *)
Definition to_int (z : Z) : Z := (z + 2 ^ 31) mod 2 ^ 32 - 2 ^ 31.

(** Conversion to [size_t] (reduction modulo 2^64). *)
Definition to_size (z : Z) : Z := z mod 2 ^ 64.

(** ** Outcomes of an operation *)

Inductive fault : Set :=
  | AssertFailed      (* assert(...) did not hold *)
  | NullDeref         (* subscript through a null pointer *)
  | OutOfBounds       (* subscript outside the allocated array *)
  | DivByZero         (* / or % by zero *)
  | Uninitialized     (* value read from a raw (unconstructed) slot *)
  | OutOfFuel.        (* loop bound of the model exhausted *)

Inductive result (A : Type) : Type :=
  | Ok (a : A)
  | Fault (f : fault).
Arguments Ok {A} a.
Arguments Fault {A} f.

#[global] Instance result_ret : MRet result := @Ok.
#[global] Instance result_bind : MBind result := λ A B f m,
  match m with
  | Ok a => f a
  | Fault e => Fault e
  end.

Definition is_ok {A} (r : result A) : bool :=
  match r with Ok _ => true | Fault _ => false end.

(** ** Loops

    [while_loop fuel cond body s] runs [while (cond) body] from state [s];
    every call site passes a fuel that exceeds the number of iterations the
    loop can make. *)

Fixpoint while_loop {S : Type} (fuel : nat) (cond : S → result bool)
    (body : S → result S) (s : S) : result S :=
  match fuel with
  | O => Fault OutOfFuel
  | Datatypes.S fuel' =>
      c ← cond s;
      if c : bool then s' ← body s; while_loop fuel' cond body s'
      else Ok s
  end.

(** [for (i = init; test i; i = next i) body] over a carried state. *)
Definition for_loop {S : Type} (fuel : nat) (test : Z → bool) (next : Z → Z)
    (body : Z → S → result S) (init : Z) (s : S) : result S :=
  '(_, s') ← while_loop fuel
      (λ '(i, _), Ok (test i))
      (λ '(i, s), s' ← body i s; Ok (next i, s'))
      (init, s);
  Ok s'.

(** ** Memory: an array of block pointers, each block an array of slots *)

(** A slot holds a constructed value or is raw memory. *)
Abbreviation cell T := (option T) (only parsing).
(** A block is an array of slots. *)
Abbreviation block T := (list (option T)) (only parsing).
(** An entry of the block-pointer array: [None] is [nullptr]. *)
Abbreviation block_ptr T := (option (list (option T))) (only parsing).
(** [T** data]: [None] is [nullptr]. *)
Abbreviation block_array T := (option (list (option (list (option T))))) (only parsing).

Section Memory.
Context {A : Type}.

(** [l[i]] of a C array: defined inside the allocation only. *)
Definition subscript (l : list A) (i : Z) : result A :=
  if i <? 0 then Fault OutOfBounds
  else match l !! Z.to_nat i with
       | Some a => Ok a
       | None => Fault OutOfBounds
       end.

(** [l[i] = a]. *)
Definition assign (l : list A) (i : Z) (a : A) : result (list A) :=
  if i <? 0 then Fault OutOfBounds
  else match l !! Z.to_nat i with
       | Some _ => Ok (<[Z.to_nat i := a]> l)
       | None => Fault OutOfBounds
       end.
End Memory.

Section Blocks.
Context {T : Type}.

(** [data[ib]], the block pointer itself. *)
Definition ptr_get (data : block_array T) (ib : Z) : result (block_ptr T) :=
  match data with
  | None => Fault NullDeref
  | Some arr => subscript arr ib
  end.

(** [data[ib] = p]. *)
Definition ptr_set (data : block_array T) (ib : Z) (p : block_ptr T)
    : result (block_array T) :=
  match data with
  | None => Fault NullDeref
  | Some arr => arr' ← assign arr ib p; Ok (Some arr')
  end.

(** The slot [data[ib][ic]], constructed or raw. *)
Definition cell_get (data : block_array T) (ib ic : Z) : result (cell T) :=
  p ← ptr_get data ib;
  match p with
  | None => Fault NullDeref
  | Some blk => subscript blk ic
  end.

(** Overwrite the slot [data[ib][ic]]. *)
Definition cell_set (data : block_array T) (ib ic : Z) (c : cell T)
    : result (block_array T) :=
  p ← ptr_get data ib;
  match p with
  | None => Fault NullDeref
  | Some blk => blk' ← assign blk ic c; ptr_set data ib (Some blk')
  end.

(** The lvalue [data[ib][ic]]: forming it needs the slot to exist. *)
Definition element_ref (data : block_array T) (ib ic : Z) : result (Z * Z) :=
  _ ← cell_get data ib ic; Ok (ib, ic).

(** Reading the value behind a reference. *)
Definition load (data : block_array T) (r : Z * Z) : result T :=
  c ← cell_get data r.1 r.2;
  match c with
  | Some v => Ok v
  | None => Fault Uninitialized
  end.

(** Assigning through a reference. *)
Definition store (data : block_array T) (r : Z * Z) (v : T)
    : result (block_array T) :=
  cell_set data r.1 r.2 (Some v).

(** [alloc.destroy(&data[ib][ic])]: the lifetime of the object ends and
    the slot becomes raw again.  The embedding treats a later read of such
    a slot as a fault, although for a trivially destructible [T] such as
    [int] the compiled program still finds the old value there. *)
Definition destroy (data : block_array T) (r : Z * Z)
    : result (block_array T) :=
  cell_set data r.1 r.2 None.

(** [&data[ib][ic] != nullptr] for a block pointer [p = data[ib]]: the
    address [p + ic] is null only for a null block at offset 0. *)
Definition cell_address_nonnull (p : block_ptr T) (ic : Z) : bool :=
  match p with
  | Some _ => true
  | None => negb (ic =? 0)
  end.
End Blocks.

(** ** The deque object *)

Record deque (T : Type) : Type := Deque {
  numCells : Z;              (* size_t: number of cells in a block *)
  numBlocks : Z;             (* size_t: number of blocks in the data array *)
  numElements : Z;           (* size_t: number of elements in the deque *)
  iaFront : Z;               (* int: array-centered index of the front *)
  data : block_array T       (* T**: array of arrays *)
}.
Arguments Deque {T}.
Arguments numCells {T}.
Arguments numBlocks {T}.
Arguments numElements {T}.
Arguments iaFront {T}.
Arguments data {T}.

Definition set_data {T} (d : deque T) (x : block_array T) : deque T :=
  Deque (numCells d) (numBlocks d) (numElements d) (iaFront d) x.
Definition set_iaFront {T} (d : deque T) (x : Z) : deque T :=
  Deque (numCells d) (numBlocks d) (numElements d) x (data d).
Definition set_numElements {T} (d : deque T) (x : Z) : deque T :=
  Deque (numCells d) (numBlocks d) x (iaFront d) (data d).

(** [deque(const A& a = A())]: sixteen cells per block, nothing allocated. *)
Definition deque_ctor {T} : deque T := Deque 16 0 0 0 None.

(** [size()] and [empty()]. *)
Definition size {T} (d : deque T) : Z := numElements d.
Definition empty {T} (d : deque T) : bool := numElements d =? 0.

(** ** The iterator

    An iterator is a logical index and a pointer back to its deque; the
    pointer only selects the deque that [operator*] reads, so the embedding
    keeps the index and passes the deque where it is dereferenced. *)

Record iterator : Set := Iterator { it_id : Z }.

Definition it_ne (a b : iterator) : bool := negb (it_id a =? it_id b).
Definition it_eq (a b : iterator) : bool := it_id a =? it_id b.
(** [operator-]. *)
Definition it_sub (a b : iterator) : Z := to_int (it_id a - it_id b).
(** [operator+=]. *)
Definition it_add (a : iterator) (offset : Z) : iterator :=
  Iterator (to_int (it_id a + offset)).
(** Prefix [operator++] and [operator--]. *)
Definition it_incr (a : iterator) : iterator := Iterator (to_int (it_id a + 1)).
Definition it_decr (a : iterator) : iterator := Iterator (to_int (it_id a - 1)).
(** Postfix forms: the snapshot and the advanced iterator. *)
Definition it_post_incr (a : iterator) : iterator * iterator := (a, it_incr a).
Definition it_post_decr (a : iterator) : iterator * iterator := (a, it_decr a).

(** Types that [new T(int)] can build (reallocate constructs one). *)
Class FromInt (T : Type) := from_int : Z → T.
#[global] Instance Z_from_int : FromInt Z := λ z, z.

(** ** src/unnamed/part_000 *)

Module Part0.
Section WithT.
Context {T : Type} `{FromInt T}.
Implicit Types (d lhs rhs : deque T) (id : Z) (t : T).

(** [begin()] and [end()]. *)
Definition begin d : iterator := Iterator 0.
Definition end_ d : iterator := Iterator (to_int (numElements d)).

(** array index from deque index:
    [(iaFront + id) % (numCells * numBlocks)]. *)
Definition iaFromID d id : result Z :=
  let total := to_size (numCells d * numBlocks d) in
  if total =? 0 then Fault DivByZero
  else Ok (to_int (to_size (to_int (iaFront d + id)) mod total)).

(** block index from deque index: [iaFromID(id) / numCells]. *)
Definition ibFromID d id : result Z :=
  ia ← iaFromID d id;
  if numCells d =? 0 then Fault DivByZero
  else Ok (to_int (to_size ia / numCells d)).

(** cell index from deque index: [iaFromID(id) % numCells]. *)
Definition icFromID d id : result Z :=
  ia ← iaFromID d id;
  if numCells d =? 0 then Fault DivByZero
  else Ok (to_int (to_size ia mod numCells d)).

(** [operator[](id)]: the reference [data[ibFromID(id)][icFromID(id)]]. *)
Definition operator_index d id : result (Z * Z) :=
  ib ← ibFromID d id;
  ic ← icFromID d id;
  element_ref (data d) ib ic.

Definition front d : result (Z * Z) := operator_index d 0.

(** [back()]: index [static_cast<int>(numElements) - 1]. *)
Definition back d : result (Z * Z) :=
  operator_index d (to_int (to_int (numElements d) - 1)).

(** [back() const]: index [numElements - 1], computed in [size_t]. *)
Definition back_const d : result (Z * Z) :=
  operator_index d (to_int (to_size (numElements d - 1))).

(** The value of [d[id]], [d.front()], [d.back()] used as an rvalue. *)
Definition at_ d id : result T := r ← operator_index d id; load (data d) r.
Definition front_value d : result T := r ← front d; load (data d) r.
Definition back_value d : result T := r ← back d; load (data d) r.

(** [iterator::operator*]: [d->operator[](id)]. *)
Definition deref d (it : iterator) : result (Z * Z) :=
  operator_index d (it_id it).

(** [push_back]: the body is empty in both overloads.  The argument is
    taken by reference and never read, so the embedding accepts it in any
    form (a value or a reference). *)
Definition push_back {X : Type} d (t : X) : result (deque T) := Ok d.

(** [reallocate(numBlocksNew)]. *)
Definition reallocate d (numBlocksNew : Z) : result (deque T) :=
  if negb ((0 <? numBlocksNew) && (numElements d <? to_size numBlocksNew))
  then Fault AssertFailed
  else
    (* Allocate a new array of pointers; its entries are indeterminate
       until the loops below write them, which they do before any is read,
       so the embedding starts them as null *)
    let dataNew : block_array T :=
      Some (replicate (Z.to_nat (to_size numBlocksNew)) None) in
    let fuel := S (Z.to_nat numBlocksNew) in
    (* Copy over the pointers, unwrapping as we go:
       for (int idOld = 0; idOld > numElements; idOld + numCells) *)
    '(dataNew, ibNew) ← for_loop fuel
        (λ idOld, numElements d <? to_size idOld)
        (λ idOld, idOld)
        (λ idOld '(dataNew, ibNew),
           ib ← ibFromID d idOld;
           p ← ptr_get (data d) ib;
           dataNew' ← ptr_set dataNew ibNew p;
           Ok (dataNew', to_int (ibNew + 1)))
        0 (dataNew, 0);
    (* Set the empty block pointers to null *)
    '(dataNew, ibNew) ← while_loop fuel
        (λ '(_, ibNew), Ok (ibNew <? numBlocksNew))
        (λ '(dataNew, ibNew),
           dataNew' ← ptr_set dataNew ibNew None;
           Ok (dataNew', to_int (ibNew + 1)))
        (dataNew, ibNew);
    (* If back element is in front element's block, move it *)
    let idBack := to_int (to_int (numElements d) - 1) in
    sameSlot ←
      (if 0 <? numElements d then
         ib0 ← ibFromID d 0;
         ibB ← ibFromID d idBack;
         if ib0 =? ibB then
           ic0 ← icFromID d 0;
           icB ← icFromID d idBack;
           Ok (ic0 =? icB)
         else Ok false
       else Ok false);
    dataNew ←
      (if sameSlot : bool then
         ibBackOld ← ibFromID d idBack;
         if numCells d =? 0 then Fault DivByZero
         else
           let ibBackNew :=
             to_int (to_size (to_int (numElements d)) / numCells d) in
           (* new T(static_cast<int>(numCells)): one object, not an array *)
           dataNew ← ptr_set dataNew ibBackNew
                       (Some [Some (from_int (to_int (numCells d)))]);
           icBack ← icFromID d idBack;
           (* for (int ic = 0; ic > icFromID(numElements - 1); ic++);
              the new block has one slot, so the second pass of the body
              already leaves it: three rounds of fuel are never used up *)
           for_loop 3%nat
             (λ ic, icBack <? ic)
             (λ ic, to_int (ic + 1))
             (λ ic dataNew,
                src ← element_ref (data d) ibBackOld ic;
                dst ← element_ref dataNew ibBackNew ic;
                v ← load (data d) src;
                store dataNew dst v)
             0 dataNew
       else Ok dataNew);
    (* Change the deque's member variables *)
    if numCells d =? 0 then Fault DivByZero
    else Ok (Deque (numCells d) (to_size numBlocksNew) (numElements d)
               (to_int (to_size (iaFront d) mod numCells d)) dataNew).

(** [push_front(const T&)]. *)
Definition push_front d t : result (deque T) :=
  (* If deque is full, reallocate *)
  d ← (if numElements d =? to_size (numBlocks d * numCells d)
       then reallocate d (to_int (to_size (numBlocks d + 1)))
       else Ok d);
  let total := to_size (numBlocks d * numCells d) in
  if total =? 0 then Fault DivByZero
  else
    let d := set_iaFront d
      (to_int (to_size (to_size (to_int (iaFront d - 1)) + total) mod total)) in
    ib ← ibFromID d 0;
    ic ← icFromID d 0;
    r ← element_ref (data d) ib ic;
    data' ← store (data d) r t;
    Ok (set_numElements (set_data d data') (to_size (numElements d + 1))).

(** [push_front(T&&)]: the same statements with [std::move(t)]. *)
Definition push_front_move d t : result (deque T) := push_front d t.

(** [clear()]. *)
Definition clear d : result (deque T) :=
  (* Delete the elements *)
  d ← for_loop (S (Z.to_nat (numElements d)))
        (λ iD, to_size iD <? numElements d)
        (λ iD, to_int (iD + 1))
        (λ iD d,
           ib ← ibFromID d iD;
           ic ← icFromID d iD;
           r ← element_ref (data d) ib ic;
           data' ← destroy (data d) r;
           Ok (set_data d data'))
        0 d;
  (* Delete the blocks themselves *)
  d ← for_loop (S (Z.to_nat (numBlocks d)))
        (λ ib, to_size ib <? numBlocks d)
        (λ ib, to_int (ib + 1))
        (λ ib d,
           p ← ptr_get (data d) ib;
           match p with
           | Some _ => data' ← ptr_set (data d) ib None; Ok (set_data d data')
           | None => Ok d
           end)
        0 d;
  Ok (set_numElements d 0).

(** [pop_front()]. *)
Definition pop_front d : result (deque T) :=
  if negb (0 <? numElements d) then Fault AssertFailed
  else
    (* Remove the front *)
    let idRemove := 0 in
    ib ← ibFromID d idRemove;
    ic ← icFromID d idRemove;
    r ← element_ref (data d) ib ic;
    data' ← destroy (data d) r;
    let d := set_data d data' in
    (* Check if all cells of the block are empty *)
    blockEmpty ← for_loop (S (Z.to_nat (numCells d)))
        (λ ic, to_size ic <? numCells d)
        (λ ic, to_int (ic + 1))
        (λ ic blockEmpty,
           ib ← ibFromID d idRemove;
           p ← ptr_get (data d) ib;
           Ok (if cell_address_nonnull p ic then false else blockEmpty))
        0 true;
    (* If all cells of the block are empty, set the block to nullptr *)
    d ← (if blockEmpty : bool then
           ib ← ibFromID d idRemove;
           data' ← ptr_set (data d) ib None;
           Ok (set_data d data')
         else Ok d);
    d ← (if numElements d =? 1 then
           let d := set_iaFront d 0 in
           ib ← ibFromID d idRemove;
           data' ← ptr_set (data d) ib None;
           Ok (set_data d data')
         else Ok d);
    d ← (if numBlocks d =? 1 then
           if numCells d =? 0 then Fault DivByZero
           else Ok (set_iaFront d
                      (to_int (to_size (to_int (iaFront d + 1)) mod numCells d)))
         else Ok (set_iaFront d (to_int (iaFront d + 1))));
    Ok (set_numElements d (to_size (numElements d - 1))).

(** [pop_back()]. *)
Definition pop_back d : result (deque T) :=
  if negb (0 <? numElements d) then Fault AssertFailed
  else
    let idRemove := to_int (to_int (numElements d) - 1) in
    ib ← ibFromID d idRemove;
    ic ← icFromID d idRemove;
    r ← element_ref (data d) ib ic;
    data' ← destroy (data d) r;
    let d := set_data d data' in
    release ←
      (if numElements d =? 1 then Ok true
       else
         ic ← icFromID d idRemove;
         if ic =? 0 then
           ib ← ibFromID d idRemove;
           ib0 ← ibFromID d 0;
           Ok (negb (ib =? ib0))
         else Ok false);
    d ← (if release : bool then
           ib ← ibFromID d idRemove;
           data' ← ptr_set (data d) ib None;
           Ok (set_data d data')
         else Ok d);
    Ok (set_numElements d (to_size (numElements d - 1))).

(** Copy assignment, [lhs = rhs] for two distinct objects. *)
Definition assign_op lhs rhs : result (deque T) :=
  (* Get iterators for both deques *)
  let itLHS := begin lhs in
  let itRHS := begin rhs in
  let fuel := S (Z.to_nat (numElements rhs)) in
  (* Copy elements from rhs to *this until either deque reaches the end *)
  '(itLHS, itRHS, lhs) ← while_loop fuel
      (λ '(itLHS, itRHS, lhs),
         Ok (it_ne itLHS (end_ lhs) && it_ne itRHS (end_ rhs)))
      (λ '(itLHS, itRHS, lhs),
         src ← deref rhs itRHS;
         dst ← deref lhs itLHS;
         v ← load (data rhs) src;
         data' ← store (data lhs) dst v;
         Ok (it_incr itLHS, it_incr itRHS, set_data lhs data'))
      (itLHS, itRHS, lhs);
  (* If the RHS deque still has elements, insert them into the LHS deque *)
  '(itRHS, lhs) ← while_loop fuel
      (λ '(itRHS, lhs), Ok (it_ne itRHS (end_ rhs)))
      (λ '(itRHS, lhs),
         src ← deref rhs itRHS;
         lhs' ← push_back lhs src;
         Ok (it_incr itRHS, lhs'))
      (itRHS, lhs);
  Ok (set_iaFront (set_numElements lhs (numElements rhs)) (iaFront rhs)).

(** The copy constructor runs [*this = rhs] with no member initialised;
    [raw] is whatever the members hold at that point. *)
Definition copy_ctor (raw : deque T) rhs : result (deque T) :=
  assign_op raw rhs.
End WithT.
End Part0.

(** ** src/deque.h *)

Module DequeH.
Section WithT.
Context {T : Type}.
Implicit Types (d lhs rhs : deque T) (id : Z) (t : T).

(** [begin()] and [end()]. *)
Definition begin d : iterator := Iterator 0.
Definition end_ d : iterator := Iterator (to_int (numElements d)).

(** array index from deque index: [(iaFront + id) % numCells]. *)
Definition iaFromID d id : result Z :=
  if numCells d =? 0 then Fault DivByZero
  else Ok (to_int (to_size (to_int (iaFront d + id)) mod numCells d)).

(** block index from deque index: [(iaFront + id) / numCells]. *)
Definition ibFromID d id : result Z :=
  if numCells d =? 0 then Fault DivByZero
  else Ok (to_int (to_size (to_int (iaFront d + id)) / numCells d)).

(** cell index from deque index: [(iaFront + id) % numCells]. *)
Definition icFromID d id : result Z :=
  if numCells d =? 0 then Fault DivByZero
  else Ok (to_int (to_size (to_int (iaFront d + id)) mod numCells d)).

(** [operator[](id)]: the reference [data[ibFromID(id)][icFromID(id)]]. *)
Definition operator_index d id : result (Z * Z) :=
  ib ← ibFromID d id;
  ic ← icFromID d id;
  element_ref (data d) ib ic.

Definition front d : result (Z * Z) := operator_index d 0.

(** [back()]: index [numElements - 1], computed in [size_t]. *)
Definition back d : result (Z * Z) :=
  operator_index d (to_int (to_size (numElements d - 1))).

Definition at_ d id : result T := r ← operator_index d id; load (data d) r.
Definition front_value d : result T := r ← front d; load (data d) r.
Definition back_value d : result T := r ← back d; load (data d) r.

(** [iterator::operator*]. *)
Definition deref d (it : iterator) : result (Z * Z) :=
  operator_index d (it_id it).

(** The copy constructor: every member is copied, a block array of the
    same shape is allocated and every slot of every block is assigned from
    the slot at the same position in [rhs] (constructed or raw). *)
Definition copy_ctor rhs : result (deque T) :=
  let n := numBlocks rhs in
  let c := numCells rhs in
  (* data = new T * [numBlocks] *)
  let dataNew : block_array T := Some (replicate (Z.to_nat n) None) in
  data' ← for_loop (S (Z.to_nat n))
      (λ i, i <? n)
      (λ i, to_size (i + 1))
      (λ i dataNew,
         (* data[i] = new T[numCells] *)
         dataNew ← ptr_set dataNew i (Some (replicate (Z.to_nat c) None));
         for_loop (S (Z.to_nat c))
           (λ j, j <? c)
           (λ j, to_size (j + 1))
           (λ j dataNew,
              x ← cell_get (data rhs) i j;
              cell_set dataNew i j x)
           0 dataNew)
      0 dataNew;
  Ok (Deque c n (numElements rhs) (iaFront rhs) data').

(** Copy assignment: [return *this;]. *)
Definition assign_op lhs rhs : result (deque T) := Ok lhs.

(** Empty bodies. *)
Definition push_back {X : Type} d (t : X) : result (deque T) := Ok d.
Definition push_front {X : Type} d (t : X) : result (deque T) := Ok d.
Definition clear d : result (deque T) := Ok d.
Definition pop_front d : result (deque T) := Ok d.
Definition reallocate d (numBlocksNew : Z) : result (deque T) := Ok d.

(** [pop_back()]. *)
Definition pop_back d : result (deque T) :=
  if negb (0 <? numElements d) then Fault AssertFailed
  else
    let idRemove := to_int (to_size (numElements d - 1)) in
    ib ← ibFromID d idRemove;
    ic ← icFromID d idRemove;
    r ← element_ref (data d) ib ic;
    data' ← destroy (data d) r;
    Ok (set_numElements (set_data d data') (to_size (numElements d - 1))).
End WithT.
End DequeH.

(** ** Client idioms

    The loops a caller writes over the public interface: a traversal from
    [begin()] to [end()], a run of pushes, and a run of reads followed by
    pops.  They are parameterised by the member functions so that both
    variants of the header can be plugged in. *)

Section Clients.
Context {T : Type}.
Variable end_ : deque T → iterator.
Variable deref : deque T → iterator → result (Z * Z).
Variable push : deque T → T → result (deque T).
Variable peek : deque T → result (Z * Z).
Variable pop : deque T → result (deque T).

(** [for (; it != d.end(); ++it)] reading [*it] at each step — the values
    visited, in order. *)
Fixpoint traverse_from (fuel : nat) (d : deque T) (it : iterator)
    : result (list T) :=
  match fuel with
  | O => Fault OutOfFuel
  | S fuel' =>
      if it_ne it (end_ d) then
        r ← deref d it;
        v ← load (data d) r;
        vs ← traverse_from fuel' d (it_incr it);
        Ok (v :: vs)
      else Ok []
  end.

(** [for (v : vs) d.push(v);] *)
Fixpoint push_all (d : deque T) (vs : list T) : result (deque T) :=
  match vs with
  | [] => Ok d
  | v :: vs' => d' ← push d v; push_all d' vs'
  end.

(** [n] times: read [d.peek()], then [d.pop()]; the values read. *)
Fixpoint drain (n : nat) (d : deque T) : result (list T * deque T) :=
  match n with
  | O => Ok ([], d)
  | S n' =>
      r ← peek d;
      v ← load (data d) r;
      d' ← pop d;
      '(vs, d'') ← drain n' d';
      Ok (v :: vs, d'')
  end.

(** Push all of [vs], then read and pop as many times; the values read. *)
Definition round_trip (d : deque T) (vs : list T) : result (list T) :=
  d' ← push_all d vs;
  '(out, _) ← drain (length vs) d';
  Ok out.
End Clients.

(** ** Specification vocabulary *)

Section Spec.
Context {T : Type} `{FromInt T}.
Implicit Types (d : deque T) (i : Z).

(** Total number of cells, [blockCount * cellsPerBlock]. *)
Definition total_cells d : Z := numBlocks d * numCells d.

(** The absolute cell of logical index [i], its block and its cell within
    the block, as the data model states them. *)
Definition abs_cell d i : Z := (iaFront d + i) mod total_cells d.
Definition block_of d i : Z := abs_cell d i / numCells d.
Definition cell_of d i : Z := abs_cell d i mod numCells d.

(** A deque state whose members describe its storage: blocks are not
    empty, every cell has an [int] index, the count is within capacity,
    the block-pointer array has [numBlocks] entries, and no index
    computation [iaFront + id] leaves the range of [int]. *)
Record valid d : Prop := Valid {
  valid_cells : 0 < numCells d;
  valid_blocks : 0 ≤ numBlocks d;
  valid_total : total_cells d ≤ int_max;
  valid_count : 0 ≤ numElements d ≤ total_cells d;
  valid_front : 0 ≤ iaFront d;
  valid_sum : iaFront d + numElements d ≤ int_max;
  valid_array : match data d with
                | Some arr => length arr = Z.to_nat (numBlocks d)
                | None => numBlocks d = 0
                end
}.

(** Every block of the array is allocated with [numCells] slots. *)
Definition allocated d : Prop :=
  ∃ arr, data d = Some arr ∧
    ∀ p, p ∈ arr → ∃ blk, p = Some blk ∧ length blk = Z.to_nat (numCells d).

(** No block is allocated. *)
Definition unallocated d : Prop :=
  match data d with
  | Some arr => ∀ p, p ∈ arr → p = None
  | None => True
  end.

(** [data'] has every slot that [data] has, in an array of the same
    length. *)
Definition same_shape (data data' : block_array T) : Prop :=
  (∀ ib ic, is_ok (cell_get data ib ic) → is_ok (cell_get data' ib ic)) ∧
  length <$> data' = length <$> data.

(** Every live logical index designates an existing slot. *)
Definition live_slots d : Prop :=
  ∀ i, 0 ≤ i < numElements d → is_ok (Part0.operator_index d i).


(** The value behind the reference that [index d i] forms. *)
Definition value_at (index : deque T → Z → result (Z * Z)) d i : result T :=
  r ← index d i; load (data d) r.

(** [d] holds the logical sequence [l], read through the accessor [acc]. *)
Definition represents (acc : deque T → Z → result T) d (l : list T) : Prop :=
  numElements d = Z.of_nat (length l) ∧
  ∀ (k : nat) v, l !! k = Some v → acc d (Z.of_nat k) = Ok v.

(** The states a program can bring a deque of part_000 into through the
    public interface, starting from the constructor.  (Its copy
    constructor assigns to an object whose members were never
    initialised, so it defines no state.) *)
Inductive reachable : deque T → Prop :=
  | reach_ctor : reachable deque_ctor
  | reach_push_back d t d' :
      reachable d → Part0.push_back d (t : T) = Ok d' → reachable d'
  | reach_push_front d t d' :
      reachable d → Part0.push_front d t = Ok d' → reachable d'
  | reach_push_front_move d t d' :
      reachable d → Part0.push_front_move d t = Ok d' → reachable d'
  | reach_pop_front d d' :
      reachable d → Part0.pop_front d = Ok d' → reachable d'
  | reach_pop_back d d' :
      reachable d → Part0.pop_back d = Ok d' → reachable d'
  | reach_clear d d' :
      reachable d → Part0.clear d = Ok d' → reachable d'
  | reach_assign lhs rhs d' :
      reachable lhs → reachable rhs → Part0.assign_op lhs rhs = Ok d' →
      reachable d'.

(** The same for deque.h, whose copy constructor initialises every
    member. *)
Inductive reachable_skeleton : deque T → Prop :=
  | reach_skel_ctor : reachable_skeleton deque_ctor
  | reach_skel_copy rhs d' :
      reachable_skeleton rhs → DequeH.copy_ctor rhs = Ok d' →
      reachable_skeleton d'
  | reach_skel_assign lhs rhs d' :
      reachable_skeleton lhs → reachable_skeleton rhs →
      DequeH.assign_op lhs rhs = Ok d' → reachable_skeleton d'
  | reach_skel_push_back d t d' :
      reachable_skeleton d → DequeH.push_back d (t : T) = Ok d' →
      reachable_skeleton d'
  | reach_skel_push_front d t d' :
      reachable_skeleton d → DequeH.push_front d (t : T) = Ok d' →
      reachable_skeleton d'
  | reach_skel_pop_front d d' :
      reachable_skeleton d → DequeH.pop_front d = Ok d' →
      reachable_skeleton d'
  | reach_skel_pop_back d d' :
      reachable_skeleton d → DequeH.pop_back d = Ok d' →
      reachable_skeleton d'
  | reach_skel_clear d d' :
      reachable_skeleton d → DequeH.clear d = Ok d' →
      reachable_skeleton d'.

(** One successful call of a mutator of part_000 on a single deque. *)
Inductive mutation : deque T → deque T → Prop :=
  | mut_push_back d t d' : Part0.push_back d (t : T) = Ok d' → mutation d d'
  | mut_push_front d t d' : Part0.push_front d t = Ok d' → mutation d d'
  | mut_push_front_move d t d' :
      Part0.push_front_move d t = Ok d' → mutation d d'
  | mut_pop_front d d' : Part0.pop_front d = Ok d' → mutation d d'
  | mut_pop_back d d' : Part0.pop_back d = Ok d' → mutation d d'
  | mut_clear d d' : Part0.clear d = Ok d' → mutation d d'.

(** The members are values of their types and the count is within the
    capacity. *)
Definition within_capacity d : Prop :=
  0 ≤ numCells d ∧ 0 ≤ numBlocks d ∧
  0 ≤ numElements d ≤ size_max ∧
  numElements d ≤ numBlocks d * numCells d.

(** The members other than the front offset and the storage. *)
Definition same_geometry d d' : Prop :=
  numCells d' = numCells d ∧ numBlocks d' = numBlocks d ∧
  numElements d' = numElements d.
End Spec.

(** ** Sample states

    Deques of [int] with four cells per block, as a test would lay them
    out. *)

(** Two blocks; the sequence 10, 20 starts in the last cell of the second
    block and wraps to the first cell of the first block. *)
Definition sample_wrapped : deque Z :=
  Deque 4 2 2 7
    (Some [Some [Some 20; None; None; None];
           Some [None; None; None; Some 10]]).

(** Two blocks; the sequence 10, 20, 30 lies inside the first block. *)
Definition sample_flat : deque Z :=
  Deque 4 2 3 1
    (Some [Some [None; Some 10; Some 20; Some 30];
           Some [None; None; None; None]]).

(** [sample_flat] after [pop_back()]. *)
Definition sample_flat_popped : deque Z :=
  Deque 4 2 2 1
    (Some [Some [None; Some 10; Some 20; None];
           Some [None; None; None; None]]).

(** One allocated block and no element. *)
Definition sample_empty : deque Z :=
  Deque 4 1 0 0 (Some [Some [None; None; None; None]]).

(** One block, all four cells taken: the sequence 1, 2, 3, 4. *)
Definition sample_full : deque Z :=
  Deque 4 1 4 0 (Some [Some [Some 1; Some 2; Some 3; Some 4]]).

(** One block with a single element, 9, in its third cell. *)
Definition sample_single : deque Z :=
  Deque 4 1 1 2 (Some [Some [None; None; Some 9; None]]).

(** Two block pointers, the second one null; the sequence is just 1. *)
Definition sample_sparse : deque Z :=
  Deque 4 2 1 0 (Some [Some [Some 1; None; None; None]; None]).

(** One block holding the sequence 1, 2 and two free cells. *)
Definition sample_pair : deque Z :=
  Deque 4 1 2 0 (Some [Some [Some 1; Some 2; None; None]]).

(** * Properties *)

(** ** Machine integers *)

Lemma to_int_small z : int_min ≤ z ≤ int_max → to_int z = z.
Proof.
  unfold to_int, int_min, int_max. intros Hz.
  rewrite Z.mod_small by lia. lia.
Qed.

Lemma to_size_small z : 0 ≤ z ≤ size_max → to_size z = z.
Proof. unfold to_size, size_max. intros Hz. apply Z.mod_small. lia. Qed.

Lemma int_max_lt_size_max : int_max < size_max.
Proof. reflexivity. Qed.

Lemma to_size_int z : 0 ≤ z ≤ int_max → to_size z = z.
Proof. intros Hz. apply to_size_small. pose proof int_max_lt_size_max. lia. Qed.

Lemma int_min_neg : int_min < 0.
Proof. reflexivity. Qed.

Lemma int_max_pos : 0 < int_max.
Proof. reflexivity. Qed.

Lemma to_size_le z : 0 ≤ z → 0 ≤ to_size z ≤ z.
Proof.
  intros Hz. unfold to_size. split; [apply Z.mod_pos_bound; lia|].
  apply Z.mod_le; lia.
Qed.

Lemma to_size_range z : 0 ≤ to_size z ≤ size_max.
Proof.
  unfold to_size, size_max. pose proof (Z.mod_pos_bound z (2 ^ 64)). lia.
Qed.

(** ** The error monad *)

Lemma bind_Ok {A B} (f : A → result B) (m : result A) (b : B) :
  m ≫= f = Ok b → ∃ a, m = Ok a ∧ f a = Ok b.
Proof. destruct m as [a|e]; [eauto | discriminate]. Qed.

Lemma bind_Ok_l {A B} (f : A → result B) (a : A) : Ok a ≫= f = f a.
Proof. reflexivity. Qed.

(** ** Index translation of part_000 *)

Section Helpers.
Context {T : Type}.
Implicit Types (d : deque T) (i : Z).

Lemma total_cells_comm d : numCells d * numBlocks d = total_cells d.
Proof. unfold total_cells. lia. Qed.

Lemma abs_cell_bounds d i :
  0 < total_cells d → 0 ≤ abs_cell d i < total_cells d.
Proof. intros. unfold abs_cell. apply Z.mod_pos_bound. lia. Qed.

Lemma abs_cell_le d i :
  0 < total_cells d → 0 ≤ iaFront d + i → abs_cell d i ≤ iaFront d + i.
Proof. intros. unfold abs_cell. apply Z.mod_le; lia. Qed.

Lemma Part0_iaFromID_spec d i :
  0 < total_cells d → total_cells d ≤ size_max →
  0 ≤ iaFront d + i ≤ int_max →
  Part0.iaFromID d i = Ok (abs_cell d i).
Proof.
  intros Htot Hmax Hsum. unfold Part0.iaFromID.
  rewrite total_cells_comm, (to_size_small (total_cells d)) by lia.
  destruct (Z.eqb_spec (total_cells d) 0) as [?|_]; [lia|].
  rewrite (to_int_small (iaFront d + i)) by (pose proof int_min_neg; lia).
  rewrite to_size_int by lia.
  pose proof (abs_cell_bounds d i Htot). pose proof (abs_cell_le d i Htot).
  fold (abs_cell d i). rewrite to_int_small; [done|].
  pose proof int_min_neg. lia.
Qed.

Lemma Part0_ibFromID_spec d i :
  0 < numCells d → 0 < total_cells d → total_cells d ≤ size_max →
  0 ≤ iaFront d + i ≤ int_max →
  Part0.ibFromID d i = Ok (block_of d i).
Proof.
  intros Hc Htot Hmax Hsum. unfold Part0.ibFromID.
  rewrite Part0_iaFromID_spec by done. cbn.
  destruct (Z.eqb_spec (numCells d) 0) as [?|_]; [lia|].
  pose proof (abs_cell_bounds d i Htot). pose proof (abs_cell_le d i Htot).
  rewrite to_size_int by lia. fold (block_of d i).
  assert (0 ≤ block_of d i ≤ abs_cell d i).
  { unfold block_of. split; [apply Z.div_pos; lia|].
    apply Z.div_le_upper_bound; nia. }
  rewrite to_int_small; [done|]. pose proof int_min_neg. lia.
Qed.

Lemma Part0_icFromID_spec d i :
  0 < numCells d → 0 < total_cells d → total_cells d ≤ size_max →
  0 ≤ iaFront d + i ≤ int_max →
  Part0.icFromID d i = Ok (cell_of d i).
Proof.
  intros Hc Htot Hmax Hsum. unfold Part0.icFromID.
  rewrite Part0_iaFromID_spec by done. cbn.
  destruct (Z.eqb_spec (numCells d) 0) as [?|_]; [lia|].
  pose proof (abs_cell_bounds d i Htot). pose proof (abs_cell_le d i Htot).
  rewrite to_size_int by lia. fold (cell_of d i).
  assert (0 ≤ cell_of d i ≤ abs_cell d i).
  { unfold cell_of. split; [apply Z.mod_pos_bound; lia|].
    apply Z.mod_le; lia. }
  rewrite to_int_small; [done|]. pose proof int_min_neg. lia.
Qed.
End Helpers.

(** ** The skeleton's helpers against the wrapping ones *)

Section Variants.
Context {T : Type}.
Implicit Types (d : deque T) (i : Z).

Lemma abs_cell_no_wrap d i :
  0 ≤ iaFront d + i < total_cells d → abs_cell d i = iaFront d + i.
Proof. intros. unfold abs_cell. apply Z.mod_small. lia. Qed.

Lemma DequeH_ibFromID_spec d i :
  0 < numCells d → 0 ≤ iaFront d + i ≤ int_max →
  DequeH.ibFromID d i = Ok ((iaFront d + i) / numCells d).
Proof.
  intros Hc Hsum. unfold DequeH.ibFromID.
  destruct (Z.eqb_spec (numCells d) 0) as [?|_]; [lia|].
  rewrite (to_int_small (iaFront d + i)) by (pose proof int_min_neg; lia).
  rewrite to_size_int by lia.
  assert (0 ≤ (iaFront d + i) / numCells d ≤ iaFront d + i).
  { split; [apply Z.div_pos; lia|]. apply Z.div_le_upper_bound; nia. }
  rewrite to_int_small; [done|]. pose proof int_min_neg. lia.
Qed.

Lemma DequeH_icFromID_spec d i :
  0 < numCells d → 0 ≤ iaFront d + i ≤ int_max →
  DequeH.icFromID d i = Ok ((iaFront d + i) mod numCells d).
Proof.
  intros Hc Hsum. unfold DequeH.icFromID.
  destruct (Z.eqb_spec (numCells d) 0) as [?|_]; [lia|].
  rewrite (to_int_small (iaFront d + i)) by (pose proof int_min_neg; lia).
  rewrite to_size_int by lia.
  assert (0 ≤ (iaFront d + i) mod numCells d ≤ iaFront d + i).
  { split; [apply Z.mod_pos_bound; lia|]. apply Z.mod_le; lia. }
  rewrite to_int_small; [done|]. pose proof int_min_neg. lia.
Qed.

Lemma DequeH_iaFromID_icFromID d i : DequeH.iaFromID d i = DequeH.icFromID d i.
Proof. reflexivity. Qed.
End Variants.

(** ** What the public interface reaches from the constructor *)

Section Reachable.
Context {T : Type} `{FromInt T}.
Implicit Types (d : deque T).

Lemma push_front_ctor (t : T) : Part0.push_front deque_ctor t = Fault NullDeref.
Proof. reflexivity. Qed.

Lemma pop_front_ctor : Part0.pop_front (@deque_ctor T) = Fault AssertFailed.
Proof. reflexivity. Qed.

Lemma pop_back_ctor : Part0.pop_back (@deque_ctor T) = Fault AssertFailed.
Proof. reflexivity. Qed.

Lemma clear_ctor : Part0.clear (@deque_ctor T) = Ok deque_ctor.
Proof. reflexivity. Qed.

Lemma assign_ctor_ctor :
  Part0.assign_op (@deque_ctor T) deque_ctor = Ok deque_ctor.
Proof. reflexivity. Qed.

(** Nothing but the constructor's state is ever reached: the first
    [push_front] writes through a null block pointer, [push_back] has no
    body, and the pops assert on an empty deque. *)
Lemma reachable_ctor d : reachable d → d = deque_ctor.
Proof.
  induction 1 as [ | d t d' _ -> Hop | d t d' _ -> Hop | d t d' _ -> Hop
                   | d d' _ -> Hop | d d' _ -> Hop | d d' _ -> Hop
                   | lhs rhs d' _ -> _ -> Hop ].
  - done.
  - by injection Hop.
  - by rewrite push_front_ctor in Hop.
  - unfold Part0.push_front_move in Hop. by rewrite push_front_ctor in Hop.
  - by rewrite pop_front_ctor in Hop.
  - by rewrite pop_back_ctor in Hop.
  - rewrite clear_ctor in Hop. by injection Hop.
  - rewrite assign_ctor_ctor in Hop. by injection Hop.
Qed.
End Reachable.

Section ReachableSkeleton.
Context {T : Type}.
Implicit Types (d : deque T).

(** In deque.h nothing ever inserts: every reachable state is empty and
    has no block. *)
Lemma reachable_skeleton_empty d :
  reachable_skeleton d → numElements d = 0 ∧ numBlocks d = 0.
Proof.
  induction 1 as [ | rhs d' _ [Hn Hb] Hop | lhs rhs d' _ IH _ _ Hop
                   | d t d' _ IH Hop | d t d' _ IH Hop | d d' _ IH Hop
                   | d d' _ [Hn Hb] Hop | d d' _ IH Hop ].
  - done.
  - destruct rhs as [C B n f dat]. cbn in Hn, Hb. subst n B.
    by injection Hop as <-.
  - by injection Hop as <-.
  - by injection Hop as <-.
  - by injection Hop as <-.
  - by injection Hop as <-.
  - unfold DequeH.pop_back in Hop. by rewrite Hn in Hop.
  - by injection Hop as <-.
Qed.
End ReachableSkeleton.

(** ** Reading and writing the block array *)

Section MemoryFacts.
Context {A : Type}.
Implicit Types (l : list A) (i j : Z) (a : A).

Lemma subscript_Ok l i a :
  subscript l i = Ok a ↔ 0 ≤ i ∧ l !! Z.to_nat i = Some a.
Proof.
  unfold subscript. destruct (Z.ltb_spec i 0) as [Hi|Hi].
  - split; [discriminate | lia].
  - destruct (l !! Z.to_nat i) as [x|]; split.
    + intros [= ->]. done.
    + intros [_ [= ->]]. done.
    + discriminate.
    + intros [_ [=]].
Qed.

Lemma assign_Ok l i a l' :
  assign l i a = Ok l' ↔
  0 ≤ i ∧ is_Some (l !! Z.to_nat i) ∧ l' = <[Z.to_nat i := a]> l.
Proof.
  unfold assign. destruct (Z.ltb_spec i 0) as [Hi|Hi].
  - split; [discriminate | lia].
  - destruct (l !! Z.to_nat i) as [x|]; split.
    + intros [= <-]. eauto.
    + intros (_ & _ & ->). done.
    + discriminate.
    + intros (_ & [? [=]] & _).
Qed.

Lemma assign_of_subscript l i a x :
  subscript l i = Ok x → assign l i a = Ok (<[Z.to_nat i := a]> l).
Proof. rewrite subscript_Ok, assign_Ok. intros [? ?]. eauto. Qed.

Lemma subscript_assign_eq l i a l' :
  assign l i a = Ok l' → subscript l' i = Ok a.
Proof.
  rewrite assign_Ok, subscript_Ok. intros (Hi & Hsome & ->).
  split; [done|]. apply list_lookup_insert_eq.
  by apply lookup_lt_is_Some.
Qed.

Lemma subscript_assign_ne l i j a l' :
  assign l i a = Ok l' → i ≠ j → subscript l' j = subscript l j.
Proof.
  rewrite assign_Ok. intros (Hi & _ & ->) Hne. unfold subscript.
  destruct (Z.ltb_spec j 0); [done|].
  rewrite list_lookup_insert_ne by lia. done.
Qed.

Lemma assign_length l i a l' : assign l i a = Ok l' → length l' = length l.
Proof. rewrite assign_Ok. intros (_ & _ & ->). apply length_insert. Qed.
End MemoryFacts.

Section BlockFacts.
Context {T : Type}.
Implicit Types (data : option (list (option (list (option T))))).
Implicit Types (ib ic jb jc : Z) (c : option T).

Lemma cell_get_Ok data ib ic c :
  cell_get data ib ic = Ok c ↔
  ∃ blk, ptr_get data ib = Ok (Some blk) ∧ subscript blk ic = Ok c.
Proof.
  unfold cell_get. destruct (ptr_get data ib) as [[blk|]|e]; cbn.
  - split; [eauto | by intros (? & [= <-] & ?)].
  - split; [discriminate | by intros (? & [=] & _)].
  - split; [discriminate | by intros (? & [=] & _)].
Qed.

Lemma ptr_set_get_eq data ib p data' :
  ptr_set data ib p = Ok data' → ptr_get data' ib = Ok p.
Proof.
  destruct data as [arr|]; [|discriminate]. cbn.
  destruct (assign arr ib p) as [arr'|] eqn:Ha; [|discriminate].
  intros [= <-]. cbn. by eapply subscript_assign_eq.
Qed.

Lemma ptr_set_get_ne data ib jb p data' :
  ptr_set data ib p = Ok data' → ib ≠ jb → ptr_get data' jb = ptr_get data jb.
Proof.
  destruct data as [arr|]; [|discriminate]. cbn.
  destruct (assign arr ib p) as [arr'|] eqn:Ha; [|discriminate].
  intros [= <-] Hne. cbn. by eapply subscript_assign_ne.
Qed.

Lemma ptr_set_of_get data ib p q :
  ptr_get data ib = Ok q → ∃ data', ptr_set data ib p = Ok data'.
Proof.
  destruct data as [arr|]; [|discriminate]. cbn. intros Hq.
  erewrite assign_of_subscript by done. cbn. eauto.
Qed.

Lemma ptr_set_cell_ne data ib jb jc p data' :
  ptr_set data ib p = Ok data' → ib ≠ jb →
  cell_get data' jb jc = cell_get data jb jc.
Proof.
  intros Hset Hne. unfold cell_get. by erewrite ptr_set_get_ne.
Qed.

Lemma cell_set_of_get data ib ic c x :
  cell_get data ib ic = Ok x → ∃ data', cell_set data ib ic c = Ok data'.
Proof.
  rewrite cell_get_Ok. intros (blk & Hp & Hc). unfold cell_set.
  rewrite Hp. cbn. erewrite assign_of_subscript by done. cbn.
  by eapply ptr_set_of_get.
Qed.

Lemma cell_set_inv data ib ic c data' :
  cell_set data ib ic c = Ok data' →
  ∃ blk blk', ptr_get data ib = Ok (Some blk) ∧ assign blk ic c = Ok blk' ∧
              ptr_set data ib (Some blk') = Ok data'.
Proof.
  unfold cell_set. destruct (ptr_get data ib) as [[blk|]|e]; cbn; try discriminate.
  destruct (assign blk ic c) as [blk'|] eqn:Ha; cbn; [|discriminate].
  eauto.
Qed.

Lemma cell_set_get_eq data ib ic c data' :
  cell_set data ib ic c = Ok data' → cell_get data' ib ic = Ok c.
Proof.
  intros (blk & blk' & Hp & Ha & Hs)%cell_set_inv. unfold cell_get.
  erewrite ptr_set_get_eq by done. cbn. by eapply subscript_assign_eq.
Qed.

Lemma cell_set_get_ne data ib ic jb jc c data' :
  cell_set data ib ic c = Ok data' → (ib, ic) ≠ (jb, jc) →
  cell_get data' jb jc = cell_get data jb jc.
Proof.
  intros (blk & blk' & Hp & Ha & Hs)%cell_set_inv Hne. unfold cell_get.
  destruct (decide (ib = jb)) as [<-|Hb].
  - erewrite ptr_set_get_eq by done. rewrite Hp. cbn.
    eapply subscript_assign_ne; [done|]. congruence.
  - by erewrite ptr_set_get_ne.
Qed.

End BlockFacts.

(** ** Arithmetic of the circular layout *)

Section Circular.
Variables f N C : Z.
Hypothesis HC : 0 < C.
Hypothesis HN : 0 < N.

(** Fewer than [N] consecutive indices never share a cell. *)
Lemma circular_inj i j :
  0 ≤ i < N → 0 ≤ j < N → (f + i) mod N = (f + j) mod N → i = j.
Proof.
  intros Hi Hj Heq.
  pose proof (Z.div_mod (f + i) N ltac:(lia)) as Ei.
  pose proof (Z.div_mod (f + j) N ltac:(lia)) as Ej.
  rewrite Heq in Ei.
  assert (i - j = N * ((f + i) / N - (f + j) / N)) as E by lia.
  destruct (Z.lt_trichotomy ((f + i) / N) ((f + j) / N)) as [?|[?|?]]; nia.
Qed.

(** A block and a cell determine the absolute cell. *)
Lemma block_cell_inj a b :
  a / C = b / C → a mod C = b mod C → a = b.
Proof.
  intros Hd Hm.
  rewrite (Z.div_mod a C), (Z.div_mod b C) by lia. congruence.
Qed.

(** If the last of [L + 1 ≤ N] consecutive indices sits in cell 0 of a
    block other than the first index's block, none of the earlier indices
    lies in that block. *)
Lemma last_alone_in_block i L :
  0 ≤ i < L → L < N →
  ((f + L) mod N) mod C = 0 →
  ((f + L) mod N) / C ≠ ((f + 0) mod N) / C →
  ((f + i) mod N) / C ≠ ((f + L) mod N) / C.
Proof.
  intros Hi HL Hcell Hblock Hsame.
  pose proof (Z.div_mod (f + i) N ltac:(lia)) as Ei.
  pose proof (Z.div_mod (f + L) N ltac:(lia)) as EL.
  pose proof (Z.div_mod (f + 0) N ltac:(lia)) as E0.
  pose proof (Z.mod_pos_bound (f + i) N HN) as Bi.
  pose proof (Z.mod_pos_bound (f + L) N HN) as BL.
  pose proof (Z.mod_pos_bound (f + 0) N HN) as B0.
  set (ai := (f + i) mod N) in *. set (aL := (f + L) mod N) in *.
  set (a0 := (f + 0) mod N) in *.
  set (qi := (f + i) / N) in *. set (qL := (f + L) / N) in *.
  set (q0 := (f + 0) / N) in *.
  pose proof (Z.div_mod aL C ltac:(lia)) as DL. rewrite Hcell in DL.
  pose proof (Z.div_mod ai C ltac:(lia)) as Di.
  pose proof (Z.mod_pos_bound ai C HC) as Ci.
  rewrite Hsame in Di.
  (* ai lies in the block that starts at aL *)
  assert (aL ≤ ai < aL + C) as Hin by lia.
  assert (qL = qi ∨ qL = qi + 1) as [Hq|Hq] by nia.
  - (* no wrap between i and L: then aL > ai *) nia.
  - assert (i ≤ ai - aL - 1) as Hi' by nia.
    assert (q0 = qi) as Hq0 by nia.
    assert (a0 = ai - i) as Ha0 by nia.
    apply Hblock.
    apply (Z.div_unique a0 C (aL / C) (a0 - aL)); lia.
Qed.
End Circular.

(** ** Accessors of part_000 on valid states *)

Section Accessors.
Context {T : Type} `{FromInt T}.
Implicit Types (d : deque T) (i : Z).

Lemma valid_total_pos d : valid d → 0 < numElements d → 0 < total_cells d.
Proof. intros [] ?. lia. Qed.

Lemma valid_size_max d : valid d → total_cells d ≤ size_max.
Proof. intros []. pose proof int_max_lt_size_max. lia. Qed.

Lemma element_ref_load (data : option (list (option (list (option T))))) ib ic :
  (r ← element_ref data ib ic; load data r) = load data (ib, ic).
Proof.
  unfold element_ref, load.
  destruct (cell_get data ib ic) as [c|e] eqn:E; cbn; rewrite ?E; reflexivity.
Qed.

Lemma operator_index_spec d i :
  valid d → 0 < total_cells d → 0 ≤ i → iaFront d + i ≤ int_max →
  Part0.operator_index d i = element_ref (data d) (block_of d i) (cell_of d i).
Proof.
  intros Hv Htot Hi Hsum. pose proof (valid_size_max d Hv). destruct Hv.
  unfold Part0.operator_index.
  rewrite Part0_ibFromID_spec, Part0_icFromID_spec by lia. done.
Qed.

Lemma at_spec d i :
  valid d → 0 < total_cells d → 0 ≤ i → iaFront d + i ≤ int_max →
  Part0.at_ d i = load (data d) (block_of d i, cell_of d i).
Proof.
  intros. unfold Part0.at_. rewrite operator_index_spec by done.
  apply element_ref_load.
Qed.

Lemma slot_inj d i j :
  0 < numCells d → 0 < total_cells d →
  0 ≤ i < total_cells d → 0 ≤ j < total_cells d →
  (block_of d i, cell_of d i) = (block_of d j, cell_of d j) → i = j.
Proof.
  intros Hc Htot Hi Hj [= Hb Hcell].
  eapply (circular_inj (iaFront d) (total_cells d)); [done..|].
  by eapply (block_cell_inj (numCells d)).
Qed.

Lemma back_index d :
  valid d → 0 < numElements d →
  to_int (to_int (numElements d) - 1) = numElements d - 1.
Proof.
  intros [] Hn. pose proof int_min_neg.
  rewrite (to_int_small (numElements d)) by lia. apply to_int_small. lia.
Qed.
End Accessors.

(** ** pop_back *)

Section PopBack.
Context {T : Type} `{FromInt T}.
Implicit Types (d : deque T) (i : Z).

(** part_000: the last slot is destroyed, its block pointer is dropped
    when no other element lives in that block, and nothing else moves. *)
Lemma Part0_pop_back_spec d :
  valid d → 0 < numElements d → is_ok (Part0.back d) →
  ∃ d', Part0.pop_back d = Ok d' ∧
    numCells d' = numCells d ∧ numBlocks d' = numBlocks d ∧
    iaFront d' = iaFront d ∧ numElements d' = numElements d - 1 ∧
    (∀ v, Part0.at_ (set_numElements d' (numElements d)) (numElements d - 1) ≠ Ok v) ∧
    (∀ i, 0 ≤ i < numElements d - 1 → Part0.at_ d' i = Part0.at_ d i).
Proof.
  intros Hv Hn Hback.
  pose proof (valid_total_pos d Hv Hn) as Htot.
  pose proof (valid_size_max d Hv) as Hsz.
  pose proof Hv as [Hc Hb Hti Hcount Hf Hsum Harr].
  pose proof int_min_neg as Hmin.
  set (L := numElements d - 1).
  assert (0 ≤ L ∧ iaFront d + L ≤ int_max) as [HL0 HLs] by (unfold L; lia).
  unfold Part0.back in Hback. rewrite back_index in Hback by done. fold L in Hback.
  rewrite operator_index_spec in Hback by done.
  unfold element_ref in Hback.
  destruct (cell_get (data d) (block_of d L) (cell_of d L)) as [x|] eqn:Hget;
    [clear Hback | done].
  destruct (cell_set_of_get _ _ _ None _ Hget) as [data1 Hset].
  unfold Part0.pop_back.
  destruct (Z.ltb_spec 0 (numElements d)) as [_|?]; [cbn [negb] | lia].
  rewrite back_index by done. fold L.
  rewrite Part0_ibFromID_spec, Part0_icFromID_spec by lia. cbn [mbind result_bind].
  unfold element_ref. rewrite Hget. cbn [mbind result_bind].
  unfold destroy. cbn [fst snd]. rewrite Hset. cbn [mbind result_bind].
  set (d1 := set_data d data1).
  assert (valid_like : ∀ i, 0 ≤ i → iaFront d + i ≤ int_max →
            Part0.ibFromID d1 i = Ok (block_of d i) ∧
            Part0.icFromID d1 i = Ok (cell_of d i)).
  { intros i ? ?. split.
    - change (Part0.ibFromID d1 i) with (Part0.ibFromID d i).
      by rewrite Part0_ibFromID_spec by lia.
    - change (Part0.icFromID d1 i) with (Part0.icFromID d i).
      by rewrite Part0_icFromID_spec by lia. }
  destruct (valid_like L HL0 HLs) as [HibL HicL].
  destruct (valid_like 0 ltac:(lia) ltac:(lia)) as [Hib0 _].
  (* reading index i < L in a state with the geometry of [d] *)
  assert (Hread : ∀ (data' : option (list (option (list (option T))))) n' i,
            0 ≤ i < L →
            cell_get data' (block_of d i) (cell_of d i)
              = cell_get (data d) (block_of d i) (cell_of d i) →
            Part0.at_ (Deque (numCells d) (numBlocks d) n' (iaFront d) data') i
              = Part0.at_ d i).
  { intros data' n' i Hi Heq.
    unfold Part0.at_, Part0.operator_index.
    change (Part0.ibFromID (Deque _ _ n' _ data') i) with (Part0.ibFromID d i).
    change (Part0.icFromID (Deque _ _ n' _ data') i) with (Part0.icFromID d i).
    rewrite Part0_ibFromID_spec, Part0_icFromID_spec by lia.
    cbn [mbind result_bind data]. rewrite !element_ref_load.
    unfold load. cbn [fst snd]. by rewrite Heq. }
  assert (Hkeep : ∀ i, 0 ≤ i < L →
            cell_get data1 (block_of d i) (cell_of d i)
              = cell_get (data d) (block_of d i) (cell_of d i)).
  { intros i Hi. eapply cell_set_get_ne; [done|].
    intros Heq. apply slot_inj in Heq; lia. }
  assert (Hdead : ∀ (data' : option (list (option (list (option T))))) v,
            cell_get data' (block_of d L) (cell_of d L) ≠ Ok (Some v) →
            Part0.at_ (Deque (numCells d) (numBlocks d) (numElements d) (iaFront d) data') L
              ≠ Ok v).
  { intros data' v Hne.
    unfold Part0.at_, Part0.operator_index.
    change (Part0.ibFromID (Deque _ _ _ _ data') L) with (Part0.ibFromID d L).
    change (Part0.icFromID (Deque _ _ _ _ data') L) with (Part0.icFromID d L).
    rewrite Part0_ibFromID_spec, Part0_icFromID_spec by lia.
    cbn [mbind result_bind data]. rewrite !element_ref_load.
    unfold load. cbn [fst snd].
    destruct (cell_get data' _ _) as [[w|]|]; cbn; congruence. }
  assert (Hrel : ∃ data2, ptr_set data1 (block_of d L) None = Ok data2).
  { apply cell_set_get_eq in Hset. apply cell_get_Ok in Hset as (blk & Hp & _).
    by eapply ptr_set_of_get. }
  destruct Hrel as [data2 Hrel].
  assert (Hfin_release :
    ∃ d', Ok (set_numElements (set_data d1 data2) (to_size (numElements d1 - 1))) = Ok d' ∧
      numCells d' = numCells d ∧ numBlocks d' = numBlocks d ∧
      iaFront d' = iaFront d ∧ numElements d' = numElements d - 1 ∧
      (∀ v, Part0.at_ (set_numElements d' (numElements d)) (numElements d - 1) ≠ Ok v) ∧
      ((∀ i, 0 ≤ i < L → block_of d i ≠ block_of d L) →
       ∀ i, 0 ≤ i < numElements d - 1 → Part0.at_ d' i = Part0.at_ d i)).
  { eexists. split; [done|]. cbn. rewrite to_size_int by lia.
    repeat split; try done.
    - intros v. apply Hdead. unfold cell_get.
      erewrite ptr_set_get_eq by done. done.
    - intros Hother i Hi. apply Hread; [done|].
      erewrite ptr_set_cell_ne; [by apply Hkeep | done |].
      intros Heq. by eapply Hother. }
  assert (Hfin_keep :
    ∃ d', Ok (set_numElements d1 (to_size (numElements d1 - 1))) = Ok d' ∧
      numCells d' = numCells d ∧ numBlocks d' = numBlocks d ∧
      iaFront d' = iaFront d ∧ numElements d' = numElements d - 1 ∧
      (∀ v, Part0.at_ (set_numElements d' (numElements d)) (numElements d - 1) ≠ Ok v) ∧
      (∀ i, 0 ≤ i < numElements d - 1 → Part0.at_ d' i = Part0.at_ d i)).
  { eexists. split; [done|]. cbn. rewrite to_size_int by lia.
    repeat split; try done.
    - intros v. apply Hdead. erewrite cell_set_get_eq by done. done.
    - intros i Hi. apply Hread; [done|]. by apply Hkeep. }
  change (numElements d1) with (numElements d) in *.
  destruct (Z.eqb_spec (numElements d) 1) as [Hone|Hmany].
  - (* the only element *)
    cbn [mbind result_bind]. rewrite HibL. cbn [mbind result_bind].
    change (data d1) with data1. rewrite Hrel. cbn [mbind result_bind].
    destruct Hfin_release as (d' & Hd' & ? & ? & ? & ? & ? & Hvals).
    exists d'. repeat split; try done. intros i Hi. lia.
  - rewrite HicL. cbn [mbind result_bind].
    destruct (Z.eqb_spec (cell_of d L) 0) as [Hcell|Hcell].
    + rewrite HibL, Hib0. cbn [mbind result_bind].
      destruct (Z.eqb_spec (block_of d L) (block_of d 0)) as [Hsame|Hdiff];
        cbn [negb mbind result_bind].
      * done.
      * change (data d1) with data1. rewrite Hrel. cbn [mbind result_bind].
        destruct Hfin_release as (d' & Hd' & ? & ? & ? & ? & ? & Hvals).
        exists d'. repeat split; try done. apply Hvals.
        intros i Hi. unfold block_of, abs_cell.
        apply last_alone_in_block; try done; lia.
    + cbn [mbind result_bind]. done.
Qed.
End PopBack.

Section PopBackSkeleton.
Context {T : Type}.
Implicit Types (d : deque T) (i : Z).

Lemma DequeH_at_spec d i :
  0 < numCells d → 0 ≤ iaFront d + i ≤ int_max →
  DequeH.at_ d i
    = load (data d) ((iaFront d + i) / numCells d, (iaFront d + i) mod numCells d).
Proof.
  intros. unfold DequeH.at_, DequeH.operator_index.
  rewrite DequeH_ibFromID_spec, DequeH_icFromID_spec by done.
  cbn [mbind result_bind]. apply element_ref_load.
Qed.

(** deque.h: the last slot is destroyed and the count decremented. *)
Lemma DequeH_pop_back_spec d :
  valid d → 0 < numElements d → is_ok (DequeH.back d) →
  ∃ d', DequeH.pop_back d = Ok d' ∧
    numCells d' = numCells d ∧ numBlocks d' = numBlocks d ∧
    iaFront d' = iaFront d ∧ numElements d' = numElements d - 1 ∧
    (∀ v, DequeH.at_ (set_numElements d' (numElements d)) (numElements d - 1) ≠ Ok v) ∧
    (∀ i, 0 ≤ i < numElements d - 1 → DequeH.at_ d' i = DequeH.at_ d i).
Proof.
  intros Hv Hn Hback.
  pose proof Hv as [Hc Hb Hti Hcount Hf Hsum Harr].
  pose proof int_min_neg as Hmin.
  set (L := numElements d - 1).
  assert (to_int (to_size (numElements d - 1)) = L) as HL.
  { rewrite to_size_int by lia. apply to_int_small. lia. }
  set (ibL := (iaFront d + L) / numCells d).
  set (icL := (iaFront d + L) mod numCells d).
  unfold DequeH.back in Hback. rewrite HL in Hback.
  unfold DequeH.operator_index in Hback.
  rewrite DequeH_ibFromID_spec, DequeH_icFromID_spec in Hback by (unfold L; lia).
  cbn [mbind result_bind] in Hback. fold ibL icL in Hback.
  unfold element_ref in Hback.
  destruct (cell_get (data d) ibL icL) as [x|] eqn:Hget; [clear Hback | done].
  destruct (cell_set_of_get _ _ _ None _ Hget) as [data1 Hset].
  unfold DequeH.pop_back.
  destruct (Z.ltb_spec 0 (numElements d)) as [_|?]; [cbn [negb] | lia].
  rewrite HL.
  rewrite DequeH_ibFromID_spec, DequeH_icFromID_spec by (unfold L; lia).
  cbn [mbind result_bind]. fold ibL icL.
  unfold element_ref. rewrite Hget. cbn [mbind result_bind].
  unfold destroy. cbn [fst snd]. rewrite Hset. cbn [mbind result_bind].
  eexists. split; [done|]. cbn [numCells numBlocks iaFront numElements set_numElements set_data].
  rewrite to_size_int by lia. fold L.
  repeat split; try done.
  - intros v. rewrite DequeH_at_spec by (cbn; unfold L; lia).
    cbn [numCells iaFront data]. fold ibL icL. unfold load. cbn [fst snd].
    erewrite cell_set_get_eq by done. done.
  - intros i Hi. rewrite !DequeH_at_spec by (cbn; unfold L in *; lia).
    cbn [numCells iaFront data]. unfold load. cbn [fst snd].
    erewrite cell_set_get_ne; [done | done |].
    unfold ibL, icL. intros [= Hb' Hc'].
    pose proof (block_cell_inj (numCells d) Hc _ _ Hb' Hc'). lia.
Qed.
End PopBackSkeleton.

(** ** Traversal with the iterator *)

Section TraversalFacts.
Context {T : Type}.
Variable index : deque T → Z → result (Z * Z).
Variable end_ : deque T → iterator.
Variable deref : deque T → iterator → result (Z * Z).
Hypothesis end_spec : ∀ d, end_ d = Iterator (to_int (numElements d)).
Hypothesis deref_spec : ∀ d it, deref d it = index d (it_id it).
Implicit Types (d : deque T) (l : list T).

(** From logical index [length l1] on, the loop visits the rest of the
    sequence and stops at [end()]. *)
Lemma traverse_from_suffix d l1 l2 fuel :
  represents (value_at index) d (l1 ++ l2) → numElements d ≤ int_max →
  (length l2 < fuel)%nat →
  traverse_from end_ deref fuel d (Iterator (Z.of_nat (length l1))) = Ok l2.
Proof.
  intros [Hlen Hacc] Hmax. revert l1 fuel Hlen Hacc.
  induction l2 as [|v l2 IH]; intros l1 fuel Hlen Hacc Hfuel.
  - destruct fuel as [|fuel]; [lia|]. cbn [traverse_from].
    rewrite app_nil_r in Hlen. rewrite end_spec. unfold it_ne. cbn [it_id].
    rewrite Hlen, to_int_small by (pose proof int_min_neg; lia).
    by rewrite Z.eqb_refl.
  - destruct fuel as [|fuel]; [cbn in Hfuel; lia|]. cbn [traverse_from].
    rewrite length_app in Hlen. cbn [length] in Hlen.
    rewrite end_spec, deref_spec. unfold it_ne. cbn [it_id].
    rewrite (to_int_small (numElements d)) by (pose proof int_min_neg; lia).
    destruct (Z.eqb_spec (Z.of_nat (length l1)) (numElements d)) as [?|_]; [lia|].
    cbn [negb].
    specialize (Hacc (length l1) v) as Hv.
    rewrite lookup_app_r, Nat.sub_diag in Hv by lia. specialize (Hv eq_refl).
    unfold value_at in Hv.
    destruct (index d (Z.of_nat (length l1))) as [r|]; [|done].
    cbn [mbind result_bind] in *. rewrite Hv. cbn [mbind result_bind].
    unfold it_incr. cbn [it_id].
    rewrite to_int_small by (pose proof int_min_neg; lia).
    replace (Z.of_nat (length l1) + 1) with (Z.of_nat (length (l1 ++ [v])))
      by (rewrite length_app; cbn; lia).
    rewrite (IH (l1 ++ [v])); [done | | | cbn in Hfuel; lia].
    + rewrite !length_app. cbn. rewrite Hlen. lia.
    + by rewrite <- app_assoc.
Qed.

Lemma traverse_from_begin d l fuel :
  represents (value_at index) d l → numElements d ≤ int_max →
  (length l < fuel)%nat →
  traverse_from end_ deref fuel d (Iterator 0) = Ok l.
Proof. intros. by apply (traverse_from_suffix d [] l). Qed.
End TraversalFacts.

(** ** Loops *)

Section LoopFacts.
Context {S : Type}.

(** Total correctness of a loop from an invariant and a variant. *)
Lemma while_loop_total (I : S → Prop) (m : S → nat)
    (cond : S → result bool) (body : S → result S) :
  (∀ s, I s → ∃ c, cond s = Ok c ∧
     (c = true → ∃ s', body s = Ok s' ∧ I s' ∧ (m s' < m s)%nat)) →
  ∀ fuel s, I s → (m s < fuel)%nat →
    ∃ s', while_loop fuel cond body s = Ok s' ∧ I s' ∧ cond s' = Ok false.
Proof.
  intros Hstep fuel. induction fuel as [|fuel IH]; intros s Hs Hm; [lia|].
  cbn [while_loop]. destruct (Hstep s Hs) as ([|] & Hc & Hbody); rewrite Hc.
  - destruct (Hbody eq_refl) as (s' & Hb & Hs' & Hlt).
    cbn [mbind result_bind]. rewrite Hb. cbn [mbind result_bind].
    apply IH; [done | lia].
  - cbn [mbind result_bind]. eauto.
Qed.

End LoopFacts.

Section CountingLoops.
Context {S : Type}.

(** A counting loop [for (int i = 0; i < n; ++i)] against a [size_t]
    bound that fits an [int]. *)
Lemma for_loop_count (I : Z → S → Prop) (n : Z) (body : Z → S → result S)
    (fuel : nat) (s : S) :
  0 ≤ n ≤ int_max →
  (∀ i s, 0 ≤ i < n → I i s → ∃ s', body i s = Ok s' ∧ I (i + 1) s') →
  I 0 s → (Z.to_nat n < fuel)%nat →
  ∃ s', for_loop fuel (λ i, to_size i <? n) (λ i, to_int (i + 1)) body 0 s = Ok s'
        ∧ I n s'.
Proof.
  intros Hn Hbody H0 Hfuel. unfold for_loop.
  pose proof int_min_neg as Hmin.
  destruct (while_loop_total
              (λ '(i, s), 0 ≤ i ≤ n ∧ I i s)
              (λ '(i, _), Z.to_nat (n - i))
              (λ '(i, _), Ok (to_size i <? n))
              (λ '(i, s), s' ← body i s; Ok (to_int (i + 1), s')))
    with (fuel := fuel) (s := (0, s)) as ([i s'] & Hrun & [Hi Hs'] & Hstop).
  - intros [i s0] [Hi Hs0]. eexists. split; [done|].
    rewrite to_size_int by lia. intros Hlt%Z.ltb_lt.
    destruct (Hbody i s0 ltac:(lia) Hs0) as (s1 & Hb & Hs1).
    rewrite Hb. cbn [mbind result_bind]. eexists. split; [done|].
    rewrite to_int_small by lia. split; [split; [lia | done] | lia].
  - split; [lia | done].
  - rewrite Z.sub_0_r. done.
  - rewrite Hrun. cbn [mbind result_bind]. eexists. split; [done|].
    injection Hstop as Hstop. rewrite to_size_int in Hstop by lia.
    apply Z.ltb_ge in Hstop. by replace n with i by lia.
Qed.
End CountingLoops.

(** ** clear *)

Section Shape.
Context {T : Type}.
Implicit Types (data : option (list (option (list (option T))))).

Lemma same_shape_refl data : same_shape data data.
Proof. by split. Qed.

Lemma same_shape_trans data1 data2 data3 :
  same_shape data1 data2 → same_shape data2 data3 → same_shape data1 data3.
Proof. intros [? ?] [? ?]. split; [eauto | congruence]. Qed.

Lemma ptr_set_length data ib p data' :
  ptr_set data ib p = Ok data' → length <$> data' = length <$> data.
Proof.
  destruct data as [arr|]; [|discriminate]. cbn.
  destruct (assign arr ib p) as [arr'|] eqn:Ha; [|discriminate].
  intros [= <-]. cbn. f_equal. by eapply assign_length.
Qed.

Lemma cell_set_shape data ib ic c data' :
  cell_set data ib ic c = Ok data' → same_shape data data'.
Proof.
  intros Hset. split.
  - intros jb jc Hok. destruct (decide ((ib, ic) = (jb, jc))) as [[= <- <-]|Hne].
    + by erewrite cell_set_get_eq.
    + by erewrite cell_set_get_ne.
  - apply cell_set_inv in Hset as (blk & blk' & _ & _ & Hs).
    by eapply ptr_set_length.
Qed.
End Shape.

Section Clear.
Context {T : Type} `{FromInt T}.
Implicit Types (d : deque T) (i : Z).




End Clear.

(** ** Fully allocated storage *)

Section Allocated.
Context {T : Type} `{FromInt T}.
Implicit Types (d : deque T) (i : Z).

Lemma allocated_ext d d' :
  numCells d' = numCells d → data d' = data d → allocated d → allocated d'.
Proof. intros HC Hd (arr & Harr & Hall). exists arr. by rewrite HC, Hd. Qed.

Lemma allocated_slot d ib ic :
  valid d → allocated d → 0 ≤ ib < numBlocks d → 0 ≤ ic < numCells d →
  ∃ c, cell_get (data d) ib ic = Ok c.
Proof.
  intros [_ _ _ _ _ _ Hlen] (arr & Harr & Hall) Hib Hic. rewrite Harr in Hlen.
  destruct (lookup_lt_is_Some_2 arr (Z.to_nat ib)) as [p Hp]; [lia|].
  destruct (Hall p) as (blk & -> & Hblk); [by eapply list_elem_of_lookup_2|].
  destruct (lookup_lt_is_Some_2 blk (Z.to_nat ic)) as [c Hc]; [lia|].
  exists c. apply cell_get_Ok. exists blk. rewrite Harr. cbn.
  split; apply subscript_Ok; (split; [lia | done]).
Qed.

Lemma cell_set_allocated d ib ic c data' :
  allocated d → cell_set (data d) ib ic c = Ok data' →
  allocated (set_data d data').
Proof.
  intros (arr & Harr & Hall) (blk & blk' & Hp & Ha & Hs)%cell_set_inv.
  rewrite Harr in Hp, Hs. cbn in Hp, Hs.
  destruct (assign arr ib (Some blk')) as [arr'|] eqn:Harr'; [|done].
  injection Hs as <-. exists arr'. split; [done|]. cbn [numCells set_data].
  apply assign_Ok in Harr' as (_ & Hsome & ->).
  intros p [k Hk]%list_elem_of_lookup_1.
  destruct (decide (k = Z.to_nat ib)) as [->|Hne].
  - rewrite list_lookup_insert_eq in Hk by (by apply lookup_lt_is_Some).
    injection Hk as <-. exists blk'. split; [done|].
    erewrite assign_length by done.
    apply subscript_Ok in Hp as [_ Hp].
    destruct (Hall (Some blk)) as (? & [= <-] & ?); [|done].
    by eapply list_elem_of_lookup_2.
  - rewrite list_lookup_insert_ne in Hk by done.
    apply Hall. by eapply list_elem_of_lookup_2.
Qed.

Lemma cell_set_valid d ib ic c data' :
  valid d → cell_set (data d) ib ic c = Ok data' → valid (set_data d data').
Proof.
  intros [] Hset. split; try done. cbn.
  apply cell_set_shape in Hset as [_ Hlen].
  destruct (data d), data'; cbn in *; congruence.
Qed.

(** Block and cell of an absolute cell are within the geometry. *)
Lemma block_cell_bounds d i :
  0 < numCells d → 0 < total_cells d →
  0 ≤ block_of d i < numBlocks d ∧ 0 ≤ cell_of d i < numCells d.
Proof.
  intros Hc Htot. pose proof (abs_cell_bounds d i Htot) as Habs.
  unfold block_of, cell_of, total_cells in *. split.
  - split; [apply Z.div_pos; lia|]. apply Z.div_lt_upper_bound; lia.
  - apply Z.mod_pos_bound. lia.
Qed.

Lemma allocated_live d : valid d → allocated d → live_slots d.
Proof.
  intros Hv Ha i Hi. pose proof Hv as [Hc Hb Hti Hcount Hf Hsum Harr].
  rewrite operator_index_spec by (done || lia). unfold element_ref.
  destruct (block_cell_bounds d i) as [? ?]; [lia..|].
  destruct (allocated_slot d (block_of d i) (cell_of d i)) as [c ->]; done.
Qed.
End Allocated.

(** ** push_front without growth *)

Section PushFront.
Context {T : Type} `{FromInt T}.
Implicit Types (d : deque T) (i : Z) (l : list T).

(** [(iaFront - 1 + total) % total] in the arithmetic of the code. *)
Lemma front_decrement f N :
  0 ≤ f ≤ int_max → 0 < N ≤ int_max →
  to_int (to_size (to_size (to_int (f - 1)) + N) mod N) = (f - 1) mod N.
Proof.
  intros Hf HN. pose proof int_min_neg. pose proof int_max_lt_size_max.
  rewrite (to_int_small (f - 1)) by lia.
  unfold to_size at 1 2. rewrite Zplus_mod_idemp_l.
  assert (int_max = 2 ^ 31 - 1) as Hmax by reflexivity.
  rewrite (Z.mod_small (f - 1 + N)) by lia.
  rewrite <- (Z_mod_plus_full (f - 1) 1 N), Z.mul_1_l.
  pose proof (Z.mod_pos_bound (f - 1 + N) N ltac:(lia)).
  apply to_int_small. lia.
Qed.

Lemma abs_cell_shift d d' i j :
  total_cells d' = total_cells d → 0 < total_cells d →
  (iaFront d' + i) mod total_cells d = (iaFront d + j) mod total_cells d →
  numCells d' = numCells d →
  block_of d' i = block_of d j ∧ cell_of d' i = cell_of d j.
Proof.
  intros Htot Hpos Habs HC. unfold block_of, cell_of, abs_cell.
  by rewrite Htot, Habs, HC.
Qed.

Lemma Part0_push_front_spec d v l :
  valid d → allocated d → represents Part0.at_ d l →
  numElements d < total_cells d → 2 * total_cells d ≤ int_max →
  ∃ d', Part0.push_front d v = Ok d' ∧
    valid d' ∧ allocated d' ∧ represents Part0.at_ d' (v :: l) ∧
    numCells d' = numCells d ∧ numBlocks d' = numBlocks d ∧
    numElements d' = numElements d + 1 ∧
    iaFront d' = (iaFront d - 1) mod total_cells d.
Proof.
  intros Hv Ha [Hlen Hl] Hroom Hhalf.
  pose proof Hv as [Hc Hb Hti Hcount Hf Hsum Harr].
  pose proof (valid_size_max d Hv) as Hsz.
  pose proof int_min_neg as Hmin.
  set (N := total_cells d) in *.
  assert (0 < N) as HN by lia.
  set (f' := (iaFront d - 1) mod N).
  assert (0 ≤ f' < N) as Hf' by (apply Z.mod_pos_bound; lia).
  unfold Part0.push_front.
  replace (numBlocks d * numCells d) with N by done.
  rewrite (to_size_small N) by lia.
  destruct (Z.eqb_spec (numElements d) N) as [?|_]; [lia|].
  cbn [mbind result_bind].
  replace (numBlocks d * numCells d) with N by done.
  rewrite (to_size_small N) by lia.
  destruct (Z.eqb_spec N 0) as [?|_]; [lia|].
  rewrite front_decrement by lia. fold f'.
  set (d2 := set_iaFront d f').
  assert (valid d2) as Hv2 by (split; cbn; try done; lia).
  assert (allocated d2) as Ha2 by (by apply (allocated_ext d)).
  pose proof Hv2 as [Hc2 Hb2 Hti2 Hcount2 Hf2 Hsum2 Harr2].
  assert (total_cells d2 = N) as HN2 by reflexivity.
  rewrite Part0_ibFromID_spec by lia. cbn [mbind result_bind].
  rewrite Part0_icFromID_spec by lia. cbn [mbind result_bind].
  destruct (block_cell_bounds d2 0) as [Hb0 Hc0]; [done..|].
  destruct (allocated_slot d2 _ _ Hv2 Ha2 Hb0 Hc0) as [c Hget].
  change (data d2) with (data d) in *.
  unfold element_ref. rewrite Hget. cbn [mbind result_bind].
  destruct (cell_set_of_get _ _ _ (Some v) _ Hget) as [data' Hset].
  unfold store. cbn [fst snd]. rewrite Hset. cbn [mbind result_bind].
  change (numElements d2) with (numElements d).
  rewrite to_size_int by lia.
  set (d' := set_numElements (set_data d2 data') (numElements d + 1)).
  assert (valid d') as Hv'.
  { pose proof (cell_set_valid d2 _ _ _ _ Hv2 Hset) as [? ? ? ? ? ? Harr'].
    assert (total_cells d' = N) as HN' by reflexivity.
    split; try done; rewrite ?HN';
      cbn [numElements iaFront d' d2 set_numElements set_data set_iaFront]; lia. }
  exists d'. split; [done|]. split; [done|]. split.
  { apply (allocated_ext (set_data d2 data')); [done..|].
    by eapply cell_set_allocated. }
  split; [|done].
  split; [cbn [length numElements d' set_numElements]; lia|].
  intros k w Hk.
  assert (Z.of_nat k < numElements d') as Hlt.
  { apply lookup_lt_Some in Hk. cbn in *. lia. }
  rewrite at_spec by (done || cbn in *; fold N; lia).
  change (data d') with data'. unfold load. cbn [fst snd].
  destruct k as [|k]; cbn in Hk.
  - injection Hk as <-.
    change (Z.of_nat 0) with 0.
    change (block_of d' 0) with (block_of d2 0).
    change (cell_of d' 0) with (cell_of d2 0).
    erewrite cell_set_get_eq by done. done.
  - destruct (abs_cell_shift d d' (Z.of_nat (S k)) (Z.of_nat k)) as [-> ->];
      [done | done | | done |].
    { cbn [iaFront d' d2 set_numElements set_data set_iaFront]. unfold f'.
      fold N. rewrite Zplus_mod_idemp_l. f_equal. lia. }
    erewrite cell_set_get_ne; [| done |].
    + specialize (Hl k w Hk). apply lookup_lt_Some in Hk.
      rewrite at_spec in Hl by (done || lia). done.
    + intros Heq.
      destruct (abs_cell_shift d d2 (Z.of_nat (S k)) (Z.of_nat k)) as [Hb' Hc'];
        [done | done | | done |].
      { cbn [iaFront d2 set_iaFront]. unfold f'.
        fold N. rewrite Zplus_mod_idemp_l. f_equal. lia. }
      rewrite <- Hb', <- Hc' in Heq.
      apply slot_inj in Heq; [lia | done | done | cbn in *; lia..].
Qed.
End PushFront.

(** ** pop_front *)

Section PopFront.
Context {T : Type} `{FromInt T}.
Implicit Types (d : deque T) (i : Z) (l : list T).

(** The scan of the front block never finds it empty: the address of a
    slot of an allocated block is not null. *)
Lemma block_scan_loop d blk fuel :
  valid d → 0 < total_cells d →
  ptr_get (data d) (block_of d 0) = Ok (Some blk) →
  (Z.to_nat (numCells d) < fuel)%nat →
  for_loop fuel
    (λ ic, to_size ic <? numCells d)
    (λ ic, to_int (ic + 1))
    (λ ic blockEmpty,
       ib ← Part0.ibFromID d 0;
       p ← ptr_get (data d) ib;
       Ok (if cell_address_nonnull p ic then false else blockEmpty))
    0 true = Ok false.
Proof.
  intros Hv Htot Hp Hfuel. pose proof Hv as [Hc Hb Hti Hcount Hf Hsum Harr].
  pose proof (valid_size_max d Hv) as Hsz.
  lazymatch goal with
  | |- context [for_loop _ _ _ ?body _ _] =>
      destruct (for_loop_count
        (λ (ic : Z) (blockEmpty : bool), 0 < ic → blockEmpty = false)
        (numCells d) body fuel true)
        as (b & Hrun & Hb'); [| | | done |]
  end.
  - unfold total_cells in *.
    assert (1 ≤ numBlocks d) by nia. nia.
  - intros ic b Hic _. cbn beta.
    rewrite Part0_ibFromID_spec by lia. cbn [mbind result_bind].
    rewrite Hp. cbn [mbind result_bind cell_address_nonnull]. eauto.
  - lia.
  - rewrite Hrun, Hb' by done. done.
Qed.

Lemma front_increment_single f C :
  0 < C → 0 ≤ f → f + 1 ≤ int_max →
  to_int (to_size (to_int (f + 1)) mod C) = (f + 1) mod C.
Proof.
  intros HC Hf Hmax. pose proof int_min_neg.
  rewrite (to_int_small (f + 1)), to_size_int by lia.
  pose proof (Z.mod_pos_bound (f + 1) C HC).
  pose proof (Z.mod_le (f + 1) C ltac:(lia) HC).
  apply to_int_small. lia.
Qed.

(** What [pop_front()] computes on a valid, fully allocated, non-empty
    deque. *)
Lemma Part0_pop_front_run d :
  valid d → allocated d → 0 < numElements d →
  ∃ data1 d',
    cell_set (data d) (block_of d 0) (cell_of d 0) None = Ok data1 ∧
    Part0.pop_front d = Ok d' ∧
    numCells d' = numCells d ∧ numBlocks d' = numBlocks d ∧
    numElements d' = numElements d - 1 ∧
    (1 < numElements d →
       data d' = data1 ∧
       iaFront d' = if numBlocks d =? 1 then (iaFront d + 1) mod numCells d
                    else iaFront d + 1).
Proof.
  intros Hv Ha Hn. pose proof Hv as [Hc Hb Hti Hcount Hf Hsum Harr].
  pose proof (valid_size_max d Hv) as Hsz.
  pose proof int_min_neg as Hmin.
  assert (0 < total_cells d) as Htot by lia.
  destruct (block_cell_bounds d 0) as [Hb0 Hc0]; [done..|].
  destruct (allocated_slot d _ _ Hv Ha Hb0 Hc0) as [c Hget].
  destruct (cell_set_of_get _ _ _ None _ Hget) as [data1 Hset].
  exists data1.
  unfold Part0.pop_front.
  destruct (Z.ltb_spec 0 (numElements d)) as [_|?]; [cbn [negb] | lia].
  rewrite Part0_ibFromID_spec by lia. cbn [mbind result_bind].
  rewrite Part0_icFromID_spec by lia. cbn [mbind result_bind].
  unfold element_ref. rewrite Hget. cbn [mbind result_bind].
  unfold destroy. cbn [fst snd]. rewrite Hset. cbn [mbind result_bind].
  set (d1 := set_data d data1).
  assert (valid d1) as Hv1 by (by eapply cell_set_valid).
  pose proof (cell_set_get_eq _ _ _ _ _ Hset) as Hget1.
  apply cell_get_Ok in Hget1 as (blk1 & Hp1 & _).
  rewrite (block_scan_loop d1 blk1); [|done|done|done|cbn; lia].
  cbn [mbind result_bind].
  change (numElements d1) with (numElements d).
  change (numBlocks d1) with (numBlocks d).
  destruct (Z.eqb_spec (numElements d) 1) as [Hone|Hmany].
  - (* the last element: iaFront = 0 and block 0 is dropped *)
    set (d2 := set_iaFront d1 0).
    assert (Part0.ibFromID d2 0 = Ok 0) as ->.
    { rewrite Part0_ibFromID_spec by (done || cbn; lia).
      unfold block_of, abs_cell. cbn [iaFront d2 set_iaFront].
      change (0 + 0) with 0.
      rewrite Z.mod_0_l, Z.div_0_l by (unfold total_cells in *; cbn; lia).
      done. }
    cbn [mbind result_bind].
    assert (∃ data2, ptr_set (data d2) 0 None = Ok data2) as [data2 ->].
    { destruct Hv1 as [_ _ _ _ _ _ Harr1]. change (data d2) with data1.
      cbn [data numBlocks d1 set_data] in Harr1.
      destruct data1 as [arr1|]; [|unfold total_cells in *; nia].
      destruct (lookup_lt_is_Some_2 arr1 0%nat) as [p Hp];
        [unfold total_cells in *; nia|].
      apply (ptr_set_of_get _ _ _ p). cbn [ptr_get]. by apply subscript_Ok. }
    cbn [mbind result_bind]. unfold d2, d1.
    cbn [numBlocks numCells iaFront numElements set_data set_iaFront].
    destruct (Z.eqb_spec (numBlocks d) 1) as [Hb1|Hb1].
    + destruct (Z.eqb_spec (numCells d) 0) as [?|_]; [lia|].
      eexists. split; [done|]. cbn.
      rewrite (to_size_int (numElements d - 1)) by lia.
      repeat split; try done; lia.
    + eexists. split; [done|]. cbn.
      rewrite (to_size_int (numElements d - 1)) by lia.
      repeat split; try done; lia.
  - cbn [mbind result_bind]. unfold d1.
    cbn [numBlocks numCells iaFront numElements set_data set_iaFront].
    destruct (Z.eqb_spec (numBlocks d) 1) as [Hb1|Hb1].
    + destruct (Z.eqb_spec (numCells d) 0) as [?|_]; [lia|].
      rewrite front_increment_single by lia.
      eexists. split; [done|]. cbn.
      rewrite (to_size_int (numElements d - 1)) by lia. repeat split; try done.
    + rewrite (to_int_small (iaFront d + 1)) by lia.
      eexists. split; [done|]. cbn.
      rewrite (to_size_int (numElements d - 1)) by lia. repeat split; try done.
Qed.
End PopFront.

Section PopFrontSequence.
Context {T : Type} `{FromInt T}.
Implicit Types (d : deque T) (i : Z) (l : list T).

(** With more than one element, [pop_front()] drops the head and keeps
    the rest in order. *)
Lemma Part0_pop_front_spec d x l :
  valid d → allocated d → represents Part0.at_ d (x :: l) → l ≠ [] →
  ∃ d', Part0.pop_front d = Ok d' ∧
    valid d' ∧ allocated d' ∧ represents Part0.at_ d' l.
Proof.
  intros Hv Ha [Hlen Hl] Hne. pose proof Hv as [Hc Hb Hti Hcount Hf Hsum Harr].
  cbn [length] in Hlen.
  assert (1 < numElements d) as Hn by (destruct l; [done | cbn in Hlen; lia]).
  assert (0 < total_cells d) as Htot by lia.
  destruct (Part0_pop_front_run d Hv Ha ltac:(lia))
    as (data1 & d' & Hset & Hrun & HC & HB & HN & Hrest).
  destruct (Hrest Hn) as [Hdata Hfront]. clear Hrest.
  assert (total_cells d' = total_cells d) as Htot'
    by (unfold total_cells; by rewrite HC, HB).
  assert (0 ≤ iaFront d' ≤ iaFront d + 1) as Hf'.
  { rewrite Hfront. destruct (numBlocks d =? 1); [|lia].
    pose proof (Z.mod_pos_bound (iaFront d + 1) (numCells d) Hc).
    pose proof (Z.mod_le (iaFront d + 1) (numCells d) ltac:(lia) Hc). lia. }
  assert (valid d') as Hv'.
  { pose proof (cell_set_valid d _ _ _ _ Hv Hset) as [_ _ _ _ _ _ Harr1].
    cbn [data numBlocks set_data] in Harr1.
    split; rewrite ?Htot', ?HC, ?HB, ?HN, ?Hdata; try done; lia. }
  exists d'. split; [done|]. split; [done|]. split.
  { apply (allocated_ext (set_data d data1)); [done..|].
    by eapply cell_set_allocated. }
  split; [lia|].
  intros k w Hk. pose proof (lookup_lt_Some _ _ _ Hk) as Hklt.
  rewrite at_spec by (done || lia).
  destruct (abs_cell_shift d d' (Z.of_nat k) (Z.of_nat (S k))) as [-> ->];
    [done | done | | done |].
  { rewrite Hfront. destruct (Z.eqb_spec (numBlocks d) 1) as [Hb1|_].
    - replace (total_cells d) with (numCells d)
        by (unfold total_cells; rewrite Hb1; lia).
      rewrite Zplus_mod_idemp_l. f_equal. lia.
    - f_equal. lia. }
  rewrite Hdata. unfold load. cbn [fst snd].
  erewrite cell_set_get_ne; [| done |].
  - specialize (Hl (S k) w Hk).
    rewrite at_spec in Hl by (done || lia). done.
  - intros Heq. apply slot_inj in Heq; lia.
Qed.

(** The last element can always be popped. *)
Lemma Part0_pop_front_last d x :
  valid d → allocated d → represents Part0.at_ d [x] →
  ∃ d', Part0.pop_front d = Ok d' ∧ numElements d' = 0.
Proof.
  intros Hv Ha [Hlen _]. cbn in Hlen.
  destruct (Part0_pop_front_run d Hv Ha ltac:(lia))
    as (data1 & d' & _ & Hrun & _ & _ & HN & _).
  exists d'. split; [done | lia].
Qed.

(** A run of [push_front] calls into free, allocated cells stacks the
    values in front of the sequence. *)
Lemma push_front_all_spec vs : ∀ d l,
  valid d → allocated d → represents Part0.at_ d l →
  numElements d + Z.of_nat (length vs) ≤ total_cells d →
  2 * total_cells d ≤ int_max →
  ∃ d', push_all Part0.push_front d vs = Ok d' ∧
    valid d' ∧ allocated d' ∧ represents Part0.at_ d' (rev vs ++ l).
Proof.
  induction vs as [|v vs IH]; intros d l Hv Ha Hl Hroom Hhalf.
  - exists d. by cbn.
  - cbn [length] in Hroom. cbn [push_all].
    destruct (Part0_push_front_spec d v l Hv Ha Hl ltac:(lia) Hhalf)
      as (d1 & -> & Hv1 & Ha1 & Hl1 & HC & HB & HN & _).
    cbn [mbind result_bind].
    assert (total_cells d1 = total_cells d) as Htot
      by (unfold total_cells; by rewrite HC, HB).
    destruct (IH d1 (v :: l) Hv1 Ha1 Hl1) as (d' & Hrun & Hv' & Ha' & Hl');
      [lia | lia |].
    exists d'. cbn [rev]. rewrite <- app_assoc. done.
Qed.

(** Reading [front()] and popping until the deque is empty yields the
    sequence from the front. *)
Lemma drain_front_spec l : ∀ d,
  valid d → allocated d → represents Part0.at_ d l →
  ∃ d', drain Part0.front Part0.pop_front (length l) d = Ok (l, d') ∧
    numElements d' = 0.
Proof.
  induction l as [|x l IH]; intros d Hv Ha Hl.
  - exists d. split; [done|]. by destruct Hl.
  - cbn [length drain].
    pose proof (proj2 Hl 0%nat x eq_refl) as Hx.
    change (Z.of_nat 0) with 0 in Hx.
    unfold Part0.at_ in Hx.
    change (Part0.front d) with (Part0.operator_index d 0).
    destruct (Part0.operator_index d 0) as [r|]; [|done].
    cbn [mbind result_bind] in *. rewrite Hx. cbn [mbind result_bind].
    destruct l as [|y l].
    + destruct (Part0_pop_front_last d x Hv Ha Hl) as (d' & -> & Hn).
      cbn. eauto.
    + destruct (Part0_pop_front_spec d x (y :: l) Hv Ha Hl ltac:(done))
        as (d1 & -> & Hv1 & Ha1 & Hl1).
      cbn [mbind result_bind].
      destruct (IH d1 Hv1 Ha1 Hl1) as (d' & -> & Hn).
      cbn. eauto.
Qed.
End PopFrontSequence.

(** ** The sample states *)

Ltac solve_valid :=
  split; try split; by vm_compute.

Ltac solve_allocated :=
  eexists; split; [reflexivity |];
  let p := fresh "p" in
  let Hp := fresh "Hp" in
  intros p Hp;
  repeat (apply elem_of_cons in Hp as [-> | Hp]; [eexists; split; reflexivity |]);
  by apply elem_of_nil in Hp.

Ltac solve_represents :=
  split; [reflexivity |];
  let k := fresh "k" in
  let v := fresh "v" in
  let Hk := fresh "Hk" in
  intros k v Hk;
  repeat (destruct k as [| k]; [injection Hk as <-; reflexivity |]);
  discriminate Hk.

Lemma sample_wrapped_valid : valid sample_wrapped.
Proof. solve_valid. Qed.

Lemma sample_wrapped_represents : represents Part0.at_ sample_wrapped [10; 20].
Proof. solve_represents. Qed.

Lemma sample_flat_valid : valid sample_flat.
Proof. solve_valid. Qed.

Lemma sample_flat_represents : represents Part0.at_ sample_flat [10; 20; 30].
Proof. solve_represents. Qed.

Lemma sample_flat_represents_skeleton :
  represents DequeH.at_ sample_flat [10; 20; 30].
Proof. solve_represents. Qed.

Lemma sample_empty_valid : valid sample_empty.
Proof. solve_valid. Qed.

Lemma sample_empty_allocated : allocated sample_empty.
Proof. solve_allocated. Qed.


(** ** The capacity bound under the mutators *)

Section LoopInvariants.
Context {S : Type}.

(** Partial correctness: what a loop returns satisfies any invariant that
    its body keeps. *)
Lemma while_loop_invariant (I : S → Prop) (cond : S → result bool)
    (body : S → result S) :
  (∀ s s', I s → body s = Ok s' → I s') →
  ∀ fuel s s', I s → while_loop fuel cond body s = Ok s' → I s'.
Proof.
  intros Hbody fuel. induction fuel as [|fuel IH]; intros s s' Hs Hrun; [done|].
  cbn [while_loop] in Hrun.
  destruct (cond s) as [[|]|]; cbn [mbind result_bind] in Hrun; [| |done].
  - destruct (body s) as [s1|] eqn:Hb; cbn [mbind result_bind] in Hrun; [|done].
    eapply IH; [|done]. by eapply Hbody.
  - by injection Hrun as <-.
Qed.
End LoopInvariants.

Section ForInvariants.
Context {S : Type}.

Lemma for_loop_invariant (I : S → Prop) (test : Z → bool) (next : Z → Z)
    (body : Z → S → result S) :
  (∀ i s s', I s → body i s = Ok s' → I s') →
  ∀ fuel i s s', I s → for_loop fuel test next body i s = Ok s' → I s'.
Proof.
  intros Hbody fuel i s s' Hs Hrun. unfold for_loop in Hrun.
  destruct (while_loop _ _ _ _) as [[j s1]|] eqn:Hloop;
    cbn [mbind result_bind] in Hrun; [|done].
  injection Hrun as <-.
  apply (while_loop_invariant (λ '(_, s), I s) _ _) in Hloop; [done | | done].
  intros [i1 s1'] [i2 s2] Hs1 Hb.
  destruct (body i1 s1') as [s3|] eqn:Hb3; cbn [mbind result_bind] in Hb; [|done].
  injection Hb as _ <-. by eapply Hbody.
Qed.
End ForInvariants.

(** Peel the binds of a run that returned. *)
Ltac bind_inv H :=
  repeat first
    [ progress cbn [mbind result_bind] in H
    | match type of H with
      | Fault _ = Ok _ => discriminate H
      | (?m ≫= _) = Ok _ =>
          let E := fresh "E" in
          destruct m eqn:E; [|discriminate H]
      | (let '(_, _) := ?p in _) = Ok _ => destruct p
      end ].

Section Geometry.
Context {T : Type} `{FromInt T}.
Implicit Types (d : deque T).

Lemma pop_back_geometry d d' :
  Part0.pop_back d = Ok d' →
  numCells d' = numCells d ∧ numBlocks d' = numBlocks d ∧
  numElements d' = to_size (numElements d - 1) ∧ 0 < numElements d.
Proof.
  unfold Part0.pop_back. intros Hrun.
  destruct (Z.ltb_spec 0 (numElements d)) as [Hn|_]; cbn [negb] in Hrun; [|done].
  bind_inv Hrun.
  injection Hrun as <-. clear E3.
  destruct a3; bind_inv E4; injection E4 as <-; done.
Qed.

Lemma pop_front_geometry d d' :
  Part0.pop_front d = Ok d' →
  numCells d' = numCells d ∧ numBlocks d' = numBlocks d ∧
  numElements d' = to_size (numElements d - 1) ∧ 0 < numElements d.
Proof.
  unfold Part0.pop_front. intros Hrun.
  destruct (Z.ltb_spec 0 (numElements d)) as [Hn|_]; cbn [negb] in Hrun; [|done].
  bind_inv Hrun. injection Hrun as <-. clear E3.
  assert (same_geometry (set_data d a2) a4) as (HC4 & HB4 & HN4).
  { destruct a3; bind_inv E4; by injection E4 as <-. }
  assert (same_geometry a4 a5) as (HC5 & HB5 & HN5).
  { destruct (numElements a4 =? 1); bind_inv E5; by injection E5 as <-. }
  assert (same_geometry a5 a6) as (HC6 & HB6 & HN6).
  { destruct (numBlocks a5 =? 1);
      [destruct (numCells a5 =? 0); [done|] |]; by injection E6 as <-. }
  cbn [numCells numBlocks numElements set_numElements set_data] in *.
  rewrite HC6, HC5, HC4, HB6, HB5, HB4, HN6, HN5, HN4. done.
Qed.

Lemma clear_geometry d d' :
  Part0.clear d = Ok d' →
  numCells d' = numCells d ∧ numBlocks d' = numBlocks d ∧ numElements d' = 0.
Proof.
  unfold Part0.clear. intros Hrun. bind_inv Hrun. injection Hrun as <-.
  apply (for_loop_invariant (same_geometry d)) in E; [| |done].
  - apply (for_loop_invariant (same_geometry d)) in E0; [| |done].
    + by destruct E0 as (? & ? & ?).
    + intros i s s' Hs Hb. bind_inv Hb.
      destruct a1; bind_inv Hb; by injection Hb as <-.
  - intros i s s' Hs Hb. bind_inv Hb. by injection Hb as <-.
Qed.

Lemma reallocate_geometry d nbn d' :
  Part0.reallocate d nbn = Ok d' →
  numCells d' = numCells d ∧ numBlocks d' = to_size nbn ∧
  numElements d' = numElements d ∧
  numElements d < to_size nbn ∧ numCells d ≠ 0.
Proof.
  unfold Part0.reallocate. intros Hrun.
  destruct (Z.ltb_spec 0 nbn) as [Hpos|_]; cbn [negb andb] in Hrun; [|done].
  destruct (Z.ltb_spec (numElements d) (to_size nbn)) as [Hlt|_];
    cbn [negb] in Hrun; [|done].
  bind_inv Hrun.
  destruct (Z.eqb_spec (numCells d) 0) as [?|Hc]; [done|].
  by injection Hrun as <-.
Qed.

Lemma push_front_geometry d t d' :
  Part0.push_front d t = Ok d' →
  numCells d' = numCells d ∧ numElements d' = to_size (numElements d + 1) ∧
  ((numElements d ≠ to_size (numBlocks d * numCells d) ∧
    numBlocks d' = numBlocks d) ∨
   (numCells d ≠ 0 ∧ numElements d < numBlocks d')).
Proof.
  unfold Part0.push_front. intros Hrun. bind_inv Hrun.
  destruct (Z.eqb_spec (numElements d) (to_size (numBlocks d * numCells d)))
    as [Hfull|Hroom].
  - apply reallocate_geometry in E as (HC & HB & HN & Hlt & Hc).
    destruct (to_size (numBlocks a * numCells a) =? 0); [done|].
    bind_inv Hrun. injection Hrun as <-. cbn. rewrite HC, HN, HB.
    split; [done|]. split; [done|]. right. done.
  - injection E as <-.
    destruct (to_size (numBlocks d * numCells d) =? 0); [done|].
    bind_inv Hrun. injection Hrun as <-. cbn.
    split; [done|]. split; [done|]. left. done.
Qed.

(** Every mutator that returns keeps the count within the capacity. *)
Lemma capacity_preserved d d' :
  mutation d d' → within_capacity d → within_capacity d'.
Proof.
  intros Hmut (Hc & Hb & Hn & Hcap). unfold within_capacity.
  pose proof to_size_range as Hrange.
  destruct Hmut as [d t d' Hrun | d t d' Hrun | d t d' Hrun
                   | d d' Hrun | d d' Hrun | d d' Hrun].
  - by injection Hrun as <-.
  - apply push_front_geometry in Hrun as (-> & -> & Hcase).
    pose proof (Hrange (numElements d + 1)).
    pose proof (to_size_le (numElements d + 1) ltac:(lia)).
    destruct Hcase as [[Hroom ->] | [Hc0 Hlt]].
    + split; [done|]. split; [done|]. split; [done|].
      destruct (Z.le_gt_cases (numBlocks d * numCells d) size_max) as [Hfit|Hbig].
      * rewrite to_size_small in Hroom by nia. lia.
      * lia.
    + split; [done|]. split; [lia|]. split; [done|]. nia.
  - unfold Part0.push_front_move in Hrun.
    apply push_front_geometry in Hrun as (-> & -> & Hcase).
    pose proof (Hrange (numElements d + 1)).
    pose proof (to_size_le (numElements d + 1) ltac:(lia)).
    destruct Hcase as [[Hroom ->] | [Hc0 Hlt]].
    + split; [done|]. split; [done|]. split; [done|].
      destruct (Z.le_gt_cases (numBlocks d * numCells d) size_max) as [Hfit|Hbig].
      * rewrite to_size_small in Hroom by nia. lia.
      * lia.
    + split; [done|]. split; [lia|]. split; [done|]. nia.
  - apply pop_front_geometry in Hrun as (-> & -> & -> & Hpos).
    pose proof (to_size_le (numElements d - 1) ltac:(lia)).
    pose proof (Hrange (numElements d - 1)). repeat split; try done; lia.
  - apply pop_back_geometry in Hrun as (-> & -> & -> & Hpos).
    pose proof (to_size_le (numElements d - 1) ltac:(lia)).
    pose proof (Hrange (numElements d - 1)). repeat split; try done; lia.
  - apply clear_geometry in Hrun as (-> & -> & ->).
    repeat split; try done; nia.
Qed.

(** So does every run of mutators. *)
Lemma capacity_invariant d d' :
  rtc mutation d d' → within_capacity d → within_capacity d'.
Proof.
  induction 1 as [|d d1 d2 Hstep _ IH]; [done|].
  intros Hd. apply IH. by eapply capacity_preserved.
Qed.
End Geometry.

(** ** The cleared state *)

Section Cleared.
Context {T : Type} `{FromInt T}.
Implicit Types (d : deque T).





End Cleared.

(** * The claims *)

(** C1 (invariant and index translation).  The claim fails on the code
    at two places.  The helpers of deque.h do not reduce modulo the number
    of cells of the array: on the wrapped sample (valid, holding 10, 20,
    front offset 7 of 8 cells) the absolute cell of index 0 is 7 and
    [iaFromID(0)] returns 3; the block of index 1 is 0 and [ibFromID(1)]
    returns 2, so [operator[](1)] and [back()] subscript the array of two
    block pointers at 2, while the helpers of part_000 give block 0,
    cell 0.  And the copy assignment of part_000 takes over the count of the
    source without any storage: assigning the three-element sample to a
    freshly constructed deque leaves three elements in zero cells. *)
Theorem C1_mapping_and_bound_break :
  valid sample_wrapped ∧ represents Part0.at_ sample_wrapped [10; 20] ∧
  abs_cell sample_wrapped 0 = 7 ∧
  DequeH.iaFromID sample_wrapped 0 = Ok 3 ∧
  (block_of sample_wrapped 1, cell_of sample_wrapped 1) = (0, 0) ∧
  DequeH.ibFromID sample_wrapped 1 = Ok 2 ∧
  DequeH.operator_index sample_wrapped 1 = Fault OutOfBounds ∧
  DequeH.back sample_wrapped = Fault OutOfBounds ∧
  Part0.operator_index sample_wrapped 1 = Ok (0, 0) ∧
  Part0.at_ sample_wrapped 1 = Ok 20 ∧
  Part0.assign_op deque_ctor sample_flat = Ok (Deque 16 0 3 1 None) ∧
  ¬ (numElements (Deque 16 0 3 1 (None : block_array Z))
     ≤ numBlocks (Deque 16 0 3 1 (None : block_array Z))
       * numCells (Deque 16 0 3 1 (None : block_array Z))).
Proof.
  split; [exact sample_wrapped_valid|].
  split; [exact sample_wrapped_represents|].
  repeat split; by vm_compute.
Qed.

(** C2 (push_front with growth).  [push_front] on a freshly constructed
    deque calls [reallocate(1)], which allocates the pointer array but no
    block, and then assigns through the null block pointer; on a full
    deque of one block of four cells the assertion of [reallocate]
    ([numBlocksNew > numElements]) fails.  In neither case does the value
    get prepended. *)
Theorem C2_push_front_growth_fails :
  (∀ (T : Type) (FI : FromInt T) (t : T),
     Part0.push_front (@deque_ctor T) t = Fault NullDeref) ∧
  Part0.at_ sample_full 0 = Ok 1 ∧
  Part0.push_front sample_full 0 = Fault AssertFailed.
Proof. split; [reflexivity | split; reflexivity]. Qed.

(** C3 (reallocate).  With [numElements < numBlocksNew * numCells]:
    on the full one-block deque, [reallocate(2)] stops at its assertion;
    on a one-block deque holding 1, 2, [reallocate(3)] returns with three
    null block pointers (the copy loop's guard [idOld > numElements] is
    false at entry), so logical index 0, which read 1 before, is read
    through a null pointer afterwards. *)
Theorem C3_reallocate_drops_blocks :
  numElements sample_full < 2 * numCells sample_full ∧
  Part0.reallocate sample_full 2 = Fault AssertFailed ∧
  numElements sample_pair < 3 * numCells sample_pair ∧
  Part0.at_ sample_pair 0 = Ok 1 ∧
  Part0.reallocate sample_pair 3
    = Ok (Deque 4 3 2 0 (Some [None; None; None])) ∧
  (d ← Part0.reallocate sample_pair 3; Part0.at_ d 0) = Fault NullDeref.
Proof. repeat split; reflexivity. Qed.

(** C4 (pop_front).  With two blocks, [pop_front] on the wrapped sample
    (front offset 7 of 8 cells) leaves the front offset at 8, not at
    [(7 + 1) mod 8 = 0]: the multi-block branch increments without
    wrapping (the remaining element is still read at index 0, since the
    helpers reduce modulo the cell count).  With a single element at offset
    2, the front offset is reset to 0 and then advanced to 1, not to 3. *)
Theorem C4_pop_front_offset :
  (d ← Part0.pop_front sample_wrapped; Ok (iaFront d, numElements d))
    = Ok (8, 1) ∧
  (iaFront sample_wrapped + 1) mod total_cells sample_wrapped = 0 ∧
  (d ← Part0.pop_front sample_wrapped; Part0.at_ d 0) = Ok 20 ∧
  (d ← Part0.pop_front sample_single; Ok (iaFront d, numElements d))
    = Ok (1, 0) ∧
  (iaFront sample_single + 1) mod total_cells sample_single = 3.
Proof. repeat split; reflexivity. Qed.

(** C5 (copy).  Assigning the three-element sample to a fresh deque with
    the copy assignment of part_000 takes over the count and the front
    offset but no storage (the remaining elements go through [push_back],
    which has no body), so index 0 of the target cannot be read; the copy
    assignment of deque.h returns the target unchanged; the copy
    constructor of deque.h reads every slot of every block of the source
    and so fails on a source with a null block pointer. *)
Theorem C5_copy_is_not_equal :
  Part0.at_ sample_flat 0 = Ok 10 ∧
  Part0.assign_op deque_ctor sample_flat = Ok (Deque 16 0 3 1 None) ∧
  (d ← Part0.assign_op deque_ctor sample_flat; Part0.at_ d 0)
    = Fault DivByZero ∧
  DequeH.assign_op deque_ctor sample_flat = Ok deque_ctor ∧
  size (@deque_ctor Z) ≠ size sample_flat ∧
  Part0.at_ sample_sparse 0 = Ok 1 ∧
  DequeH.copy_ctor sample_sparse = Fault NullDeref.
Proof. repeat split; by vm_compute. Qed.

(** C6 (round trip).  [push_back] has an empty body in both files, in
    both overloads: it returns with the deque as it was, whatever the
    deque and the value.  So after [push_back(7)] on a freshly constructed
    deque [size()] is still 0, [back()] has no element to read (deque.h
    goes through the null block array, part_000 divides by the zero cell
    count of the array), [pop_back()] stops at its assertion, and the round
    trip of the claim yields nothing.  The front half meets the defect of
    C2 on the same deque: [push_front(1)] writes through a null pointer. *)
Theorem C6_push_back_inserts_nothing :
  (∀ (T : Type) (d : deque T) (t : T),
     DequeH.push_back d t = Ok d ∧ Part0.push_back d t = Ok d) ∧
  (d ← DequeH.push_back (@deque_ctor Z) 7; Ok (size d)) = Ok 0 ∧
  (d ← DequeH.push_back (@deque_ctor Z) 7; DequeH.back d) = Fault NullDeref ∧
  (d ← DequeH.push_back (@deque_ctor Z) 7; DequeH.pop_back d)
    = Fault AssertFailed ∧
  round_trip DequeH.push_back DequeH.back DequeH.pop_back (@deque_ctor Z) [7]
    = Fault NullDeref ∧
  (d ← Part0.push_back (@deque_ctor Z) 7; Ok (size d)) = Ok 0 ∧
  (d ← Part0.push_back (@deque_ctor Z) 7; Part0.back d) = Fault DivByZero ∧
  (d ← Part0.push_back (@deque_ctor Z) 7; Part0.pop_back d)
    = Fault AssertFailed ∧
  round_trip Part0.push_back Part0.back Part0.pop_back (@deque_ctor Z) [7]
    = Fault DivByZero ∧
  round_trip Part0.push_front Part0.front Part0.pop_front (@deque_ctor Z) [1]
    = Fault NullDeref.
Proof. split; [done|]. repeat split; by vm_compute. Qed.

(** C7 (iterator traversal).  On the wrapped sample (valid, holding 10,
    20) [begin()] has index 0, [end()] has index 2 and [end() - begin()] is
    [size()], and the first step of the traversal of deque.h reads 10; the
    second dereferences index 1, for which [ibFromID] of deque.h gives
    block 2 of 2, and runs off the array of block pointers.  The same loop
    over part_000, whose helpers wrap, reads 10, 20. *)
Theorem C7_skeleton_traversal_runs_off :
  valid sample_wrapped ∧ represents Part0.at_ sample_wrapped [10; 20] ∧
  it_id (DequeH.begin sample_wrapped) = 0 ∧
  it_id (DequeH.end_ sample_wrapped) = 2 ∧
  it_sub (DequeH.end_ sample_wrapped) (DequeH.begin sample_wrapped)
    = size sample_wrapped ∧
  (r ← DequeH.deref sample_wrapped (DequeH.begin sample_wrapped);
   load (data sample_wrapped) r) = Ok 10 ∧
  DequeH.deref sample_wrapped (it_incr (DequeH.begin sample_wrapped))
    = Fault OutOfBounds ∧
  traverse_from DequeH.end_ DequeH.deref 3 sample_wrapped
    (DequeH.begin sample_wrapped) = Fault OutOfBounds ∧
  traverse_from Part0.end_ Part0.deref 3 sample_wrapped
    (Part0.begin sample_wrapped) = Ok [10; 20].
Proof.
  split; [exact sample_wrapped_valid|].
  split; [exact sample_wrapped_represents|].
  repeat split; by vm_compute.
Qed.

(** C8 (pop_back).  On the wrapped sample (valid, holding 10, 20, the
    last element in block 0, cell 0) [pop_back()] of deque.h computes block
    2 of 2 for the last index and destroys through the array of block
    pointers past its end.  [pop_back()] of part_000 does what the claim
    says there: the count drops to 1, the front offset stays 7 and index 0
    still reads 10. *)
Theorem C8_skeleton_pop_back_runs_off :
  valid sample_wrapped ∧ represents Part0.at_ sample_wrapped [10; 20] ∧
  (block_of sample_wrapped 1, cell_of sample_wrapped 1) = (0, 0) ∧
  DequeH.ibFromID sample_wrapped 1 = Ok 2 ∧
  DequeH.pop_back sample_wrapped = Fault OutOfBounds ∧
  Part0.pop_back sample_wrapped
    = Ok (Deque 4 2 1 7 (Some [None; Some [None; None; None; Some 10]])) ∧
  (d ← Part0.pop_back sample_wrapped; Part0.at_ d 0) = Ok 10.
Proof.
  split; [exact sample_wrapped_valid|].
  split; [exact sample_wrapped_represents|].
  repeat split; by vm_compute.
Qed.

(** C10 (the two variants of the helpers).  For every deque state with at
    least one block whose cell count is a [size_t] value and whose front
    offset is not negative, and every logical index [i] for which
    [iaFront + i] neither overflows nor reaches [numBlocks * numCells],
    [ibFromID] and [icFromID] of deque.h return the block and the cell that
    those of part_000 return. *)
Theorem C10_helpers_agree {T : Type} (d : deque T) (i : Z) :
  0 < numBlocks d → total_cells d ≤ size_max →
  0 ≤ iaFront d → 0 ≤ i → iaFront d + i ≤ int_max →
  iaFront d + i < numBlocks d * numCells d →
  DequeH.ibFromID d i = Part0.ibFromID d i ∧
  DequeH.icFromID d i = Part0.icFromID d i ∧
  Part0.ibFromID d i = Ok ((iaFront d + i) / numCells d) ∧
  Part0.icFromID d i = Ok ((iaFront d + i) mod numCells d).
Proof.
  intros Hb Hsz Hf Hi Hsum Hwrap.
  assert (0 < numCells d) as Hc by nia.
  assert (0 < total_cells d) as Htot by (unfold total_cells; lia).
  rewrite DequeH_ibFromID_spec, DequeH_icFromID_spec by lia.
  rewrite Part0_ibFromID_spec, Part0_icFromID_spec by lia.
  unfold block_of, cell_of.
  rewrite abs_cell_no_wrap by (unfold total_cells; lia). done.
Qed.

Lemma C10_helpers_agree_witness :
  DequeH.ibFromID sample_flat 2 = Part0.ibFromID sample_flat 2 ∧
  DequeH.icFromID sample_flat 2 = Part0.icFromID sample_flat 2.
Proof.
  destruct (C10_helpers_agree sample_flat 2) as (Hb & Hc & _);
    [by vm_compute ..|].
  split; [exact Hb | exact Hc].
Defined.

(** Past the end of the array the two variants part: for the second element
    of the wrapped sample deque.h computes block 2 of 2, part_000 wraps to
    block 0. *)
Example helpers_differ_on_wrap :
  DequeH.ibFromID sample_wrapped 1 = Ok 2 ∧
  Part0.ibFromID sample_wrapped 1 = Ok 0 ∧
  DequeH.iaFromID sample_wrapped 0 = Ok 3 ∧
  Part0.iaFromID sample_wrapped 0 = Ok 7.
Proof. repeat split; reflexivity. Qed.

(** * Further properties of the code *)

(** ** Conversions *)

(** Converting to [int] before or after an addition gives the same [int]. *)
Lemma to_int_add_l a b : to_int (to_int a + b) = to_int (a + b).
Proof.
  unfold to_int. f_equal.
  replace ((a + 2 ^ 31) mod 2 ^ 32 - 2 ^ 31 + b + 2 ^ 31)
    with ((a + 2 ^ 31) mod 2 ^ 32 + b) by lia.
  rewrite Zplus_mod_idemp_l. f_equal. lia.
Qed.

Lemma to_int_to_size z : to_int (to_size z) = to_int z.
Proof.
  unfold to_int, to_size.
  f_equal.
  rewrite <- (Zplus_mod_idemp_l (z mod 2 ^ 64)).
  rewrite (Z.mod_mod_divide z (2 ^ 64) (2 ^ 32)) by (exists (2 ^ 32); reflexivity).
  by rewrite Zplus_mod_idemp_l.
Qed.

Lemma to_int_range z : int_min ≤ to_int z ≤ int_max.
Proof.
  unfold to_int, int_min, int_max.
  pose proof (Z.mod_pos_bound (z + 2 ^ 31) (2 ^ 32)). lia.
Qed.

(** ** The iterator *)

(** X1 (iterator arithmetic).  While the index stays within [int]:
    [--] undoes [++] and [++] undoes [--], the postfix forms return the
    iterator as it was and leave it advanced, an iterator moved by [+= n]
    is [n] away from where it started, and it compares equal to its start
    exactly when [n] is 0. *)
Theorem X1_iterator_arithmetic (it : iterator) (n : Z) :
  int_min < it_id it < int_max → int_min ≤ n ≤ int_max →
  int_min ≤ it_id it + n ≤ int_max →
  it_decr (it_incr it) = it ∧ it_incr (it_decr it) = it ∧
  it_post_incr it = (it, it_incr it) ∧ it_post_decr it = (it, it_decr it) ∧
  it_sub (it_incr it) it = 1 ∧
  it_sub (it_add it n) it = n ∧
  it_eq (it_add it n) it = (n =? 0) ∧
  it_ne (it_add it n) it = negb (n =? 0).
Proof.
  intros Hid Hn Hsum. destruct it as [id]. cbn [it_id] in *.
  unfold it_post_incr, it_post_decr.
  unfold it_decr, it_incr, it_sub, it_add, it_eq, it_ne.
  cbn [it_id].
  rewrite (to_int_small (id + 1)), (to_int_small (id - 1)), (to_int_small (id + n))
    by lia.
  replace (id + 1 - 1) with id by lia. replace (id - 1 + 1) with id by lia.
  replace (id + 1 - id) with 1 by lia. replace (id + n - id) with n by lia.
  rewrite !to_int_small by (unfold int_min, int_max in *; lia).
  assert ((id + n =? id) = (n =? 0)) as ->.
  { destruct (Z.eqb_spec (id + n) id), (Z.eqb_spec n 0); (done || lia). }
  done.
Qed.

Lemma X1_iterator_arithmetic_witness :
  it_decr (it_incr (Iterator 5)) = Iterator 5 ∧
  it_sub (it_add (Iterator 5) (-3)) (Iterator 5) = -3.
Proof.
  destruct (X1_iterator_arithmetic (Iterator 5) (-3))
    as (H1 & _ & _ & _ & _ & H2 & _); [by vm_compute ..|].
  split; [exact H1 | exact H2].
Defined.

(** ** The accessors *)

Section BackIndex.
Context {T : Type}.
Implicit Types (d : deque T).

Lemma Part0_back_index d :
  Part0.back d = Part0.operator_index d (to_int (numElements d - 1)).
Proof.
  unfold Part0.back.
  replace (to_int (numElements d) - 1) with (to_int (numElements d) + -1) by lia.
  rewrite to_int_add_l.
  by replace (numElements d + -1) with (numElements d - 1) by lia.
Qed.

Lemma Part0_back_const_index d :
  Part0.back_const d = Part0.operator_index d (to_int (numElements d - 1)).
Proof. unfold Part0.back_const. by rewrite to_int_to_size. Qed.

Lemma DequeH_back_index d :
  DequeH.back d = DequeH.operator_index d (to_int (numElements d - 1)).
Proof. unfold DequeH.back. by rewrite to_int_to_size. Qed.
End BackIndex.

(** X2 (the two overloads of back).  [back()] computes its index as
    [static_cast<int>(numElements) - 1], [back() const] as [numElements - 1]
    in [size_t] converted to [int]; for every state both form the reference
    of index [numElements - 1] reduced to [int], so they designate the same
    slot or fail alike. *)
Theorem X2_back_overloads_agree {T : Type} (d : deque T) :
  Part0.back d = Part0.operator_index d (to_int (numElements d - 1)) ∧
  Part0.back_const d = Part0.operator_index d (to_int (numElements d - 1)) ∧
  Part0.back d = Part0.back_const d.
Proof.
  rewrite Part0_back_index, Part0_back_const_index. done.
Qed.

(** X3 (accessors of the two variants).  On a valid deque whose live range
    does not run past the end of the block array
    ([iaFront + numElements <= numBlocks * numCells]), [operator[]] at every
    live index, [front()] and [back()] of deque.h form the same references,
    and read the same values, as those of part_000. *)
Theorem X3_accessors_agree_without_wrap {T : Type} (d : deque T) (i : Z) :
  valid d → iaFront d + numElements d ≤ total_cells d →
  0 ≤ i < numElements d →
  DequeH.operator_index d i = Part0.operator_index d i ∧
  DequeH.at_ d i = Part0.at_ d i ∧
  DequeH.front d = Part0.front d ∧
  DequeH.back d = Part0.back d ∧
  DequeH.deref d (Iterator i) = Part0.deref d (Iterator i).
Proof.
  intros Hv Hflat Hi. pose proof Hv as [Hc Hb Hti Hcount Hf Hsum Harr].
  pose proof (valid_size_max d Hv) as Hsz.
  assert (0 < total_cells d) as Htot by lia.
  assert (Hidx : ∀ j, 0 ≤ j < numElements d →
            DequeH.operator_index d j = Part0.operator_index d j).
  { intros j Hj. unfold DequeH.operator_index, Part0.operator_index.
    rewrite DequeH_ibFromID_spec, DequeH_icFromID_spec by lia.
    rewrite Part0_ibFromID_spec, Part0_icFromID_spec by lia.
    unfold block_of, cell_of. by rewrite abs_cell_no_wrap by lia. }
  split; [by apply Hidx|].
  split; [unfold DequeH.at_, Part0.at_; by rewrite Hidx|].
  split; [apply Hidx; lia|].
  split; [|by apply Hidx].
  rewrite Part0_back_index, DequeH_back_index. apply Hidx.
  rewrite to_int_small by (pose proof int_min_neg; lia). lia.
Qed.

Lemma X3_accessors_agree_without_wrap_witness :
  DequeH.at_ sample_flat 2 = Part0.at_ sample_flat 2 ∧
  DequeH.back sample_flat = Part0.back sample_flat.
Proof.
  destruct (X3_accessors_agree_without_wrap sample_flat 2 sample_flat_valid)
    as (_ & Hat & _ & Hback & _); [by vm_compute ..|].
  split; [exact Hat | exact Hback].
Defined.

(** ** reallocate *)

Section SkippedLoops.
Context {S : Type}.

(** A loop whose guard is false at entry does nothing. *)
Lemma for_loop_skip fuel (test : Z → bool) (next : Z → Z)
    (body : Z → S → result S) (i : Z) (s : S) :
  test i = false → for_loop (Datatypes.S fuel) test next body i s = Ok s.
Proof. intros Htest. unfold for_loop. cbn. by rewrite Htest. Qed.
End SkippedLoops.

Section Reallocate.
Context {T : Type} `{FromInt T}.
Implicit Types (d : deque T).

(** The loop that nulls the new pointer array, run on an array that is
    null throughout. *)
Lemma reallocate_null_loop (n : Z) fuel :
  0 ≤ n ≤ int_max → (Z.to_nat n < fuel)%nat →
  while_loop fuel
    (λ '(_, ibNew), Ok (ibNew <? n))
    (λ '(dataNew, ibNew),
       dataNew' ← ptr_set (T:=T) dataNew ibNew None;
       Ok (dataNew', to_int (ibNew + 1)))
    (Some (replicate (Z.to_nat n) None), 0)
  = Ok (Some (replicate (Z.to_nat n) None), n).
Proof.
  intros Hn Hfuel. pose proof int_min_neg as Hmin.
  lazymatch goal with
  | |- while_loop _ ?cond ?body _ = _ =>
      destruct (while_loop_total
        (λ '(dataNew, ibNew),
           dataNew = Some (replicate (Z.to_nat n) None) ∧ 0 ≤ ibNew ≤ n)
        (λ '(_, ibNew), Z.to_nat (n - ibNew))
        cond body) with (fuel := fuel)
        (s := (Some (replicate (Z.to_nat n) (None : option (list (option T)))), 0))
        as ([dataNew ibNew] & Hrun & [-> Hi] & Hstop)
  end.
  - intros [dataNew ibNew] [-> Hi]. eexists. split; [done|].
    intros Hlt%Z.ltb_lt. cbn [ptr_set].
    assert (assign (replicate (Z.to_nat n) (None : option (list (option T)))) ibNew None
            = Ok (replicate (Z.to_nat n) None)) as ->.
    { apply assign_Ok. split; [lia|]. split.
      - apply lookup_lt_is_Some. rewrite length_replicate. lia.
      - by rewrite insert_replicate. }
    cbn [mbind result_bind]. eexists. split; [done|].
    rewrite to_int_small by lia. split; [split; [done | lia] | lia].
  - split; [done | lia].
  - rewrite Z.sub_0_r. done.
  - rewrite Hrun. injection Hstop as Hstop%Z.ltb_ge.
    by replace ibNew with n by lia.
Qed.

Lemma front_mod_cells f C :
  0 ≤ f ≤ int_max → 0 < C → to_int (to_size f mod C) = f mod C.
Proof.
  intros Hf HC. rewrite to_size_int by lia.
  pose proof (Z.mod_pos_bound f C HC). pose proof (Z.mod_le f C ltac:(lia) HC).
  apply to_int_small. pose proof int_min_neg. lia.
Qed.

(** What [reallocate] returns on a valid deque with no element or with
    more than one: the new array holds null pointers only. *)
Lemma Part0_reallocate_run d (nbn : Z) :
  valid d → 0 < nbn ≤ int_max → numElements d < nbn → numElements d ≠ 1 →
  Part0.reallocate d nbn
  = Ok (Deque (numCells d) nbn (numElements d) (iaFront d mod numCells d)
          (Some (replicate (Z.to_nat nbn) None))).
Proof.
  intros Hv Hnbn Hlt Hne. pose proof Hv as [Hc Hb Hti Hcount Hf Hsum Harr].
  pose proof (valid_size_max d Hv) as Hsz. pose proof int_min_neg as Hmin.
  unfold Part0.reallocate. rewrite (to_size_int nbn) by lia.
  destruct (Z.ltb_spec 0 nbn) as [_|?]; [|lia].
  destruct (Z.ltb_spec (numElements d) nbn) as [_|?]; [|lia].
  cbn [negb andb].
  (* the copy loop: its guard is false at entry *)
  rewrite for_loop_skip by (change (to_size 0) with 0; apply Z.ltb_ge; lia).
  cbn [mbind result_bind].
  rewrite reallocate_null_loop by lia. cbn [mbind result_bind].
  destruct (Z.ltb_spec 0 (numElements d)) as [Hpos|Hzero].
  - (* at least two elements: the first and the last slot differ *)
    assert (0 < total_cells d) as Htot by lia.
    rewrite back_index by done.
    rewrite !Part0_ibFromID_spec by lia. cbn [mbind result_bind].
    assert ((block_of d 0, cell_of d 0)
              ≠ (block_of d (numElements d - 1), cell_of d (numElements d - 1)))
      as Hslot.
    { intros Heq. apply slot_inj in Heq; lia. }
    destruct (Z.eqb_spec (block_of d 0) (block_of d (numElements d - 1)))
      as [Hb'|_].
    + rewrite !Part0_icFromID_spec by lia. cbn [mbind result_bind].
      destruct (Z.eqb_spec (cell_of d 0) (cell_of d (numElements d - 1)))
        as [Hc'|_]; [congruence|].
      cbn [mbind result_bind].
      destruct (Z.eqb_spec (numCells d) 0); [lia|].
      by rewrite front_mod_cells by lia.
    + cbn [mbind result_bind].
      destruct (Z.eqb_spec (numCells d) 0); [lia|].
      by rewrite front_mod_cells by lia.
  - cbn [mbind result_bind].
    destruct (Z.eqb_spec (numCells d) 0); [lia|].
    by rewrite front_mod_cells by lia.
Qed.
End Reallocate.

Section ReallocateSingle.
Context {T : Type} `{FromInt T}.
Implicit Types (d : deque T).

(** With exactly one element, front and back are the same slot and
    [reallocate] allocates one object, built from [numCells], in the block
    of index [numElements / numCells]. *)
Lemma Part0_reallocate_single d (nbn : Z) :
  valid d → 0 < nbn ≤ int_max → numElements d < nbn → numElements d = 1 →
  Part0.reallocate d nbn
  = Ok (Deque (numCells d) nbn 1 (iaFront d mod numCells d)
          (Some (<[Z.to_nat (1 / numCells d) :=
                     Some [Some (from_int (numCells d))]]>
                   (replicate (Z.to_nat nbn) None)))).
Proof.
  intros Hv Hnbn Hlt Hone. pose proof Hv as [Hc Hb Hti Hcount Hf Hsum Harr].
  pose proof (valid_size_max d Hv) as Hsz. pose proof int_min_neg as Hmin.
  assert (0 < total_cells d) as Htot by lia.
  assert (numCells d ≤ int_max) as Hcmax.
  { unfold total_cells in *. assert (1 ≤ numBlocks d) by nia. nia. }
  unfold Part0.reallocate. rewrite (to_size_int nbn) by lia.
  destruct (Z.ltb_spec 0 nbn) as [_|?]; [|lia].
  destruct (Z.ltb_spec (numElements d) nbn) as [_|?]; [|lia].
  cbn [negb andb].
  rewrite for_loop_skip by (change (to_size 0) with 0; apply Z.ltb_ge; lia).
  cbn [mbind result_bind].
  rewrite reallocate_null_loop by lia. cbn [mbind result_bind].
  rewrite back_index by (done || lia). rewrite Hone.
  change (1 - 1) with 0. change (0 <? 1) with true. cbn match.
  rewrite Part0_ibFromID_spec by lia. cbn [mbind result_bind].
  rewrite Z.eqb_refl.
  rewrite Part0_icFromID_spec by lia. cbn [mbind result_bind].
  rewrite Z.eqb_refl.
  destruct (Z.eqb_spec (numCells d) 0); [lia|].
  change (to_int 1) with 1. change (to_size 1) with 1.
  assert (0 ≤ 1 / numCells d ≤ 1) as Hq.
  { split; [apply Z.div_pos; lia|]. apply Z.div_le_upper_bound; lia. }
  rewrite (to_int_small (1 / numCells d)) by lia.
  rewrite (to_int_small (numCells d)) by lia.
  cbn [ptr_set].
  erewrite assign_of_subscript; cycle 1.
  { apply subscript_Ok. split; [lia|]. apply lookup_replicate_2. lia. }
  cbn [mbind result_bind].
  rewrite for_loop_skip; cycle 1.
  { apply Z.ltb_ge. destruct (block_cell_bounds d 0); lia. }
  cbn [mbind result_bind].
  by rewrite front_mod_cells by lia.
Qed.
End ReallocateSingle.

(** X4 (reallocate).  On a valid deque, [reallocate(numBlocksNew)] with
    [0 < numBlocksNew] and [numElements < numBlocksNew] returns; the new
    array has [numBlocksNew] entries and the front offset is reduced modulo
    [numCells], but no old block pointer is carried over: with no element
    or more than one the array is null throughout, and every logical index
    is then read through a null pointer; with exactly one element the only
    non-null entry is a fresh one-object block built from [numCells]. *)
Theorem X4_reallocate_keeps_no_block {T : Type} `{FromInt T}
    (d : deque T) (nbn : Z) :
  valid d → 0 < nbn ≤ int_max → numElements d < nbn →
  ∃ d', Part0.reallocate d nbn = Ok d' ∧
    numCells d' = numCells d ∧ numBlocks d' = nbn ∧
    numElements d' = numElements d ∧
    iaFront d' = iaFront d mod numCells d ∧
    (numElements d ≠ 1 →
       data d' = Some (replicate (Z.to_nat nbn) None) ∧
       ∀ i, 0 ≤ i < numElements d → Part0.at_ d' i = Fault NullDeref) ∧
    (numElements d = 1 →
       data d' = Some (<[Z.to_nat (1 / numCells d) :=
                          Some [Some (from_int (numCells d))]]>
                        (replicate (Z.to_nat nbn) None))).
Proof.
  intros Hv Hnbn Hlt. pose proof Hv as [Hc Hb Hti Hcount Hf Hsum Harr].
  pose proof int_min_neg as Hmin. pose proof int_max_lt_size_max as Hmax.
  destruct (decide (numElements d = 1)) as [Hone|Hne].
  - rewrite Part0_reallocate_single by done.
    eexists. split; [done|]. cbn. repeat split; try done; lia.
  - rewrite Part0_reallocate_run by done.
    eexists. split; [done|]. cbn [numCells numBlocks numElements iaFront data].
    do 4 (split; [done|]). split; [|done].
    intros _. split; [done|]. intros i Hi.
    set (d' := Deque _ _ _ _ _).
    assert (numCells d ≤ int_max) as Hcmax.
    { unfold total_cells in *. assert (1 ≤ numBlocks d) by nia. nia. }
    pose proof (Z.mod_pos_bound (iaFront d) (numCells d) Hc) as Hfm.
    pose proof (Z.mod_le (iaFront d) (numCells d) Hf Hc) as Hfle.
    assert (total_cells d' = nbn * numCells d) as Htot' by reflexivity.
    assert (0 < total_cells d' ≤ size_max) as Hbig.
    { rewrite Htot'. unfold int_max, size_max in *. nia. }
    unfold Part0.at_, Part0.operator_index.
    rewrite Part0_ibFromID_spec by (cbn; lia). cbn [mbind result_bind].
    rewrite Part0_icFromID_spec by (cbn; lia). cbn [mbind result_bind].
    destruct (block_cell_bounds d' i) as [Hbi _]; [done | lia |].
    cbn [numBlocks d'] in Hbi.
    unfold element_ref, cell_get. cbn [data d' ptr_get].
    assert (subscript (replicate (Z.to_nat nbn) (None : option (list (option T))))
              (block_of d' i) = Ok None) as ->; [|done].
    apply subscript_Ok. split; [lia|]. apply lookup_replicate_2. lia.
Qed.

Lemma X4_reallocate_keeps_no_block_witness :
  ∃ d', Part0.reallocate sample_pair 3 = Ok d' ∧ numBlocks d' = 3 ∧
        Part0.at_ d' 1 = Fault NullDeref.
Proof.
  destruct (X4_reallocate_keeps_no_block sample_pair 3)
    as (d' & Hrun & _ & HB & _ & _ & Hmany & _); [by vm_compute ..|].
  exists d'. split; [exact Hrun|]. split; [exact HB|].
  apply Hmany; by vm_compute.
Defined.

(** ** push_front *)

Lemma sample_flat_allocated : allocated sample_flat.
Proof. solve_allocated. Qed.

Section PushFrontFaults.
Context {T : Type} `{FromInt T}.
Implicit Types (d : deque T) (t : T).

(** After its first statement, [push_front] steps the front offset back by
    one cell, wrapping around the array, and assigns through the block
    pointer of that cell: a null pointer there stops it.  [d0] is the deque
    at entry, [d] the one that the first statement leaves. *)
Lemma push_front_null_front d0 d t :
  (if numElements d0 =? to_size (numBlocks d0 * numCells d0)
   then Part0.reallocate d0 (to_int (to_size (numBlocks d0 + 1)))
   else Ok d0) = Ok d →
  valid d → 0 < total_cells d →
  ptr_get (data d) (((iaFront d - 1) mod total_cells d) / numCells d) = Ok None →
  Part0.push_front d0 t = Fault NullDeref.
Proof.
  intros Hfirst Hv Htot Hnull. pose proof Hv as [Hc Hb Hti Hcount Hf Hsum Harr].
  pose proof (valid_size_max d Hv) as Hsz. pose proof int_min_neg as Hmin.
  unfold Part0.push_front. rewrite Hfirst. cbn [mbind result_bind].
  change (numBlocks d * numCells d) with (total_cells d).
  rewrite (to_size_small (total_cells d)) by lia.
  destruct (Z.eqb_spec (total_cells d) 0) as [?|_]; [lia|].
  rewrite front_decrement by lia.
  set (d1 := set_iaFront d ((iaFront d - 1) mod total_cells d)).
  pose proof (Z.mod_pos_bound (iaFront d - 1) (total_cells d) ltac:(lia)) as Hm.
  assert (total_cells d1 = total_cells d) as Htot1 by reflexivity.
  assert (block_of d1 0 = ((iaFront d - 1) mod total_cells d) / numCells d) as Hblk.
  { unfold block_of, abs_cell. rewrite Htot1. cbn [iaFront numCells d1 set_iaFront].
    by rewrite Z.add_0_r, Z.mod_mod by lia. }
  rewrite Part0_ibFromID_spec by (cbn; lia). cbn [mbind result_bind].
  rewrite Part0_icFromID_spec by (cbn; lia). cbn [mbind result_bind].
  unfold element_ref, cell_get. change (data d1) with (data d).
  by rewrite Hblk, Hnull.
Qed.

(** The first statement of [push_front] on a deque with room left. *)
Lemma push_front_room d :
  valid d → numElements d < total_cells d →
  (if numElements d =? to_size (numBlocks d * numCells d)
   then Part0.reallocate d (to_int (to_size (numBlocks d + 1)))
   else Ok d) = Ok d.
Proof.
  intros Hv Hroom. pose proof (valid_size_max d Hv) as Hsz. destruct Hv.
  change (numBlocks d * numCells d) with (total_cells d).
  rewrite (to_size_small (total_cells d)) by lia.
  by destruct (Z.eqb_spec (numElements d) (total_cells d)) as [?|_]; [lia|].
Qed.

(** Every block pointer of an unallocated array reads as null. *)
Lemma unallocated_ptr d ib :
  valid d → unallocated d → 0 ≤ ib < numBlocks d →
  ptr_get (data d) ib = Ok None.
Proof.
  intros [_ _ _ _ _ _ Harr] Hnull Hib. unfold unallocated in Hnull.
  destruct (data d) as [arr|]; [|lia]. cbn [ptr_get].
  destruct (lookup_lt_is_Some_2 arr (Z.to_nat ib)) as [p Hp]; [lia|].
  rewrite (Hnull p) in Hp by (by eapply list_elem_of_lookup_2).
  apply subscript_Ok. split; [lia | done].
Qed.

Lemma front_block_bounds d :
  0 < numCells d → 0 < total_cells d →
  0 ≤ ((iaFront d - 1) mod total_cells d) / numCells d < numBlocks d.
Proof.
  intros Hc Htot.
  pose proof (Z.mod_pos_bound (iaFront d - 1) (total_cells d) Htot) as Hm.
  unfold total_cells in *. split; [apply Z.div_pos; lia|].
  apply Z.div_lt_upper_bound; lia.
Qed.


End PushFrontFaults.



(** X6 (push_front on a full deque).  On every valid deque with at least
    one block, at least two cells per block and every cell taken,
    [push_front] stops at the assertion of [reallocate]: it asks for
    [numBlocks + 1] block pointers, and [reallocate] wants more block
    pointers than there are elements. *)
Theorem X6_push_front_full_asserts {T : Type} `{FromInt T}
    (d : deque T) (t : T) :
  valid d → 0 < numBlocks d → 2 ≤ numCells d →
  numElements d = total_cells d →
  Part0.push_front d t = Fault AssertFailed ∧
  Part0.push_front_move d t = Fault AssertFailed ∧
  Part0.reallocate d (numBlocks d + 1) = Fault AssertFailed.
Proof.
  intros Hv HB HC Hfull. pose proof Hv as [Hc Hb Hti Hcount Hf Hsum Harr].
  pose proof (valid_size_max d Hv) as Hsz. pose proof int_min_neg as Hmin.
  pose proof int_max_lt_size_max as Hmax.
  assert (numBlocks d + 1 ≤ numElements d) as Hle
    by (rewrite Hfull; unfold total_cells; nia).
  assert (Part0.reallocate d (numBlocks d + 1) = Fault AssertFailed) as Hre.
  { unfold Part0.reallocate. rewrite (to_size_small (numBlocks d + 1)) by lia.
    destruct (Z.ltb_spec 0 (numBlocks d + 1)) as [_|?]; [|lia].
    destruct (Z.ltb_spec (numElements d) (numBlocks d + 1)) as [?|_]; [lia|].
    done. }
  assert (Part0.push_front d t = Fault AssertFailed) as Hpush.
  { unfold Part0.push_front.
    change (numBlocks d * numCells d) with (total_cells d).
    rewrite (to_size_small (total_cells d)) by lia.
    rewrite Hfull at 1. rewrite Z.eqb_refl.
    rewrite (to_size_small (numBlocks d + 1)), to_int_small by lia.
    by rewrite Hre. }
  done.
Qed.

Lemma X6_push_front_full_asserts_witness :
  Part0.push_front sample_full 5 = Fault AssertFailed.
Proof.
  destruct (X6_push_front_full_asserts sample_full 5) as [Hrun _];
    [solve_valid | by vm_compute ..| exact Hrun].
Defined.

(** X7 (push_front into a free cell).  On a valid deque whose blocks are
    all allocated, which holds the sequence [l] and has a free cell (and at
    most half of [int]'s range of cells), [push_front(v)], in both
    overloads, returns a valid deque of the same geometry and storage
    layout that holds [v] followed by [l]: [front()] reads [v], [size()]
    has grown by one, the front offset has stepped back by one cell modulo
    the number of cells, and a traversal from [begin()] to [end()] visits
    [v] and then [l]. *)
Theorem X7_push_front_prepends {T : Type} `{FromInt T}
    (d : deque T) (v : T) (l : list T) :
  valid d → allocated d → represents Part0.at_ d l →
  numElements d < total_cells d → 2 * total_cells d ≤ int_max →
  ∃ d', Part0.push_front d v = Ok d' ∧ Part0.push_front_move d v = Ok d' ∧
    valid d' ∧ allocated d' ∧ represents Part0.at_ d' (v :: l) ∧
    Part0.front_value d' = Ok v ∧ size d' = size d + 1 ∧
    numCells d' = numCells d ∧ numBlocks d' = numBlocks d ∧
    iaFront d' = (iaFront d - 1) mod total_cells d ∧
    ∀ fuel, (S (length l) < fuel)%nat →
      traverse_from Part0.end_ Part0.deref fuel d' (Part0.begin d')
        = Ok (v :: l).
Proof.
  intros Hv Ha Hl Hroom Hhalf.
  destruct (Part0_push_front_spec d v l Hv Ha Hl Hroom Hhalf)
    as (d' & Hrun & Hv' & Ha' & Hl' & HC & HB & HN & Hfront).
  exists d'. do 5 (split; [done|]).
  split; [exact (proj2 Hl' 0%nat v eq_refl)|].
  split; [exact HN|]. do 3 (split; [done|]).
  intros fuel Hfuel.
  apply (traverse_from_begin Part0.operator_index); try done.
  destruct Hv' as [_ _ Hti' [_ Hcnt'] _ _ _]. lia.
Qed.

Lemma X7_push_front_prepends_witness :
  ∃ d', Part0.push_front sample_flat 5 = Ok d' ∧
        represents Part0.at_ d' [5; 10; 20; 30] ∧ iaFront d' = 0.
Proof.
  destruct (X7_push_front_prepends sample_flat 5 [10; 20; 30]
              sample_flat_valid sample_flat_allocated sample_flat_represents)
    as (d' & Hrun & _ & _ & _ & Hl & _ & _ & _ & _ & Hf & _);
    [by vm_compute ..|].
  exists d'. split; [exact Hrun|]. split; [exact Hl | exact Hf].
Defined.

(** ** pop_front *)

Section PopFrontLast.
Context {T : Type} `{FromInt T}.
Implicit Types (d : deque T) (t : T).

(** Every block pointer of an allocated array is set. *)
Lemma allocated_ptr d ib :
  valid d → allocated d → 0 ≤ ib < numBlocks d →
  ∃ blk, ptr_get (data d) ib = Ok (Some blk).
Proof.
  intros Hv Ha Hib. pose proof Hv as [Hc _ _ _ _ _ _].
  destruct (allocated_slot d ib 0 Hv Ha Hib ltac:(lia)) as [c Hget].
  apply cell_get_Ok in Hget as (blk & Hp & _). eauto.
Qed.

(** What [pop_front()] computes on the only element of a valid, fully
    allocated deque: the slot is destroyed, the front offset is reset to 0
    and the pointer of the block found there (block 0) is dropped, and then
    the offset is advanced. *)
Lemma Part0_pop_front_last_run d :
  valid d → allocated d → numElements d = 1 →
  ∃ data1 data2,
    cell_set (data d) (block_of d 0) (cell_of d 0) None = Ok data1 ∧
    ptr_set data1 0 None = Ok data2 ∧
    Part0.pop_front d
    = Ok (Deque (numCells d) (numBlocks d) 0
            (if numBlocks d =? 1 then 1 mod numCells d else 1) data2).
Proof.
  intros Hv Ha Hn. pose proof Hv as [Hc Hb Hti Hcount Hf Hsum Harr].
  pose proof (valid_size_max d Hv) as Hsz.
  pose proof int_min_neg as Hmin. pose proof int_max_pos as Hmax.
  assert (0 < total_cells d) as Htot by lia.
  destruct (block_cell_bounds d 0) as [Hb0 Hc0]; [done..|].
  destruct (allocated_slot d _ _ Hv Ha Hb0 Hc0) as [c Hget].
  destruct (cell_set_of_get _ _ _ None _ Hget) as [data1 Hset].
  exists data1.
  set (d1 := set_data d data1).
  assert (valid d1) as Hv1 by (by eapply cell_set_valid).
  assert (∃ data2, ptr_set data1 0 None = Ok data2) as [data2 Hrel].
  { destruct Hv1 as [_ _ _ _ _ _ Harr1].
    cbn [data numBlocks d1 set_data] in Harr1.
    destruct data1 as [arr1|]; [|unfold total_cells in *; nia].
    destruct (lookup_lt_is_Some_2 arr1 0%nat) as [p Hp];
      [unfold total_cells in *; nia|].
    apply (ptr_set_of_get _ _ _ p). cbn [ptr_get]. by apply subscript_Ok. }
  exists data2. split; [done|]. split; [done|].
  unfold Part0.pop_front.
  destruct (Z.ltb_spec 0 (numElements d)) as [_|?]; [cbn [negb] | lia].
  rewrite Part0_ibFromID_spec by lia. cbn [mbind result_bind].
  rewrite Part0_icFromID_spec by lia. cbn [mbind result_bind].
  unfold element_ref. rewrite Hget. cbn [mbind result_bind].
  unfold destroy. cbn [fst snd]. rewrite Hset. cbn [mbind result_bind].
  fold d1.
  pose proof (cell_set_get_eq _ _ _ _ _ Hset) as Hget1.
  apply cell_get_Ok in Hget1 as (blk1 & Hp1 & _).
  rewrite (block_scan_loop d1 blk1); [|done|done|done|cbn; lia].
  cbn [mbind result_bind].
  change (numElements d1) with (numElements d).
  change (numBlocks d1) with (numBlocks d).
  destruct (Z.eqb_spec (numElements d) 1) as [_|?]; [|lia].
  set (d2 := set_iaFront d1 0).
  assert (Part0.ibFromID d2 0 = Ok 0) as ->.
  { rewrite Part0_ibFromID_spec by (done || cbn; lia).
    unfold block_of, abs_cell. cbn [iaFront d2 set_iaFront].
    change (0 + 0) with 0.
    rewrite Z.mod_0_l, Z.div_0_l by (unfold total_cells in *; cbn; lia).
    done. }
  cbn [mbind result_bind]. change (data d2) with data1. rewrite Hrel.
  cbn [mbind result_bind]. unfold d2, d1.
  cbn [numBlocks numCells iaFront numElements set_data set_iaFront].
  change (0 + 1) with 1. change (to_int 1) with 1. change (to_size 1) with 1.
  destruct (Z.eqb_spec (numBlocks d) 1) as [Hb1|Hb1].
  - destruct (Z.eqb_spec (numCells d) 0) as [?|_]; [lia|].
    pose proof (Z.mod_pos_bound 1 (numCells d) Hc).
    pose proof (Z.mod_le 1 (numCells d) ltac:(lia) Hc).
    rewrite to_int_small by lia. cbn. rewrite Hn. done.
  - cbn. rewrite Hn. done.
Qed.
End PopFrontLast.

(** X8 (pop_front with more than one element).  On a valid deque whose
    blocks are all allocated and which holds [x] followed by a non-empty
    [l], [front()] reads [x] and [pop_front()] returns a valid deque of the
    same geometry, with all blocks still allocated, that holds [l]; the
    front offset becomes [(iaFront + 1) mod numCells] when there is one
    block and [iaFront + 1], without wrapping, when there are more. *)
Theorem X8_pop_front_drops_head {T : Type} `{FromInt T}
    (d : deque T) (x : T) (l : list T) :
  valid d → allocated d → represents Part0.at_ d (x :: l) → l ≠ [] →
  Part0.front_value d = Ok x ∧
  ∃ d', Part0.pop_front d = Ok d' ∧
    valid d' ∧ allocated d' ∧ represents Part0.at_ d' l ∧
    size d' = size d - 1 ∧
    numCells d' = numCells d ∧ numBlocks d' = numBlocks d ∧
    iaFront d' = (if numBlocks d =? 1 then (iaFront d + 1) mod numCells d
                  else iaFront d + 1).
Proof.
  intros Hv Ha Hl Hne.
  split; [exact (proj2 Hl 0%nat x eq_refl)|].
  destruct (Part0_pop_front_spec d x l Hv Ha Hl Hne)
    as (d' & Hrun & Hv' & Ha' & Hl').
  assert (1 < numElements d) as Hn.
  { destruct Hl as [Hlen _]. destruct l; [done | cbn in Hlen; lia]. }
  destruct (Part0_pop_front_run d Hv Ha ltac:(lia))
    as (data1 & d'' & _ & Hrun' & HC & HB & HN & Hrest).
  rewrite Hrun in Hrun'. injection Hrun' as <-.
  destruct (Hrest Hn) as [_ Hfront].
  exists d'. unfold size. done.
Qed.

Lemma X8_pop_front_drops_head_witness :
  Part0.front_value sample_flat = Ok 10 ∧
  ∃ d', Part0.pop_front sample_flat = Ok d' ∧
        represents Part0.at_ d' [20; 30] ∧ iaFront d' = 2.
Proof.
  destruct (X8_pop_front_drops_head sample_flat 10 [20; 30]
              sample_flat_valid sample_flat_allocated sample_flat_represents)
    as (Hfront & d' & Hrun & _ & _ & Hl & _ & _ & _ & Hf); [done|].
  split; [exact Hfront|].
  exists d'. split; [exact Hrun|]. split; [exact Hl | exact Hf].
Defined.

(** X9 (pop_front on the only element).  On a valid deque whose blocks are
    all allocated and which holds one element, wherever it lies,
    [pop_front()] returns a valid empty deque of the same geometry whose
    front offset is 1 (reduced modulo [numCells] when there is one block)
    and whose block 0 pointer is null, while every other block pointer
    stays set; a [push_front] that follows steps the front back to cell 0
    and so always assigns through that null pointer. *)
Theorem X9_pop_front_last_drops_block_zero {T : Type} `{FromInt T}
    (d : deque T) :
  valid d → allocated d → numElements d = 1 →
  ∃ d', Part0.pop_front d = Ok d' ∧ valid d' ∧
    numElements d' = 0 ∧ numCells d' = numCells d ∧
    numBlocks d' = numBlocks d ∧
    iaFront d' = (if numBlocks d =? 1 then 1 mod numCells d else 1) ∧
    ptr_get (data d') 0 = Ok None ∧
    (∀ ib, 0 < ib < numBlocks d → ∃ blk, ptr_get (data d') ib = Ok (Some blk)) ∧
    ∀ t, Part0.push_front d' t = Fault NullDeref.
Proof.
  intros Hv Ha Hn. pose proof Hv as [Hc Hb Hti Hcount Hf Hsum Harr].
  pose proof int_max_pos as Hmax.
  assert (0 < total_cells d) as Htot by lia.
  assert (1 ≤ numBlocks d) as HB1 by (unfold total_cells in *; nia).
  destruct (Part0_pop_front_last_run d Hv Ha Hn)
    as (data1 & data2 & Hset & Hrel & Hrun).
  set (f' := if numBlocks d =? 1 then 1 mod numCells d else 1) in *.
  set (d' := Deque (numCells d) (numBlocks d) 0 f' data2) in *.
  assert (0 ≤ f' ≤ 1) as Hf'.
  { unfold f'. destruct (numBlocks d =? 1); [|lia].
    pose proof (Z.mod_pos_bound 1 (numCells d) Hc).
    pose proof (Z.mod_le 1 (numCells d) ltac:(lia) Hc). lia. }
  assert (total_cells d' = total_cells d) as Htot' by reflexivity.
  assert (valid d') as Hv'.
  { pose proof (cell_set_valid d _ _ _ _ Hv Hset) as [_ _ _ _ _ _ Harr1].
    cbn [data numBlocks set_data] in Harr1.
    pose proof (ptr_set_length _ _ _ _ Hrel) as Hlen.
    split; rewrite ?Htot'; cbn [d' numCells numBlocks numElements iaFront data];
      try done; try lia.
    destruct data1, data2; cbn in *; congruence. }
  assert (ptr_get (data d') 0 = Ok None) as Hzero
    by (by eapply ptr_set_get_eq).
  exists d'. do 6 (split; [done|]). split; [exact Hzero|]. split.
  - intros ib Hib. cbn [data d'].
    erewrite ptr_set_get_ne; [| done | lia].
    apply (allocated_ptr (set_data d data1));
      [by eapply cell_set_valid | by eapply cell_set_allocated | cbn; lia].
  - intros t.
    apply (push_front_null_front d' d');
      [apply push_front_room; [done | rewrite Htot'; cbn; lia]
      | done | lia |].
    rewrite Htot'. cbn [iaFront numCells d'].
    assert ((f' - 1) mod total_cells d = 0) as ->; [|by rewrite Z.div_0_l by lia].
    unfold f'. destruct (Z.eqb_spec (numBlocks d) 1) as [HB|HB].
    + replace (total_cells d) with (numCells d)
        by (unfold total_cells; rewrite HB; lia).
      rewrite Zminus_mod_idemp_l. change (1 - 1) with 0.
      apply Z.mod_0_l. lia.
    + change (1 - 1) with 0. apply Z.mod_0_l. lia.
Qed.

Lemma X9_pop_front_last_drops_block_zero_witness :
  ∃ d', Part0.pop_front (Deque 4 2 1 5
          (Some [Some [None; None; None; None];
                 Some [None; Some 8; None; None]])) = Ok d' ∧
        iaFront d' = 1 ∧ ptr_get (data d') 0 = Ok None ∧
        Part0.push_front d' 3 = Fault NullDeref.
Proof.
  destruct (X9_pop_front_last_drops_block_zero
              (Deque 4 2 1 5
                 (Some [Some [None; None; None; None];
                        Some [None; Some 8; None; None]])))
    as (d' & Hrun & _ & _ & _ & _ & Hf & Hz & _ & Hpush);
    [solve_valid | solve_allocated | reflexivity |].
  exists d'. split; [exact Hrun|]. split; [exact Hf|].
  split; [exact Hz | exact (Hpush 3)].
Defined.

(** X10 (push_front, then pop_front).  On a valid deque whose blocks are
    all allocated, which holds [l] and has a free cell, [push_front(v)]
    followed by [pop_front()] returns and leaves a deque that again holds
    [l], with the geometry unchanged; unless [l] is empty the result is
    valid with all blocks allocated. *)
Theorem X10_push_pop_front {T : Type} `{FromInt T}
    (d : deque T) (v : T) (l : list T) :
  valid d → allocated d → represents Part0.at_ d l →
  numElements d < total_cells d → 2 * total_cells d ≤ int_max →
  ∃ d1 d2, Part0.push_front d v = Ok d1 ∧ Part0.front_value d1 = Ok v ∧
    Part0.pop_front d1 = Ok d2 ∧ represents Part0.at_ d2 l ∧
    numCells d2 = numCells d ∧ numBlocks d2 = numBlocks d ∧
    size d2 = size d ∧
    (l ≠ [] → valid d2 ∧ allocated d2).
Proof.
  intros Hv Ha Hl Hroom Hhalf.
  destruct (Part0_push_front_spec d v l Hv Ha Hl Hroom Hhalf)
    as (d1 & Hpush & Hv1 & Ha1 & Hl1 & HC1 & HB1 & HN1 & _).
  exists d1.
  destruct (Part0_pop_front_run d1 Hv1 Ha1)
    as (data1 & d2 & _ & Hpop & HC2 & HB2 & HN2 & _).
  { destruct Hv as [_ _ _ [? _] _ _ _]. lia. }
  exists d2. split; [done|].
  split; [exact (proj2 Hl1 0%nat v eq_refl)|]. split; [done|].
  assert (numElements d2 = numElements d) as HN by lia.
  destruct l as [|y l].
  - split; [|by rewrite HC2, HB2].
    split; [rewrite HN; by destruct Hl | by intros [|?] ?].
  - destruct (Part0_pop_front_spec d1 v (y :: l) Hv1 Ha1 Hl1 ltac:(done))
      as (d2' & Hpop' & Hv2 & Ha2 & Hl2).
    rewrite Hpop in Hpop'. injection Hpop' as <-.
    split; [done|]. by rewrite HC2, HB2.
Qed.

Lemma X10_push_pop_front_witness :
  ∃ d1 d2, Part0.push_front sample_flat 5 = Ok d1 ∧
           Part0.pop_front d1 = Ok d2 ∧
           represents Part0.at_ d2 [10; 20; 30].
Proof.
  destruct (X10_push_pop_front sample_flat 5 [10; 20; 30]
              sample_flat_valid sample_flat_allocated sample_flat_represents)
    as (d1 & d2 & Hpush & _ & Hpop & Hl & _); [by vm_compute ..|].
  exists d1, d2. split; [exact Hpush|]. split; [exact Hpop | exact Hl].
Defined.

(** X11 (reading from the front until empty).  On a valid deque whose
    blocks are all allocated and which holds [l], reading [front()] and
    calling [pop_front()] [size()] times returns every time, yields [l] in
    order and leaves the deque empty. *)
Theorem X11_drain_front {T : Type} `{FromInt T} (d : deque T) (l : list T) :
  valid d → allocated d → represents Part0.at_ d l →
  ∃ d', drain Part0.front Part0.pop_front (length l) d = Ok (l, d') ∧
    size d' = 0 ∧ empty d' = true.
Proof.
  intros Hv Ha Hl.
  destruct (drain_front_spec l d Hv Ha Hl) as (d' & Hrun & Hn).
  exists d'. unfold size, empty. by rewrite Hn.
Qed.

Lemma X11_drain_front_witness :
  ∃ d', drain Part0.front Part0.pop_front 3 sample_flat = Ok ([10; 20; 30], d') ∧
        size d' = 0.
Proof.
  destruct (X11_drain_front sample_flat [10; 20; 30]
              sample_flat_valid sample_flat_allocated sample_flat_represents)
    as (d' & Hrun & Hn & _).
  exists d'. split; [exact Hrun | exact Hn].
Defined.

(** ** pop_back on a sequence *)

Section PopBackValid.
Context {T : Type}.
Implicit Types (d : deque T) (l : list T).

Lemma valid_same_layout d d' :
  valid d → numCells d' = numCells d → numBlocks d' = numBlocks d →
  iaFront d' = iaFront d → 0 ≤ numElements d' ≤ numElements d →
  length <$> data d' = length <$> data d → valid d'.
Proof.
  intros [Hc Hb Hti Hcount Hf Hsum Harr] HC HB HF HN HD.
  assert (total_cells d' = total_cells d) as Htot
    by (unfold total_cells; by rewrite HC, HB).
  split; rewrite ?Htot, ?HC, ?HB, ?HF; try done; try lia.
  destruct (data d), (data d'); cbn in HD; try done; congruence.
Qed.

(** [pop_back()] of part_000 keeps a valid state valid: it writes one slot
    and at most one block pointer, both inside the arrays. *)
Lemma Part0_pop_back_valid d d' :
  valid d → Part0.pop_back d = Ok d' → valid d'.
Proof.
  intros Hv Hrun. pose proof Hv as [Hc Hb Hti Hcount Hf Hsum Harr].
  pose proof int_max_lt_size_max as Hmax.
  unfold Part0.pop_back in Hrun.
  destruct (Z.ltb_spec 0 (numElements d)) as [Hn|_]; cbn [negb] in Hrun; [|done].
  bind_inv Hrun. injection Hrun as <-. clear E3.
  apply cell_set_shape in E2 as [_ Hlen2].
  assert (numCells a4 = numCells d ∧ numBlocks a4 = numBlocks d ∧
          iaFront a4 = iaFront d ∧ numElements a4 = numElements d ∧
          length <$> data a4 = length <$> data d) as (HC & HB & HF & HN & HD).
  { destruct a3.
    - bind_inv E4. injection E4 as <-. cbn.
      apply ptr_set_length in E3. cbn in E3. by rewrite E3.
    - by injection E4 as <-. }
  apply (valid_same_layout d); cbn; rewrite ?HN; try done.
  rewrite to_size_small; lia.
Qed.

Lemma DequeH_pop_back_valid d d' :
  valid d → DequeH.pop_back d = Ok d' → valid d'.
Proof.
  intros Hv Hrun. pose proof Hv as [Hc Hb Hti Hcount Hf Hsum Harr].
  pose proof int_max_lt_size_max as Hmax.
  unfold DequeH.pop_back in Hrun.
  destruct (Z.ltb_spec 0 (numElements d)) as [Hn|_]; cbn [negb] in Hrun; [|done].
  bind_inv Hrun. injection Hrun as <-.
  apply cell_set_shape in E2 as [_ Hlen2].
  apply (valid_same_layout d); cbn; try done.
  rewrite to_size_small; lia.
Qed.
End PopBackValid.

Section BackSequence.
Context {T : Type}.
Variable index : deque T → Z → result (Z * Z).
Variable back : deque T → result (Z * Z).
Variable pop_back : deque T → result (deque T).
Hypothesis back_spec : ∀ d, back d = index d (to_int (numElements d - 1)).
Hypothesis pop_back_frame : ∀ d,
  valid d → 0 < numElements d → is_ok (back d) →
  ∃ d', pop_back d = Ok d' ∧ numElements d' = numElements d - 1 ∧
    ∀ i, 0 ≤ i < numElements d - 1 → value_at index d' i = value_at index d i.
Hypothesis pop_back_valid : ∀ d d', valid d → pop_back d = Ok d' → valid d'.
Implicit Types (d : deque T) (l : list T).

(** Popping at the back removes the last element of the sequence. *)
Lemma pop_back_sequence d l x :
  valid d → represents (value_at index) d (l ++ [x]) →
  (r ← back d; load (data d) r) = Ok x ∧
  ∃ d', pop_back d = Ok d' ∧ valid d' ∧ represents (value_at index) d' l.
Proof.
  intros Hv [Hlen Hl]. pose proof Hv as [Hc Hb Hti Hcount Hf Hsum Harr].
  rewrite length_app in Hlen. cbn [length] in Hlen.
  assert (to_int (numElements d - 1) = Z.of_nat (length l)) as Hlast.
  { rewrite to_int_small by (pose proof int_min_neg; lia). lia. }
  assert (value_at index d (Z.of_nat (length l)) = Ok x) as Hx.
  { apply Hl. by rewrite lookup_app_r, Nat.sub_diag by lia. }
  assert ((r ← back d; load (data d) r) = Ok x) as Hback
    by (by rewrite back_spec, Hlast).
  split; [done|].
  destruct (pop_back_frame d Hv ltac:(lia)) as (d' & Hrun & HN & Hrest).
  { by destruct (back d). }
  exists d'. split; [done|]. split; [by eapply pop_back_valid|].
  split; [lia|].
  intros k v Hk. pose proof (lookup_lt_Some _ _ _ Hk) as Hklt.
  rewrite Hrest by lia. apply Hl. by rewrite lookup_app_l.
Qed.

End BackSequence.

Section BackFrames.
Context {T : Type}.
Implicit Types (d : deque T).

Lemma Part0_pop_back_frame d :
  valid d → 0 < numElements d → is_ok (Part0.back d) →
  ∃ d', Part0.pop_back d = Ok d' ∧ numElements d' = numElements d - 1 ∧
    ∀ i, 0 ≤ i < numElements d - 1 →
      value_at Part0.operator_index d' i = value_at Part0.operator_index d i.
Proof.
  intros Hv Hn Hback.
  destruct (Part0_pop_back_spec d Hv Hn Hback)
    as (d' & Hrun & _ & _ & _ & HN & _ & Hrest).
  exists d'. split; [done|]. split; [done|]. exact Hrest.
Qed.

End BackFrames.





(** X14 (push_front, then pop_back).  On a valid deque whose blocks are all
    allocated, which holds [l] and has a free cell, after [push_front(v)]
    the deque holds [v :: l]; writing that sequence as [l'] followed by
    [y], [back()] reads [y] and [pop_back()] leaves a valid deque that holds
    [l'].  With [l] empty the value pushed at the front is the one read and
    removed at the back. *)
Theorem X14_push_front_pop_back {T : Type} `{FromInt T}
    (d : deque T) (v y : T) (l l' : list T) :
  valid d → allocated d → represents Part0.at_ d l →
  numElements d < total_cells d → 2 * total_cells d ≤ int_max →
  v :: l = l' ++ [y] →
  ∃ d1 d2, Part0.push_front d v = Ok d1 ∧ Part0.back_value d1 = Ok y ∧
    Part0.pop_back d1 = Ok d2 ∧ valid d2 ∧ represents Part0.at_ d2 l' ∧
    size d2 = size d.
Proof.
  intros Hv Ha Hl Hroom Hhalf Hsplit.
  destruct (Part0_push_front_spec d v l Hv Ha Hl Hroom Hhalf)
    as (d1 & Hpush & Hv1 & _ & Hl1 & _ & _ & HN1 & _).
  rewrite Hsplit in Hl1.
  destruct (pop_back_sequence Part0.operator_index Part0.back Part0.pop_back
              Part0_back_index Part0_pop_back_frame Part0_pop_back_valid
              d1 l' y Hv1 Hl1) as (Hback & d2 & Hpop & Hv2 & Hl2).
  exists d1, d2. do 5 (split; [done|]).
  destruct Hl as [Hlen _], Hl2 as [Hlen2 _]. unfold size.
  apply (f_equal length) in Hsplit. rewrite length_app in Hsplit.
  cbn [length] in Hsplit. lia.
Qed.

Lemma X14_push_front_pop_back_witness :
  ∃ d1 d2, Part0.push_front sample_empty 7 = Ok d1 ∧
           Part0.back_value d1 = Ok 7 ∧ Part0.pop_back d1 = Ok d2 ∧
           size d2 = 0.
Proof.
  destruct (X14_push_front_pop_back sample_empty 7 7 [] []
              sample_empty_valid sample_empty_allocated)
    as (d1 & d2 & Hpush & Hback & Hpop & _ & _ & Hn);
    [split; [reflexivity | by intros [|?] ?] | by vm_compute ..|].
  exists d1, d2. split; [exact Hpush|]. split; [exact Hback|].
  split; [exact Hpop | exact Hn].
Defined.

(** ** Copy assignment of part_000 *)

Section AssignOp.
Context {T : Type}.
Implicit Types (lhs rhs : deque T) (lr : list T).

(** The copy assignment of part_000 on two distinct valid deques: the
    first loop overwrites the leading [min(size, rhs.size)] elements of the
    target in place, the second only forms references into [rhs]
    ([push_back] has no body), and then the count and the front offset of
    [rhs] are taken over.  No block is allocated and the geometry of the
    target stays. *)
Lemma Part0_assign_op_run lhs rhs lr :
  valid lhs → valid rhs → live_slots lhs → represents Part0.at_ rhs lr →
  ∃ data',
    Part0.assign_op lhs rhs
    = Ok (Deque (numCells lhs) (numBlocks lhs) (numElements rhs)
            (iaFront rhs) data') ∧
    same_shape (data lhs) data' ∧
    (∀ (k : nat) v, lr !! k = Some v → Z.of_nat k < numElements lhs →
       cell_get data' (block_of lhs (Z.of_nat k)) (cell_of lhs (Z.of_nat k))
       = Ok (Some v)) ∧
    (∀ i, Z.min (numElements lhs) (numElements rhs) ≤ i < total_cells lhs →
       cell_get data' (block_of lhs i) (cell_of lhs i)
       = cell_get (data lhs) (block_of lhs i) (cell_of lhs i)) ∧
    (numElements lhs = 0 → data' = data lhs).
Proof.
  intros Hvl Hvr Hlive [Hlen Hacc].
  pose proof Hvl as [Hc Hb Hti Hcount Hf Hsum Harr].
  pose proof Hvr as [Hc' Hb' Hti' Hcount' Hf' Hsum' Harr'].
  pose proof (valid_size_max lhs Hvl) as Hsz.
  pose proof int_min_neg as Hmin.
  set (nl := numElements lhs) in *. set (nr := numElements rhs) in *.
  assert (Hsrc : ∀ k, 0 ≤ k < nr →
            ∃ r v, Part0.operator_index rhs k = Ok r ∧
                   load (data rhs) r = Ok v ∧ lr !! Z.to_nat k = Some v).
  { intros k Hk.
    destruct (lookup_lt_is_Some_2 lr (Z.to_nat k)) as [v Hv]; [lia|].
    pose proof (Hacc _ _ Hv) as Hat. rewrite Z2Nat.id in Hat by lia.
    unfold Part0.at_ in Hat.
    destruct (Part0.operator_index rhs k) as [r|]; [|done].
    cbn in Hat. eauto. }
  assert (Hdst : ∀ k data_k, 0 ≤ k < nl → same_shape (data lhs) data_k →
            Part0.operator_index (set_data lhs data_k) k
              = Ok (block_of lhs k, cell_of lhs k) ∧
            ∃ c, cell_get data_k (block_of lhs k) (cell_of lhs k) = Ok c).
  { intros k data_k Hk [Hshape _]. specialize (Hlive k Hk).
    rewrite operator_index_spec in Hlive by (done || lia).
    unfold element_ref in Hlive.
    specialize (Hshape (block_of lhs k) (cell_of lhs k)).
    destruct (cell_get (data lhs) _ _) as [c0|]; [|done].
    specialize (Hshape I).
    destruct (cell_get data_k _ _) as [c|] eqn:Hg; [|done].
    split; [|eauto]. unfold Part0.operator_index.
    change (Part0.ibFromID (set_data lhs data_k) k) with (Part0.ibFromID lhs k).
    change (Part0.icFromID (set_data lhs data_k) k) with (Part0.icFromID lhs k).
    rewrite Part0_ibFromID_spec, Part0_icFromID_spec by lia.
    cbn [mbind result_bind]. unfold element_ref. cbn [data set_data].
    by rewrite Hg. }
  unfold Part0.assign_op. fold nr.
  (* the first loop *)
  lazymatch goal with
  | |- context [while_loop _ ?cond ?body (Part0.begin lhs, Part0.begin rhs, lhs)] =>
      destruct (while_loop_total
        (λ '(itL, itR, s),
           ∃ k data_k, itL = Iterator k ∧ itR = Iterator k ∧
             s = set_data lhs data_k ∧ 0 ≤ k ≤ Z.min nl nr ∧
             same_shape (data lhs) data_k ∧
             (∀ (j : nat) v, lr !! j = Some v → Z.of_nat j < k →
                cell_get data_k (block_of lhs (Z.of_nat j))
                  (cell_of lhs (Z.of_nat j)) = Ok (Some v)) ∧
             (∀ i, k ≤ i < total_cells lhs →
                cell_get data_k (block_of lhs i) (cell_of lhs i)
                = cell_get (data lhs) (block_of lhs i) (cell_of lhs i)) ∧
             (k = 0 → data_k = data lhs))
        (λ '(itL, _, _), Z.to_nat (Z.min nl nr - it_id itL))
        cond body)
        with (fuel := S (Z.to_nat nr))
             (s := (Part0.begin lhs, Part0.begin rhs, lhs))
        as ([[itL itR] s1] & Hrun1 & HI1 & Hstop1)
  end.
  - intros [[itL itR] s] (k & data_k & -> & -> & -> & Hk & Hshape & Hvals & Hrest & Hzero).
    eexists. split; [done|].
    unfold Part0.end_, it_ne. cbn [it_id numElements set_data]. fold nl nr.
    rewrite !to_int_small by lia.
    intros Hcond%andb_prop. destruct Hcond as [HkL%negb_true_iff%Z.eqb_neq
                                                HkR%negb_true_iff%Z.eqb_neq].
    unfold Part0.deref. cbn [it_id].
    destruct (Hsrc k ltac:(lia)) as (r & v & -> & Hload & Hv).
    cbn [mbind result_bind].
    destruct (Hdst k data_k ltac:(lia) Hshape) as [-> [c Hget]].
    cbn [mbind result_bind]. rewrite Hload. cbn [mbind result_bind].
    unfold store. cbn [fst snd data set_data].
    destruct (cell_set_of_get _ _ _ (Some v) _ Hget) as [data1 Hset].
    rewrite Hset. cbn [mbind result_bind].
    eexists. split; [done|].
    unfold it_incr. cbn [it_id]. rewrite to_int_small by lia.
    split; [|cbn [it_id]; lia].
    exists (k + 1), data1. do 3 (split; [done|]). split; [lia|].
    assert (0 < total_cells lhs) as Htot by lia.
    split; [eapply same_shape_trans; [done | by eapply cell_set_shape]|].
    split; [|split; [|lia]].
    + intros j w Hj Hjk. destruct (decide (Z.of_nat j = k)) as [Heq|Hne].
      * rewrite Heq. rewrite <- Heq, Nat2Z.id in Hv.
        rewrite Hj in Hv. injection Hv as ->.
        by eapply cell_set_get_eq.
      * erewrite cell_set_get_ne; [apply Hvals; [done | lia] | done |].
        intros Heq. apply slot_inj in Heq; lia.
    + intros i Hi. erewrite cell_set_get_ne; [apply Hrest; lia | done |].
      intros Heq. apply slot_inj in Heq; lia.
  - exists 0, (data lhs). unfold Part0.begin. split; [done|]. split; [done|].
    split; [by destruct lhs|]. split; [lia|].
    split; [apply same_shape_refl|]. split; [intros; lia|]. done.
  - cbn [it_id Part0.begin]. lia.
  - destruct HI1 as (k & data_k & -> & -> & -> & Hk & Hshape & Hvals & Hrest & Hzero).
    rewrite Hrun1. cbn [mbind result_bind].
    unfold Part0.end_, it_ne in Hstop1. cbn [it_id numElements set_data] in Hstop1.
    fold nl nr in Hstop1. rewrite !to_int_small in Hstop1 by lia.
    injection Hstop1 as Hstop1.
    (* the second loop *)
    lazymatch goal with
    | |- context [while_loop _ ?cond ?body (Iterator k, set_data lhs data_k)] =>
        destruct (while_loop_total
          (λ '(itR, s), ∃ k', itR = Iterator k' ∧ s = set_data lhs data_k ∧
                              k ≤ k' ≤ nr)
          (λ '(itR, _), Z.to_nat (nr - it_id itR))
          cond body)
          with (fuel := S (Z.to_nat nr)) (s := (Iterator k, set_data lhs data_k))
          as ([itR s2] & Hrun2 & HI2 & Hstop2)
    end.
    + intros [itR s] (k' & -> & -> & Hk').
      eexists. split; [done|].
      unfold Part0.end_, it_ne. cbn [it_id]. fold nr.
      rewrite to_int_small by lia.
      intros HkR%negb_true_iff%Z.eqb_neq.
      unfold Part0.deref. cbn [it_id].
      destruct (Hsrc k' ltac:(lia)) as (r & v & -> & _ & _).
      cbn [mbind result_bind]. unfold Part0.push_back. cbn [mbind result_bind].
      eexists. split; [done|].
      unfold it_incr. cbn [it_id]. rewrite to_int_small by lia.
      split; [|cbn [it_id]; lia].
      exists (k' + 1). split; [done|]. split; [done | lia].
    + exists k. split; [done|]. split; [done | lia].
    + cbn [it_id]. lia.
    + destruct HI2 as (k' & -> & -> & Hk'). rewrite Hrun2.
      cbn [mbind result_bind]. exists data_k. split; [done|].
      split; [done|].
      assert (k = Z.min nl nr) as Hkmin.
      { apply andb_false_iff in Hstop1 as [Hs|Hs];
          apply negb_false_iff, Z.eqb_eq in Hs; lia. }
      split; [|split].
      * intros j v Hj Hjl. apply Hvals; [done|].
        pose proof (lookup_lt_Some _ _ _ Hj). lia.
      * intros i Hi. apply Hrest. lia.
      * intros Hnl. apply Hzero. lia.
Qed.
End AssignOp.

Lemma sample_pair_represents : represents Part0.at_ sample_pair [1; 2].
Proof. solve_represents. Qed.

(** X15 (copy assignment of part_000).  For two distinct valid deques, the
    target with its live slots in place and the source holding [lr], the
    copy assignment returns (and so does the copy constructor, which is
    the same assignment); the target keeps its geometry and its blocks; it
    takes over the count and the front offset of the source; the first
    [min(size, rhs.size)] values of the source are written into the slots
    the target used for its own leading elements, every other slot is left
    as it was, and an empty target gets no value at all.  If both deques
    have the same geometry and front offset and the target is at least as
    long as the source, the target then holds the sequence of the source. *)
Theorem X15_assign_overwrites_in_place {T : Type}
    (lhs rhs : deque T) (lr : list T) :
  valid lhs → valid rhs → live_slots lhs → represents Part0.at_ rhs lr →
  ∃ d', Part0.assign_op lhs rhs = Ok d' ∧ Part0.copy_ctor lhs rhs = Ok d' ∧
    numCells d' = numCells lhs ∧ numBlocks d' = numBlocks lhs ∧
    size d' = size rhs ∧ iaFront d' = iaFront rhs ∧
    same_shape (data lhs) (data d') ∧
    (∀ (k : nat) v, lr !! k = Some v → Z.of_nat k < numElements lhs →
       load (data d') (block_of lhs (Z.of_nat k), cell_of lhs (Z.of_nat k))
       = Ok v) ∧
    (∀ i, Z.min (numElements lhs) (numElements rhs) ≤ i < total_cells lhs →
       cell_get (data d') (block_of lhs i) (cell_of lhs i)
       = cell_get (data lhs) (block_of lhs i) (cell_of lhs i)) ∧
    (numElements lhs = 0 → data d' = data lhs) ∧
    (numCells rhs = numCells lhs → numBlocks rhs = numBlocks lhs →
     iaFront rhs = iaFront lhs → numElements rhs ≤ numElements lhs →
     valid d' ∧ represents Part0.at_ d' lr).
Proof.
  intros Hvl Hvr Hlive Hl.
  destruct (Part0_assign_op_run lhs rhs lr Hvl Hvr Hlive Hl)
    as (data' & Hrun & Hshape & Hvals & Hrest & Hzero).
  eexists. split; [exact Hrun|]. split; [exact Hrun|].
  cbn [numCells numBlocks iaFront data]. unfold size. cbn [numElements].
  do 5 (split; [done|]). split; [|split; [done|split; [done|]]].
  - intros k v Hk Hlt. unfold load. cbn [fst snd]. by rewrite (Hvals k v).
  - intros HC HB HF HN.
    pose proof Hvl as [Hc Hb Hti Hcount Hf Hsum Harr].
    pose proof Hvr as [_ _ _ Hcount' _ _ _].
    set (d' := Deque _ _ _ _ data').
    assert (valid d') as Hv'.
    { apply (valid_same_layout lhs); cbn; try done; [lia|].
      by destruct Hshape. }
    split; [done|]. split; [by destruct Hl|].
    intros k v Hk. pose proof (lookup_lt_Some _ _ _ Hk) as Hklt.
    destruct Hl as [Hlen _].
    assert (total_cells d' = total_cells lhs) as Htot by reflexivity.
    rewrite at_spec by (done || rewrite ?Htot; cbn [iaFront d']; lia).
    assert (block_of d' (Z.of_nat k) = block_of lhs (Z.of_nat k) ∧
            cell_of d' (Z.of_nat k) = cell_of lhs (Z.of_nat k)) as [-> ->].
    { unfold block_of, cell_of, abs_cell, total_cells. cbn. by rewrite HF. }
    unfold load. cbn [fst snd data d']. rewrite (Hvals k v); [done..|lia].
Qed.

Lemma X15_assign_overwrites_in_place_witness :
  ∃ d', Part0.assign_op sample_flat sample_pair = Ok d' ∧
        iaFront d' = 0 ∧ size d' = 2 ∧ numBlocks d' = 2 ∧
        load (data d') (0, 1) = Ok 1.
Proof.
  destruct (X15_assign_overwrites_in_place sample_flat sample_pair [1; 2]
              sample_flat_valid)
    as (d' & Hrun & _ & _ & HB & HN & HF & _ & Hvals & _);
    [solve_valid
    | apply allocated_live; [exact sample_flat_valid | exact sample_flat_allocated]
    | exact sample_pair_represents |].
  exists d'. split; [exact Hrun|]. split; [exact HF|]. split; [exact HN|].
  split; [exact HB|]. apply (Hvals 0%nat 1); [reflexivity | by vm_compute].
Defined.

(** ** The copy constructor of deque.h *)

Section FillFacts.
Context {A : Type}.

(** Overwriting position [j] of a list that agrees with [l] before [j] and
    is filled with [fill] from there on. *)
Lemma insert_take_fill (l : list A) (x fill : A) (j : nat) :
  l !! j = Some x →
  <[j := x]> (take j l ++ replicate (length l - j) fill)
  = take (S j) l ++ replicate (length l - S j) fill.
Proof.
  intros Hj. pose proof (lookup_lt_Some _ _ _ Hj) as Hlt.
  rewrite insert_app_r_alt by (rewrite length_take; lia).
  rewrite length_take, Nat.min_l, Nat.sub_diag by lia.
  destruct (length l - j)%nat as [|m] eqn:Hm; [lia|].
  replace (length l - S j)%nat with m by lia.
  cbn. erewrite take_S_r by done. by rewrite <- app_assoc.
Qed.

Lemma take_fill_length (l : list A) (fill : A) (j : nat) :
  (j ≤ length l)%nat →
  length (take j l ++ replicate (length l - j) fill) = length l.
Proof.
  intros. rewrite length_app, length_take, length_replicate. lia.
Qed.
End FillFacts.

Section SizeLoops.
Context {S : Type}.

(** A counting loop [for (size_t i = 0; i < n; ++i)]. *)
Lemma for_loop_count_size (I : Z → S → Prop) (n : Z)
    (body : Z → S → result S) (fuel : nat) (s : S) :
  0 ≤ n < size_max →
  (∀ i s, 0 ≤ i < n → I i s → ∃ s', body i s = Ok s' ∧ I (i + 1) s') →
  I 0 s → (Z.to_nat n < fuel)%nat →
  ∃ s', for_loop fuel (λ i, i <? n) (λ i, to_size (i + 1)) body 0 s = Ok s'
        ∧ I n s'.
Proof.
  intros Hn Hbody H0 Hfuel. unfold for_loop.
  destruct (while_loop_total
              (λ '(i, s), 0 ≤ i ≤ n ∧ I i s)
              (λ '(i, _), Z.to_nat (n - i))
              (λ '(i, _), Ok (i <? n))
              (λ '(i, s), s' ← body i s; Ok (to_size (i + 1), s')))
    with (fuel := fuel) (s := (0, s)) as ([i s'] & Hrun & [Hi Hs'] & Hstop).
  - intros [i s0] [Hi Hs0]. eexists. split; [done|].
    intros Hlt%Z.ltb_lt.
    destruct (Hbody i s0 ltac:(lia) Hs0) as (s1 & Hb & Hs1).
    rewrite Hb. cbn [mbind result_bind]. eexists. split; [done|].
    rewrite to_size_small by lia. split; [split; [lia | done] | lia].
  - split; [lia | done].
  - rewrite Z.sub_0_r. done.
  - rewrite Hrun. cbn [mbind result_bind]. eexists. split; [done|].
    injection Hstop as Hstop. apply Z.ltb_ge in Hstop.
    by replace n with i by lia.
Qed.

(** If such a loop returns, its body returned at every index below [n]. *)
Lemma for_loop_size_body_ok (n : Z) (body : Z → S → result S) (fuel : nat) :
  0 ≤ n < size_max →
  ∀ i0 s s', 0 ≤ i0 →
    for_loop fuel (λ i, i <? n) (λ i, to_size (i + 1)) body i0 s = Ok s' →
    ∀ i, i0 ≤ i < n → ∃ si si', body i si = Ok si'.
Proof.
  intros Hn. unfold for_loop.
  induction fuel as [|fuel IH]; intros i0 s s' Hi0 Hrun i Hi; [done|].
  cbn [while_loop mbind result_bind] in Hrun.
  destruct (Z.ltb_spec i0 n) as [Hlt|?]; [|lia].
  destruct (body i0 s) as [s1|] eqn:Hb; cbn [mbind result_bind] in Hrun; [|done].
  destruct (decide (i = i0)) as [->|Hne]; [eauto|].
  rewrite to_size_small in Hrun by lia.
  apply (IH (i0 + 1) s1 s'); [lia | done | lia].
Qed.
End SizeLoops.

Section CopyCtor.
Context {T : Type}.
Implicit Types (rhs : deque T).

(** The inner loop: block [i] of the copy, freshly allocated, receives the
    slots of block [i] of the source one by one. *)
Lemma copy_block_loop rhs (arr arr0 : list (option (list (option T))))
    (blk : list (option T)) (i : Z) (fuel : nat) :
  data rhs = Some arr → 0 ≤ i → arr !! Z.to_nat i = Some (Some blk) →
  length blk = Z.to_nat (numCells rhs) → 0 < numCells rhs < size_max →
  arr0 !! Z.to_nat i = Some (Some (replicate (length blk) None)) →
  (Z.to_nat (numCells rhs) < fuel)%nat →
  for_loop fuel (λ j, j <? numCells rhs) (λ j, to_size (j + 1))
    (λ j dataNew, x ← cell_get (data rhs) i j; cell_set dataNew i j x)
    0 (Some arr0)
  = Ok (Some (<[Z.to_nat i := Some blk]> arr0)).
Proof.
  intros Hdata Hi Hblk Hlen Hc Hnew Hfuel.
  pose proof (lookup_lt_Some _ _ _ Hnew) as Hi0.
  lazymatch goal with
  | |- context [for_loop _ _ _ ?body _ _] =>
      destruct (for_loop_count_size
        (λ (j : Z) (dn : option (list (option (list (option T))))),
           dn = Some (<[Z.to_nat i :=
                   Some (take (Z.to_nat j) blk
                         ++ replicate (length blk - Z.to_nat j) None)]> arr0))
        (numCells rhs) body fuel (Some arr0))
        as (dn & Hrun & Hdn); [lia | | | done |]
  end.
  - intros j dn Hj ->. cbn beta.
    destruct (lookup_lt_is_Some_2 blk (Z.to_nat j)) as [x Hx]; [lia|].
    set (cur := take (Z.to_nat j) blk ++ replicate (length blk - Z.to_nat j) None).
    assert (length cur = length blk) as Hcur
      by (apply take_fill_length; lia).
    destruct (lookup_lt_is_Some_2 cur (Z.to_nat j)) as [y Hy]; [lia|].
    rewrite Hdata. unfold cell_get, cell_set, ptr_get, ptr_set, subscript, assign.
    destruct (Z.ltb_spec i 0) as [?|_]; [lia|].
    destruct (Z.ltb_spec j 0) as [?|_]; [lia|].
    rewrite Hblk. cbn [mbind result_bind]. rewrite Hx. cbn [mbind result_bind].
    rewrite list_lookup_insert_eq by done. cbn [mbind result_bind].
    rewrite Hy. cbn [mbind result_bind].
    eexists. split; [done|].
    rewrite list_insert_insert_eq. unfold cur.
    rewrite (insert_take_fill blk x None) by done.
    by replace (Z.to_nat (j + 1)) with (S (Z.to_nat j)) by lia.
  - change (Z.to_nat 0) with 0%nat. cbn [take app]. rewrite Nat.sub_0_r.
    by rewrite list_insert_id.
  - rewrite Hrun, Hdn. rewrite <- Hlen, take_ge, Nat.sub_diag by lia.
    cbn [replicate]. by rewrite app_nil_r.
Qed.

(** The copy constructor on a source all of whose blocks are allocated:
    the copy has the members of the source and, slot for slot, its
    contents. *)
Lemma DequeH_copy_ctor_run rhs :
  valid rhs → allocated rhs → DequeH.copy_ctor rhs = Ok rhs.
Proof.
  intros Hv (arr & Hdata & Hall).
  pose proof Hv as [Hc Hb Hti Hcount Hf Hsum Harr].
  pose proof int_max_lt_size_max as Hmax.
  rewrite Hdata in Harr.
  unfold DequeH.copy_ctor.
  lazymatch goal with
  | |- context [for_loop _ _ _ ?body _ _] =>
      destruct (for_loop_count_size
        (λ (i : Z) (dn : option (list (option (list (option T))))),
           dn = Some (take (Z.to_nat i) arr
                      ++ replicate (length arr - Z.to_nat i) None))
        (numBlocks rhs) body (S (Z.to_nat (numBlocks rhs)))
        (Some (replicate (Z.to_nat (numBlocks rhs)) None)))
        as (dn & Hrun & Hdn)
  end.
  - assert (numBlocks rhs ≤ total_cells rhs) by (unfold total_cells; nia). lia.
  - intros i dn Hi ->. cbn beta.
    destruct (lookup_lt_is_Some_2 arr (Z.to_nat i)) as [p Hp]; [lia|].
    destruct (Hall p) as (blk & -> & Hblk); [by eapply list_elem_of_lookup_2|].
    set (cur := take (Z.to_nat i) arr ++ replicate (length arr - Z.to_nat i) None).
    assert (length cur = length arr) as Hcur
      by (apply take_fill_length; lia).
    destruct (lookup_lt_is_Some_2 cur (Z.to_nat i)) as [q Hq]; [lia|].
    unfold ptr_set at 1. unfold assign.
    destruct (Z.ltb_spec i 0) as [?|_]; [lia|].
    rewrite Hq. cbn [mbind result_bind].
    assert (numCells rhs ≤ total_cells rhs) by (unfold total_cells; nia).
    rewrite (copy_block_loop rhs arr _ blk); try done; try lia.
    + eexists. split; [done|]. rewrite list_insert_insert_eq. unfold cur.
      rewrite (insert_take_fill arr (Some blk) None) by done.
      by replace (Z.to_nat (i + 1)) with (S (Z.to_nat i)) by lia.
    + rewrite list_lookup_insert_eq by lia. by rewrite Hblk.
  - change (Z.to_nat 0) with 0%nat. cbn [take app].
    by rewrite Nat.sub_0_r, Harr.
  - lia.
  - rewrite Hrun, Hdn. cbn [mbind result_bind].
    rewrite <- Harr, take_ge, Nat.sub_diag by lia. cbn [replicate].
    rewrite app_nil_r, <- Hdata. by destruct rhs.
Qed.

(** The copy constructor reads slot 0 of every block of the source, so it
    cannot return when one of the block pointers is null. *)
Lemma DequeH_copy_ctor_null rhs ib :
  valid rhs → 0 ≤ ib < numBlocks rhs → ptr_get (data rhs) ib = Ok None →
  is_ok (DequeH.copy_ctor rhs) = false.
Proof.
  intros Hv Hib Hnull. pose proof Hv as [Hc Hb Hti Hcount Hf Hsum Harr].
  pose proof int_max_lt_size_max as Hmax.
  assert (numBlocks rhs ≤ total_cells rhs) by (unfold total_cells; nia).
  assert (numCells rhs ≤ total_cells rhs) by (unfold total_cells; nia).
  unfold DequeH.copy_ctor.
  lazymatch goal with
  | |- context [for_loop ?fuel ?test ?next ?body ?i0 ?s0] =>
      destruct (for_loop fuel test next body i0 s0) as [dn|e] eqn:Hrun;
        [|done];
      destruct (for_loop_size_body_ok (numBlocks rhs) body fuel
                  ltac:(lia) 0 s0 dn ltac:(lia) Hrun ib Hib)
        as (si & si' & Hbody)
  end.
  cbn beta in Hbody. bind_inv Hbody.
  destruct (for_loop_size_body_ok (numCells rhs) _ _
              ltac:(lia) 0 _ _ ltac:(lia) Hbody 0 ltac:(lia))
    as (sj & sj' & Hslot).
  cbn beta in Hslot. unfold cell_get in Hslot. rewrite Hnull in Hslot.
  done.
Qed.
End CopyCtor.

(** X16 (copy constructor of deque.h).  On a valid source all of whose
    blocks are allocated the copy constructor returns a deque whose members
    and whose slots, constructed or raw, equal those of the source (in this
    embedding a state is its contents, so the copy is the state of the
    source).  On a source without any block it returns the members of the
    source with an empty, non-null pointer array.  On a source one of whose
    block pointers is null it never returns normally, since it reads every
    slot of every block. *)
Theorem X16_copy_ctor_copies {T : Type} (rhs : deque T) :
  valid rhs →
  (allocated rhs → DequeH.copy_ctor rhs = Ok rhs) ∧
  (numBlocks rhs = 0 → DequeH.copy_ctor rhs = Ok (set_data rhs (Some []))) ∧
  (∀ ib, 0 ≤ ib < numBlocks rhs → ptr_get (data rhs) ib = Ok None →
     is_ok (DequeH.copy_ctor rhs) = false).
Proof.
  intros Hv. split; [by apply DequeH_copy_ctor_run|]. split.
  - intros HB. unfold DequeH.copy_ctor, set_data. rewrite HB. reflexivity.
  - intros ib. by apply DequeH_copy_ctor_null.
Qed.

Lemma X16_copy_ctor_copies_witness :
  DequeH.copy_ctor sample_flat = Ok sample_flat ∧
  is_ok (DequeH.copy_ctor sample_sparse) = false.
Proof.
  destruct (X16_copy_ctor_copies sample_flat sample_flat_valid)
    as (Hcopy & _ & _).
  destruct (X16_copy_ctor_copies sample_sparse) as (_ & _ & Hnull);
    [solve_valid|].
  split; [exact (Hcopy sample_flat_allocated)|].
  apply (Hnull 1); [by vm_compute | reflexivity].
Defined.

(** ** Validity under the removing operations *)

Section RemovalValid.
Context {T : Type}.
Implicit Types (d : deque T).

Lemma Part0_pop_front_valid d d' :
  valid d → Part0.pop_front d = Ok d' → valid d'.
Proof.
  intros Hv Hrun. pose proof Hv as [Hc Hb Hti Hcount Hf Hsum Harr].
  pose proof int_max_lt_size_max as Hmax. pose proof int_min_neg as Hmin.
  unfold Part0.pop_front in Hrun.
  destruct (Z.ltb_spec 0 (numElements d)) as [Hn|_]; cbn [negb] in Hrun; [|done].
  bind_inv Hrun. injection Hrun as <-. clear E3.
  apply cell_set_shape in E2 as [_ Hlen2].
  assert (numCells a4 = numCells d ∧ numBlocks a4 = numBlocks d ∧
          numElements a4 = numElements d ∧ iaFront a4 = iaFront d ∧
          length <$> data a4 = length <$> data d) as (HC4 & HB4 & HN4 & HF4 & HD4).
  { destruct a3.
    - bind_inv E4. injection E4 as <-. cbn.
      apply ptr_set_length in E3. cbn in E3. by rewrite E3.
    - by injection E4 as <-. }
  assert (numCells a5 = numCells d ∧ numBlocks a5 = numBlocks d ∧
          numElements a5 = numElements d ∧ 0 ≤ iaFront a5 ≤ iaFront d ∧
          length <$> data a5 = length <$> data d) as (HC5 & HB5 & HN5 & HF5 & HD5).
  { destruct (numElements a4 =? 1).
    - bind_inv E5. injection E5 as <-. cbn.
      apply ptr_set_length in E3. cbn in E3. rewrite E3.
      repeat split; try done; lia.
    - injection E5 as <-. repeat split; try done; lia. }
  assert (numCells a6 = numCells d ∧ numBlocks a6 = numBlocks d ∧
          numElements a6 = numElements d ∧ 0 ≤ iaFront a6 ≤ iaFront d + 1 ∧
          length <$> data a6 = length <$> data d) as (HC6 & HB6 & HN6 & HF6 & HD6).
  { destruct (numBlocks a5 =? 1).
    - destruct (Z.eqb_spec (numCells a5) 0) as [?|_]; [done|].
      injection E6 as <-. cbn.
      rewrite front_increment_single by lia.
      pose proof (Z.mod_pos_bound (iaFront a5 + 1) (numCells a5) ltac:(lia)).
      pose proof (Z.mod_le (iaFront a5 + 1) (numCells a5) ltac:(lia) ltac:(lia)).
      repeat split; try done; lia.
    - injection E6 as <-. cbn. rewrite to_int_small by lia.
      repeat split; try done; lia. }
  rewrite HN6, (to_size_small (numElements d - 1)) by lia.
  assert (total_cells (set_numElements a6 (numElements d - 1)) = total_cells d)
    as Htot by (unfold total_cells; cbn; by rewrite HC6, HB6).
  split; rewrite ?Htot;
    cbn [numCells numBlocks numElements iaFront data set_numElements];
    rewrite ?HC6, ?HB6; try done; try lia.
  destruct (data d), (data a6); cbn in HD6; try done; congruence.
Qed.

Lemma Part0_clear_valid d d' :
  valid d → Part0.clear d = Ok d' → valid d'.
Proof.
  intros Hv Hrun. pose proof Hv as [Hc Hb Hti Hcount Hf Hsum Harr].
  unfold Part0.clear in Hrun. bind_inv Hrun. injection Hrun as <-.
  set (I := λ s : deque T,
         numCells s = numCells d ∧ numBlocks s = numBlocks d ∧
         iaFront s = iaFront d ∧ length <$> data s = length <$> data d).
  assert (I a) as Ha.
  { apply (for_loop_invariant I) in E; [done | | done].
    intros i s s' (HC & HB & HF & HD) Hbody. bind_inv Hbody.
    injection Hbody as <-.
    match goal with
    | E : destroy _ _ = Ok _ |- _ => apply cell_set_shape in E as [_ Hlen]
    end.
    unfold I. cbn. by rewrite Hlen. }
  assert (I a0) as (HC & HB & HF & HD).
  { apply (for_loop_invariant I) in E0; [done | | done].
    intros i s s' (HC & HB & HF & HD) Hbody. bind_inv Hbody.
    destruct a1; bind_inv Hbody; injection Hbody as <-; [|done].
    match goal with
    | E : ptr_set _ _ _ = Ok _ |- _ => apply ptr_set_length in E as Hlen
    end.
    unfold I. cbn. by rewrite Hlen. }
  apply (valid_same_layout d); cbn; try done. lia.
Qed.
End RemovalValid.

(** X17 (the removing operations keep a valid state valid).  From a valid
    state, whenever [pop_front], [pop_back] or [clear] of part_000, or
    [pop_back] of deque.h, returns, the state it leaves is valid again:
    the cell and block counts and the length of the pointer array are as
    before, the count has dropped by exactly one (to 0 for [clear]) and
    stays within the capacity, and the front offset is still an index that
    the helpers can add a logical index to without overflow. *)
Theorem X17_removal_keeps_valid {T : Type} (d d' : deque T) :
  valid d →
  (Part0.pop_front d = Ok d' ∨ Part0.pop_back d = Ok d' ∨
   DequeH.pop_back d = Ok d' →
     valid d' ∧ numCells d' = numCells d ∧ numBlocks d' = numBlocks d ∧
     0 < size d ∧ size d' = size d - 1) ∧
  (Part0.clear d = Ok d' →
     valid d' ∧ numCells d' = numCells d ∧ numBlocks d' = numBlocks d ∧
     size d' = 0).
Proof.
  intros Hv. pose proof Hv as [Hc Hb Hti Hcount Hf Hsum Harr].
  pose proof int_max_lt_size_max as Hmax. unfold size. split.
  - intros [Hrun | [Hrun | Hrun]].
    + split; [by eapply Part0_pop_front_valid|].
      apply pop_front_geometry in Hrun as (HC & HB & HN & Hn).
      rewrite to_size_small in HN by lia. done.
    + split; [by eapply Part0_pop_back_valid|].
      apply pop_back_geometry in Hrun as (HC & HB & HN & Hn).
      rewrite to_size_small in HN by lia. done.
    + split; [by eapply DequeH_pop_back_valid|].
      unfold DequeH.pop_back in Hrun.
      destruct (Z.ltb_spec 0 (numElements d)) as [Hn|_];
        cbn [negb] in Hrun; [|done].
      bind_inv Hrun. injection Hrun as <-. cbn.
      rewrite to_size_small by lia. done.
  - intros Hrun. split; [by eapply Part0_clear_valid|].
    by apply clear_geometry in Hrun.
Qed.

Lemma X17_removal_keeps_valid_witness :
  valid sample_flat_popped ∧ size sample_flat_popped = size sample_flat - 1.
Proof.
  destruct (X17_removal_keeps_valid sample_flat sample_flat_popped
              sample_flat_valid) as [Hpop _].
  destruct Hpop as (Hv & _ & _ & _ & Hn);
    [right; left; reflexivity | split; [exact Hv | exact Hn]].
Defined.

(** ** What no mutator changes *)

Section BlockCount.
Context {T : Type} `{FromInt T}.
Implicit Types (d : deque T).

Lemma reallocate_positive d nbn d' :
  Part0.reallocate d nbn = Ok d' → 0 < nbn.
Proof.
  unfold Part0.reallocate. intros Hrun.
  by destruct (Z.ltb_spec 0 nbn) as [Hpos|_]; cbn [negb andb] in Hrun.
Qed.

(** [push_front] either keeps the block count or, when it grew the array,
    raises it by one. *)
Lemma push_front_blocks d t d' :
  0 ≤ numBlocks d ≤ int_max → Part0.push_front d t = Ok d' →
  numBlocks d' = numBlocks d ∨
  (numBlocks d' = numBlocks d + 1 ∧ numBlocks d + 1 ≤ int_max).
Proof.
  intros HB. unfold Part0.push_front. intros Hrun. bind_inv Hrun.
  pose proof int_max_lt_size_max as Hmax. pose proof int_min_neg as Hmin.
  assert (numBlocks d' = numBlocks a) as ->.
  { destruct (to_size (numBlocks a * numCells a) =? 0); [done|].
    bind_inv Hrun. by injection Hrun as <-. }
  clear Hrun.
  destruct (numElements d =? to_size (numBlocks d * numCells d));
    [|injection E as <-; by left].
  pose proof (reallocate_positive _ _ _ E) as Hpos.
  apply reallocate_geometry in E as (_ & -> & _).
  rewrite (to_size_small (numBlocks d + 1)) in * by lia.
  destruct (Z.le_gt_cases (numBlocks d + 1) int_max) as [Hle|Hgt].
  - rewrite to_int_small in * by lia. rewrite to_size_small by lia.
    right. done.
  - assert (numBlocks d = int_max) as Hb by lia.
    rewrite Hb in Hpos. by vm_compute in Hpos.
Qed.

Lemma mutation_blocks d d' :
  mutation d d' → 0 ≤ numBlocks d ≤ int_max →
  numCells d' = numCells d ∧ numBlocks d ≤ numBlocks d' ≤ int_max.
Proof.
  intros Hmut HB.
  destruct Hmut as [d t d' Hrun | d t d' Hrun | d t d' Hrun
                   | d d' Hrun | d d' Hrun | d d' Hrun].
  - injection Hrun as <-. lia.
  - pose proof (push_front_geometry _ _ _ Hrun) as (HC & _).
    destruct (push_front_blocks _ _ _ HB Hrun) as [-> | [-> ?]]; lia.
  - unfold Part0.push_front_move in Hrun.
    pose proof (push_front_geometry _ _ _ Hrun) as (HC & _).
    destruct (push_front_blocks _ _ _ HB Hrun) as [-> | [-> ?]]; lia.
  - apply pop_front_geometry in Hrun as (-> & -> & _). lia.
  - apply pop_back_geometry in Hrun as (-> & -> & _). lia.
  - apply clear_geometry in Hrun as (-> & -> & _). lia.
Qed.
End BlockCount.

(** X18 (what no run of mutators changes).  Along every run of calls of
    [push_back], [push_front] (either overload), [pop_front], [pop_back]
    and [clear] of part_000 that return, starting from a state whose block
    count fits an [int], the number of cells per block stays the same and
    the number of block pointers never decreases (and still fits an
    [int]); a single [push_front] raises it by at most one. *)
Theorem X18_blocks_never_shrink {T : Type} `{FromInt T} (d d' : deque T) :
  0 ≤ numBlocks d ≤ int_max → rtc mutation d d' →
  numCells d' = numCells d ∧ numBlocks d ≤ numBlocks d' ≤ int_max ∧
  ∀ t d'', Part0.push_front d' t = Ok d'' →
    numBlocks d' ≤ numBlocks d'' ≤ numBlocks d' + 1.
Proof.
  intros HB Hrun.
  assert (numCells d' = numCells d ∧ numBlocks d ≤ numBlocks d' ≤ int_max)
    as (HC & HB').
  { induction Hrun as [|d d1 d2 Hstep _ IH]; [lia|].
    destruct (mutation_blocks d d1 Hstep HB) as (HC1 & HB1).
    destruct IH as (HC2 & HB2); [lia|]. rewrite HC2, HC1. lia. }
  split; [done|]. split; [done|]. intros t d'' Hpush.
  destruct (push_front_blocks d' t d'' ltac:(lia) Hpush) as [-> | [-> ?]]; lia.
Qed.

Lemma X18_blocks_never_shrink_witness :
  numCells sample_flat_popped = numCells sample_flat ∧
  numBlocks sample_flat ≤ numBlocks sample_flat_popped ≤ int_max.
Proof.
  destruct (X18_blocks_never_shrink sample_flat sample_flat_popped)
    as (HC & HB & _);
    [by vm_compute | apply rtc_once, mut_pop_back; reflexivity |].
  split; [exact HC | exact HB].
Defined.

(** ** push_front on a full deque of one-cell blocks *)

(** X19 (push_front on a full deque whose blocks have one cell).  With one
    cell per block the assertion of [reallocate] holds on a full deque, so
    [push_front] goes on.  With two or more elements [reallocate] leaves
    only null block pointers and [push_front] assigns through one of them.
    With exactly one element (and so one block) [push_front(t)] returns:
    the deque then has two block pointers and claims two elements, index 0
    reads [t], but the element it held before is gone, and index 1 is read
    through a null pointer. *)
Theorem X19_push_front_full_single_cells {T : Type} `{FromInt T}
    (d : deque T) (t : T) :
  valid d → numCells d = 1 → 0 < numBlocks d < int_max →
  numElements d = total_cells d →
  (1 < numElements d → Part0.push_front d t = Fault NullDeref) ∧
  (numElements d = 1 →
     ∃ d', Part0.push_front d t = Ok d' ∧
       numBlocks d' = 2 ∧ size d' = 2 ∧
       Part0.at_ d' 0 = Ok t ∧ Part0.at_ d' 1 = Fault NullDeref).
Proof.
  intros Hv HC HB Hfull. pose proof Hv as [Hc Hb Hti Hcount Hf Hsum Harr].
  pose proof int_max_lt_size_max as Hmax. pose proof int_min_neg as Hmin.
  assert (total_cells d = numBlocks d) as Htot
    by (unfold total_cells; rewrite HC; lia).
  assert ((if numElements d =? to_size (numBlocks d * numCells d)
           then Part0.reallocate d (to_int (to_size (numBlocks d + 1)))
           else Ok d) = Part0.reallocate d (numBlocks d + 1)) as Hfirst.
  { change (numBlocks d * numCells d) with (total_cells d).
    rewrite (to_size_small (total_cells d)) by lia.
    rewrite Hfull at 1. rewrite Z.eqb_refl.
    by rewrite (to_size_small (numBlocks d + 1)), to_int_small by lia. }
  split.
  - intros Hmany.
    set (d1 := Deque (numCells d) (numBlocks d + 1) (numElements d)
                 (iaFront d mod numCells d)
                 (Some (replicate (Z.to_nat (numBlocks d + 1)) None)) : deque T).
    assert (total_cells d1 = numBlocks d + 1) as Htot1
      by (unfold total_cells; cbn; rewrite HC; lia).
    assert (iaFront d1 = 0) as Hf1 by (cbn; rewrite HC; apply Z.mod_1_r).
    assert (valid d1) as Hv1.
    { split; rewrite ?Htot1, ?Hf1; cbn [d1 numCells numBlocks numElements data];
        try done; try lia. by rewrite length_replicate. }
    apply (push_front_null_front d d1); [| done | lia |].
    + rewrite Hfirst. apply Part0_reallocate_run; (done || lia).
    + apply unallocated_ptr; [done | |].
      * cbn. intros p Hp. by apply elem_of_replicate in Hp as [-> _].
      * apply front_block_bounds; [done | lia].
  - intros Hone.
    assert (numBlocks d = 1) as HB1 by lia.
    unfold Part0.push_front. rewrite Hfirst.
    rewrite Part0_reallocate_single by (done || lia).
    rewrite HC, HB1, Z.mod_1_r. cbn [mbind result_bind].
    eexists. split; [by vm_compute|]. by vm_compute.
Qed.

Lemma X19_push_front_full_single_cells_witness :
  (∃ d', Part0.push_front (Deque 1 1 1 0 (Some [Some [Some 4]])) 9 = Ok d' ∧
         Part0.at_ d' 0 = Ok 9 ∧ Part0.at_ d' 1 = Fault NullDeref) ∧
  Part0.push_front (Deque 1 2 2 0 (Some [Some [Some 4]; Some [Some 5]])) 9
    = Fault NullDeref.
Proof.
  split.
  - destruct (X19_push_front_full_single_cells
                (Deque 1 1 1 0 (Some [Some [Some 4]])) 9)
      as [_ Hone]; [solve_valid | by vm_compute ..|].
    destruct Hone as (d' & Hrun & _ & _ & H0 & H1); [reflexivity|].
    exists d'. split; [exact Hrun|]. split; [exact H0 | exact H1].
  - destruct (X19_push_front_full_single_cells
                (Deque 1 2 2 0 (Some [Some [Some 4]; Some [Some 5]])) 9)
      as [Hmany _]; [solve_valid | by vm_compute ..|].
    apply Hmany. by vm_compute.
Defined.

(** ** pop_back of the two variants *)

Section PopBackVariants.
Context {T : Type}.
Implicit Types (d : deque T).

(** deque.h never gives a block back; part_000 drops the pointer of the
    last element's block when it was the only element, or when it lay in
    the first cell of a block other than the front's. *)
Lemma pop_back_variants d :
  valid d → 0 < numElements d →
  iaFront d + numElements d ≤ total_cells d →
  let last := numElements d - 1 in
  let release := (numElements d =? 1)
                 || ((cell_of d last =? 0)
                     && negb (block_of d last =? block_of d 0)) in
  Part0.pop_back d
  = (dH ← DequeH.pop_back d;
     if release then
       data' ← ptr_set (data dH) (block_of d last) None;
       Ok (set_data dH data')
     else Ok dH).
Proof.
  intros Hv Hn Hflat last release.
  pose proof Hv as [Hc Hb Hti Hcount Hf Hsum Harr].
  pose proof (valid_size_max d Hv) as Hsz. pose proof int_min_neg as Hmin.
  pose proof int_max_lt_size_max as Hmax.
  assert (0 < total_cells d) as Htot by lia.
  unfold Part0.pop_back, DequeH.pop_back.
  destruct (Z.ltb_spec 0 (numElements d)) as [_|?]; [cbn [negb] | lia].
  rewrite back_index by done.
  rewrite (to_size_small (numElements d - 1)), to_int_small by lia. fold last.
  rewrite DequeH_ibFromID_spec, DequeH_icFromID_spec by (unfold last; lia).
  rewrite Part0_ibFromID_spec, Part0_icFromID_spec by (unfold last; lia).
  assert (abs_cell d last = iaFront d + last) as Habs
    by (apply abs_cell_no_wrap; unfold last; lia).
  assert ((iaFront d + last) / numCells d = block_of d last) as ->
    by (unfold block_of; by rewrite Habs).
  assert ((iaFront d + last) mod numCells d = cell_of d last) as ->
    by (unfold cell_of; by rewrite Habs).
  cbn [mbind result_bind].
  destruct (element_ref (data d) (block_of d last) (cell_of d last))
    as [r|e]; [|done].
  cbn [mbind result_bind].
  destruct (destroy (data d) r) as [data1|e]; [|done].
  cbn [mbind result_bind].
  change (numElements (set_data d data1)) with (numElements d).
  change (Part0.icFromID (set_data d data1) last) with (Part0.icFromID d last).
  change (Part0.ibFromID (set_data d data1) last) with (Part0.ibFromID d last).
  change (Part0.ibFromID (set_data d data1) 0) with (Part0.ibFromID d 0).
  rewrite !Part0_ibFromID_spec, Part0_icFromID_spec by (unfold last; lia).
  unfold release.
  assert (to_size (numElements d - 1) = last) as Hlast
    by (apply to_size_small; unfold last; lia).
  destruct (numElements d =? 1); cbn [orb mbind result_bind];
    [|destruct (cell_of d last =? 0); cbn [andb mbind result_bind];
      [destruct (block_of d last =? block_of d 0);
       cbn [negb mbind result_bind]|]];
    cbn [data set_data set_numElements];
    try (destruct (ptr_set data1 (block_of d last) None) as [data2|e];
         [|done]);
    cbn; by rewrite ?Hlast.
Qed.
End PopBackVariants.

(** X20 (pop_back of the two variants).  On a valid non-empty deque whose
    live range does not run past the end of the block array, [pop_back()]
    of part_000 does what [pop_back()] of deque.h does and then, if the
    element removed was the only one, or lay in the first cell of a block
    other than the front's, sets the pointer of its block to null; in all
    other cases the two return the same state or fail alike. *)
Theorem X20_pop_back_variants {T : Type} (d : deque T) :
  valid d → 0 < numElements d →
  iaFront d + numElements d ≤ total_cells d →
  let last := numElements d - 1 in
  (numElements d ≠ 1 →
   cell_of d last ≠ 0 ∨ block_of d last = block_of d 0 →
   Part0.pop_back d = DequeH.pop_back d) ∧
  (numElements d = 1 ∨
   (cell_of d last = 0 ∧ block_of d last ≠ block_of d 0) →
   Part0.pop_back d
   = (dH ← DequeH.pop_back d;
      data' ← ptr_set (data dH) (block_of d last) None;
      Ok (set_data dH data'))).
Proof.
  intros Hv Hn Hflat last.
  rewrite (pop_back_variants d Hv Hn Hflat). cbv zeta. fold last. split.
  - intros Hmany Hkeep.
    destruct (Z.eqb_spec (numElements d) 1) as [?|_]; [done|].
    cbn [orb].
    destruct (Z.eqb_spec (cell_of d last) 0) as [Hcell|_]; cbn [andb].
    + destruct (Z.eqb_spec (block_of d last) (block_of d 0)) as [_|Hblk];
        cbn [negb]; [|by destruct Hkeep].
      by destruct (DequeH.pop_back d).
    + by destruct (DequeH.pop_back d).
  - intros Hrel.
    destruct (Z.eqb_spec (numElements d) 1) as [_|Hmany]; [done|].
    destruct Hrel as [?|[Hcell Hblk]]; [done|]. cbn [orb].
    rewrite Hcell. change (0 =? 0) with true. cbn [andb].
    by destruct (Z.eqb_spec (block_of d last) (block_of d 0)) as [?|_].
Qed.

Lemma X20_pop_back_variants_witness :
  Part0.pop_back sample_flat = DequeH.pop_back sample_flat ∧
  Part0.pop_back sample_single
  = (dH ← DequeH.pop_back sample_single;
     data' ← ptr_set (data dH) 0 None; Ok (set_data dH data')).
Proof.
  split.
  - destruct (X20_pop_back_variants sample_flat sample_flat_valid)
      as [Hsame _]; [by vm_compute ..|].
    apply Hsame; [by vm_compute | left; by vm_compute].
  - destruct (X20_pop_back_variants sample_single)
      as [_ Hrel]; [solve_valid | by vm_compute ..|].
    apply Hrel. left. reflexivity.
Defined.

(** ** deque.h past the end of the block array *)

Lemma sample_wrapped_allocated : allocated sample_wrapped.
Proof. solve_allocated. Qed.

(** X21 (deque.h does not wrap).  On a valid deque whose blocks are all
    allocated, a live index whose cell [iaFront + i] lies at or past
    [numBlocks * numCells] is read by part_000 after wrapping around, while
    [operator[]] and the iterator of deque.h subscript the block-pointer
    array past its end; if that index is the last one, [back()] and
    [pop_back()] of deque.h do the same. *)
Theorem X21_skeleton_does_not_wrap {T : Type} `{FromInt T}
    (d : deque T) (i : Z) :
  valid d → allocated d → 0 ≤ i < numElements d →
  total_cells d ≤ iaFront d + i →
  is_ok (Part0.operator_index d i) ∧
  DequeH.operator_index d i = Fault OutOfBounds ∧
  DequeH.at_ d i = Fault OutOfBounds ∧
  DequeH.deref d (Iterator i) = Fault OutOfBounds ∧
  (i = numElements d - 1 →
     DequeH.back d = Fault OutOfBounds ∧
     DequeH.pop_back d = Fault OutOfBounds).
Proof.
  intros Hv Ha Hi Hwrap. pose proof Hv as [Hc Hb Hti Hcount Hf Hsum Harr].
  pose proof int_max_lt_size_max as Hmax. pose proof int_min_neg as Hmin.
  split; [by apply allocated_live|].
  pose proof (DequeH_ibFromID_spec d i Hc ltac:(lia)) as Hib.
  pose proof (DequeH_icFromID_spec d i Hc ltac:(lia)) as Hic.
  assert (element_ref (data d) ((iaFront d + i) / numCells d)
            ((iaFront d + i) mod numCells d) = Fault OutOfBounds) as Href.
  { unfold element_ref, cell_get.
    destruct Ha as (arr & Hdata & _). rewrite Hdata in *. cbn [ptr_get].
    assert (numBlocks d ≤ (iaFront d + i) / numCells d) as Hblk.
    { apply Z.div_le_lower_bound; [lia|]. unfold total_cells in *. lia. }
    unfold subscript.
    destruct (Z.ltb_spec ((iaFront d + i) / numCells d) 0) as [?|_]; [lia|].
    rewrite lookup_ge_None_2 by lia. done. }
  assert (DequeH.operator_index d i = Fault OutOfBounds) as Hidx.
  { unfold DequeH.operator_index. rewrite Hib, Hic. cbn [mbind result_bind].
    by rewrite Href. }
  split; [done|]. split; [unfold DequeH.at_; by rewrite Hidx|].
  split; [exact Hidx|]. intros Hlast.
  assert (to_int (to_size (numElements d - 1)) = i) as Hcast.
  { rewrite to_size_small, to_int_small by lia. lia. }
  split.
  - unfold DequeH.back. by rewrite Hcast.
  - unfold DequeH.pop_back.
    destruct (Z.ltb_spec 0 (numElements d)) as [_|?]; [cbn [negb] | lia].
    rewrite Hcast, Hib, Hic. cbn [mbind result_bind]. by rewrite Href.
Qed.

Lemma X21_skeleton_does_not_wrap_witness :
  Part0.at_ sample_wrapped 1 = Ok 20 ∧
  DequeH.at_ sample_wrapped 1 = Fault OutOfBounds ∧
  DequeH.pop_back sample_wrapped = Fault OutOfBounds.
Proof.
  destruct (X21_skeleton_does_not_wrap sample_wrapped 1
              sample_wrapped_valid sample_wrapped_allocated)
    as (_ & _ & Hat & _ & Hlast); [by vm_compute ..|].
  split; [reflexivity|]. split; [exact Hat|].
  destruct Hlast as [_ Hpop]; [reflexivity | exact Hpop].
Defined.

(** ** A run of push_front calls *)

(** X22 (a run of push_front calls).  On a valid deque whose blocks are all
    allocated, which holds [l] and has free cells for all of [vs],
    pushing the values of [vs] to the front one after the other returns a
    valid deque that holds the values of [vs] in reverse order followed by
    [l]; a traversal from [begin()] to [end()] reads exactly that
    sequence. *)
Theorem X22_push_front_run {T : Type} `{FromInt T}
    (d : deque T) (vs l : list T) :
  valid d → allocated d → represents Part0.at_ d l →
  numElements d + Z.of_nat (length vs) ≤ total_cells d →
  2 * total_cells d ≤ int_max →
  ∃ d', push_all Part0.push_front d vs = Ok d' ∧
    valid d' ∧ allocated d' ∧ represents Part0.at_ d' (rev vs ++ l) ∧
    size d' = size d + Z.of_nat (length vs) ∧
    ∀ fuel, (length vs + length l < fuel)%nat →
      traverse_from Part0.end_ Part0.deref fuel d' (Part0.begin d')
        = Ok (rev vs ++ l).
Proof.
  intros Hv Ha Hl Hroom Hhalf.
  destruct (push_front_all_spec vs d l Hv Ha Hl Hroom Hhalf)
    as (d' & Hrun & Hv' & Ha' & Hl').
  exists d'. do 4 (split; [done|]). split.
  - destruct Hl as [Hlen _], Hl' as [Hlen' _]. unfold size.
    rewrite Hlen', Hlen, length_app, length_rev. lia.
  - intros fuel Hfuel.
    apply (traverse_from_begin Part0.operator_index); try done.
    + destruct Hv' as [_ _ Hti' [_ Hcnt'] _ _ _]. lia.
    + rewrite length_app, length_rev. lia.
Qed.

Lemma X22_push_front_run_witness :
  ∃ d', push_all Part0.push_front sample_flat [5; 6] = Ok d' ∧
        represents Part0.at_ d' [6; 5; 10; 20; 30].
Proof.
  destruct (X22_push_front_run sample_flat [5; 6] [10; 20; 30]
              sample_flat_valid sample_flat_allocated sample_flat_represents)
    as (d' & Hrun & _ & _ & Hl & _); [by vm_compute ..|].
  exists d'. split; [exact Hrun | exact Hl].
Defined.

(** ** The mapping of part_000, traversal, and the frame of pop_back *)

(** X23 (index translation of part_000).  In every valid state of
    part_000, for every logical index [i] in [[0, numElements)],
    [iaFromID] returns the absolute cell
    [(iaFront + i) mod (numBlocks * numCells)], [ibFromID] that cell
    divided by [numCells], [icFromID] that cell modulo [numCells], and
    [operator[]], [front()] and both overloads of [back()] form their
    reference from exactly this block and cell.  And every run of
    [push_back], [push_front], [pop_front], [pop_back] and [clear] calls
    that return, from a state whose count is within the capacity, ends in
    a state with [0 <= numElements <= numBlocks * numCells]. *)
Theorem X23_part000_index_translation {T : Type} `{FromInt T}
    (d d' : deque T) (i : Z) :
  (within_capacity d → rtc mutation d d' →
     0 ≤ numElements d' ≤ numBlocks d' * numCells d') ∧
  (valid d → 0 ≤ i < numElements d →
     let a := (iaFront d + i) mod (numBlocks d * numCells d) in
     let last := numElements d - 1 in
     Part0.iaFromID d i = Ok a ∧
     Part0.ibFromID d i = Ok (a / numCells d) ∧
     Part0.icFromID d i = Ok (a mod numCells d) ∧
     Part0.operator_index d i
       = element_ref (data d) (a / numCells d) (a mod numCells d) ∧
     Part0.front d = element_ref (data d) (block_of d 0) (cell_of d 0) ∧
     Part0.back d = element_ref (data d) (block_of d last) (cell_of d last) ∧
     Part0.back_const d
       = element_ref (data d) (block_of d last) (cell_of d last)).
Proof.
  split.
  - intros Hd Hrun.
    destruct (capacity_invariant d d' Hrun Hd) as (_ & _ & [Hn _] & Hcap).
    done.
  - intros Hv Hi a last. pose proof Hv as [Hc Hb Hti Hcount Hf Hsum Harr].
    pose proof (valid_size_max d Hv) as Hsz. pose proof int_min_neg as Hmin.
    assert (0 < total_cells d) as Htot by lia.
    split; [apply Part0_iaFromID_spec; lia|].
    split; [apply Part0_ibFromID_spec; lia|].
    split; [apply Part0_icFromID_spec; lia|].
    split; [apply operator_index_spec; (done || lia)|].
    split; [apply operator_index_spec; (done || lia)|].
    split.
    + unfold Part0.back. rewrite back_index by (done || lia).
      apply operator_index_spec; (done || lia).
    + unfold Part0.back_const.
      rewrite (to_size_int (numElements d - 1)), to_int_small by lia.
      apply operator_index_spec; (done || lia).
Qed.

Lemma X23_part000_index_translation_witness :
  0 ≤ numElements sample_flat_popped
    ≤ numBlocks sample_flat_popped * numCells sample_flat_popped ∧
  Part0.iaFromID sample_wrapped 1 = Ok 0 ∧
  Part0.ibFromID sample_wrapped 1 = Ok 0 ∧
  Part0.icFromID sample_wrapped 1 = Ok 0.
Proof.
  split.
  - destruct (X23_part000_index_translation sample_flat sample_flat_popped 0)
      as [Hrun _].
    apply Hrun.
    + repeat split; by vm_compute.
    + apply rtc_once, mut_pop_back. reflexivity.
  - destruct (X23_part000_index_translation sample_wrapped sample_wrapped 1)
      as [_ Hmap].
    destruct (Hmap sample_wrapped_valid) as (Ha & Hb & Hc & _);
      [by vm_compute|].
    split; [exact Ha|]. split; [exact Hb | exact Hc].
Defined.

(** X24 (front round trip).  For every sequence of values pushed with
    [push_front] onto a valid empty deque whose blocks are all allocated
    and have room for them (and whose cell count is at most half of
    [int]'s range, so that no [iaFront + id] overflows), reading [front()]
    before each [pop_front] yields the values in reverse order of
    insertion. *)
Theorem X24_front_round_trip {T : Type} `{FromInt T}
    (d : deque T) (vs : list T) :
  valid d → allocated d → numElements d = 0 →
  Z.of_nat (length vs) ≤ total_cells d → 2 * total_cells d ≤ int_max →
  round_trip Part0.push_front Part0.front Part0.pop_front d vs = Ok (rev vs).
Proof.
  intros Hv Ha Hn Hroom Hhalf. unfold round_trip.
  destruct (push_front_all_spec vs d [] Hv Ha) as (d1 & -> & Hv1 & Ha1 & Hl1);
    [by split | lia | done |].
  cbn [mbind result_bind]. rewrite app_nil_r in Hl1.
  destruct (drain_front_spec (rev vs) d1 Hv1 Ha1 Hl1) as (d2 & Hrun & _).
  rewrite length_rev in Hrun. by rewrite Hrun.
Qed.

Lemma X24_front_round_trip_witness :
  round_trip Part0.push_front Part0.front Part0.pop_front sample_empty [1; 2; 3]
    = Ok [3; 2; 1].
Proof.
  apply (X24_front_round_trip sample_empty [1; 2; 3]
           sample_empty_valid sample_empty_allocated);
    by vm_compute.
Defined.

(** X25 (iterator traversal).  For every deque with a count that fits an
    [int] and which holds the sequence [l] as its own [operator[]] reads
    it (for part_000 any layout, wrapped or not; for deque.h the layouts it
    can index, which leaves the wrapped ones out): [begin()] has index 0,
    [end()] has index [numElements], [end() - begin()] is [size()], and
    advancing [begin()] with [++] until it equals [end()] reads exactly the
    [size()] values of [l], the i-th one at the i-th step. *)
Theorem X25_iterator_traversal {T : Type} (d : deque T) (l : list T) :
  numElements d ≤ int_max →
  (represents DequeH.at_ d l →
     it_id (DequeH.begin d) = 0 ∧
     it_id (DequeH.end_ d) = numElements d ∧
     it_sub (DequeH.end_ d) (DequeH.begin d) = size d ∧
     Z.of_nat (length l) = size d ∧
     ∀ fuel, (length l < fuel)%nat →
       traverse_from DequeH.end_ DequeH.deref fuel d (DequeH.begin d) = Ok l) ∧
  (represents Part0.at_ d l →
     it_id (Part0.begin d) = 0 ∧
     it_id (Part0.end_ d) = numElements d ∧
     it_sub (Part0.end_ d) (Part0.begin d) = size d ∧
     Z.of_nat (length l) = size d ∧
     ∀ fuel, (length l < fuel)%nat →
       traverse_from Part0.end_ Part0.deref fuel d (Part0.begin d) = Ok l).
Proof.
  intros Hmax. pose proof int_min_neg as Hmin.
  split; intros Hl; pose proof Hl as [Hlen _];
    (split; [done|]);
    (split; [cbn; apply to_int_small; lia|]);
    (split; [unfold it_sub, size; cbn; rewrite Z.sub_0_r;
             rewrite (to_int_small (numElements d)) by lia;
             apply to_int_small; lia|]);
    (split; [unfold size; lia|]);
    intros fuel Hfuel.
  - by apply (traverse_from_begin DequeH.operator_index).
  - by apply (traverse_from_begin Part0.operator_index).
Qed.

Lemma X25_iterator_traversal_witness :
  traverse_from DequeH.end_ DequeH.deref 4 sample_flat (DequeH.begin sample_flat)
    = Ok [10; 20; 30] ∧
  traverse_from Part0.end_ Part0.deref 3 sample_wrapped
    (Part0.begin sample_wrapped) = Ok [10; 20].
Proof.
  destruct (X25_iterator_traversal sample_flat [10; 20; 30]) as [HH _];
    [by vm_compute|].
  destruct (X25_iterator_traversal sample_wrapped [10; 20]) as [_ HP];
    [by vm_compute|].
  destruct (HH sample_flat_represents_skeleton) as (_ & _ & _ & _ & HrunH).
  destruct (HP sample_wrapped_represents) as (_ & _ & _ & _ & HrunP).
  split; [apply HrunH | apply HrunP]; cbn; lia.
Defined.

(** X26 (frame of pop_back).  On a valid non-empty deque whose last slot
    the variant's own [back()] can designate (for part_000: the slot
    exists; for deque.h: it exists and the last index does not lie past the
    end of the block array), [pop_back()] returns; the front offset and the
    geometry are unchanged, the count drops by one, and every remaining
    logical index reads what it read before. *)
Theorem X26_pop_back_frame {T : Type} (d : deque T) :
  valid d → 0 < numElements d →
  (is_ok (DequeH.back d) →
     ∃ d', DequeH.pop_back d = Ok d' ∧
       numCells d' = numCells d ∧ numBlocks d' = numBlocks d ∧
       iaFront d' = iaFront d ∧ numElements d' = numElements d - 1 ∧
       (∀ i, 0 ≤ i < numElements d - 1 → DequeH.at_ d' i = DequeH.at_ d i)) ∧
  (is_ok (Part0.back d) →
     ∃ d', Part0.pop_back d = Ok d' ∧
       numCells d' = numCells d ∧ numBlocks d' = numBlocks d ∧
       iaFront d' = iaFront d ∧ numElements d' = numElements d - 1 ∧
       (∀ i, 0 ≤ i < numElements d - 1 → Part0.at_ d' i = Part0.at_ d i)).
Proof.
  intros Hv Hn. split; intros Hback.
  - destruct (DequeH_pop_back_spec d Hv Hn Hback)
      as (d' & Hrun & HC & HB & HF & HN & _ & Hrest).
    by exists d'.
  - destruct (Part0_pop_back_spec d Hv Hn Hback)
      as (d' & Hrun & HC & HB & HF & HN & _ & Hrest).
    by exists d'.
Qed.

Lemma X26_pop_back_frame_witness :
  (∃ d', DequeH.pop_back sample_flat = Ok d' ∧ iaFront d' = 1 ∧
         numElements d' = 2 ∧ DequeH.at_ d' 1 = Ok 20) ∧
  (∃ d', Part0.pop_back sample_wrapped = Ok d' ∧ iaFront d' = 7 ∧
         numElements d' = 1 ∧ Part0.at_ d' 0 = Ok 10).
Proof.
  split.
  - destruct (X26_pop_back_frame sample_flat sample_flat_valid) as [HH _];
      [by vm_compute|].
    destruct (HH I) as (d' & Hrun & _ & _ & Hf & Hn & Hrest).
    exists d'. split; [exact Hrun|]. split; [exact Hf|]. split; [exact Hn|].
    rewrite (Hrest 1); [reflexivity | by vm_compute].
  - destruct (X26_pop_back_frame sample_wrapped sample_wrapped_valid) as [_ HP];
      [by vm_compute|].
    destruct (HP I) as (d' & Hrun & _ & _ & Hf & Hn & Hrest).
    exists d'. split; [exact Hrun|]. split; [exact Hf|]. split; [exact Hn|].
    rewrite (Hrest 0); [reflexivity | by vm_compute].
Defined.

(** * Clearing *)

(** ** What a cleared deque does *)

Section ClearedBehaviour.
Context {T : Type} `{FromInt T}.
Implicit Types (d : deque T).


End ClearedBehaviour.

Section AssignEmptyTarget.
Context {T : Type}.
Implicit Types (lhs rhs : deque T).




End AssignEmptyTarget.


